(** * snagtodxf: the raster-to-DXF contour pipeline of [src/app/api/convert/route.ts]

    The route file exists in three revisions in the repository.  They are
    referred to below as
      - revision A: lines 1-811    (dimension control, LINE writer with [cleanPoints]),
      - revision B: lines 812-1848 ([findPerfectContour] tracer, no scaling),
      - revision C: lines 1849-4271 (adaptive reduction, segment merging,
                                     coordinate normalisation).

    Modelling conventions.
      - Pixel coordinates, image dimensions and loop counters are integers ([Z]).
      - Every other JavaScript number is an exact rational ([Q]).  Where a
        property depends on the rounding of IEEE doubles, the function is given
        a second time with the rounding [fl] of its operations as a parameter
        (module [Rounding]); NaN and the infinities are outside the model.
      - [Math.sqrt], [Math.atan2] and [Number.prototype.toString] belong to the
        JavaScript runtime, not to the repository; the functions that call them
        take them as parameters.
      - A read [pixels[y][x]] outside the array is a fault of the model
        ([Err OutOfBounds]); a loop that needs more steps than it was given is
        [Err OutOfFuel]; a quotient with divisor zero, where the source puts
        no lower bound on the divisor, is [Err DivisionByZero]. *)

From Stdlib Require Import String Ascii.
From Stdlib Require Import ZArith List Bool Lia.
From Stdlib Require Import QArith Qround Qabs Qminmax Lqa.
From Stdlib Require Import Sorted Permutation DecimalString.
Import ListNotations.

(** ** Results of fallible code *)

Inductive error : Type :=
| OutOfBounds
| OutOfFuel
| DivisionByZero.

Inductive result (A : Type) : Type :=
| Ok (a : A)
| Err (e : error).

Arguments Ok {A} a.
Arguments Err {A} e.

Definition bind {A B : Type} (r : result A) (k : A -> result B) : result B :=
  match r with
  | Ok a => k a
  | Err e => Err e
  end.

Notation "x <- r ;; k" := (bind r (fun x => k))
  (at level 61, r at next level, right associativity).

(** ** Boundary tracer *)

Module Tracer.

Local Open Scope Z_scope.

Definition pixelGrid : Type := list (list Z).
Definition pixel : Type := (Z * Z)%type.

(** [pixels[y][x]] *)
Definition readPixel (pixels : pixelGrid) (x y : Z) : result Z :=
  if (x <? 0) || (y <? 0) then Err OutOfBounds
  else match nth_error pixels (Z.to_nat y) with
       | None => Err OutOfBounds
       | Some row =>
           match nth_error row (Z.to_nat x) with
           | None => Err OutOfBounds
           | Some v => Ok v
           end
       end.

(** The grid [findContours] builds: [height] rows of [width] cells. *)
Definition wellFormed (pixels : pixelGrid) (width height : Z) : Prop :=
  0 <= width /\ 0 <= height /\
  length pixels = Z.to_nat height /\
  Forall (fun row => length row = Z.to_nat width) pixels.

Definition inImage (width height x y : Z) : bool :=
  (0 <=? x) && (x <? width) && (0 <=? y) && (y <? height).

(** *** The initial row-major scan (route.ts 159-167) *)

(** Columns [x, x + n) of row [y]. *)
Fixpoint scanRow (pixels : pixelGrid) (y x : Z) (n : nat) : result (option pixel) :=
  match n with
  | O => Ok None
  | S n' =>
      v <- readPixel pixels x y ;;
      if v =? 1 then Ok (Some (x, y)) else scanRow pixels y (x + 1) n'
  end.

(** Rows [y, y + n). *)
Fixpoint scanRows (pixels : pixelGrid) (width y : Z) (n : nat) : result (option pixel) :=
  match n with
  | O => Ok None
  | S n' =>
      r <- scanRow pixels y 0 (Z.to_nat width) ;;
      match r with
      | Some p => Ok (Some p)
      | None => scanRows pixels width (y + 1) n'
      end
  end.

Definition findStart (pixels : pixelGrid) (width height : Z) : result (option pixel) :=
  scanRows pixels width 0 (Z.to_nat height).

(** *** The eight directions (route.ts 183-192) *)

Definition directions : list (Z * Z) :=
  [ (1, 0);    (* East *)
    (1, -1);   (* Northeast *)
    (0, -1);   (* North *)
    (-1, -1);  (* Northwest *)
    (-1, 0);   (* West *)
    (-1, 1);   (* Southwest *)
    (0, 1);    (* South *)
    (1, 1) ].  (* Southeast *)

Definition directionAt (dirIndex : Z) : Z * Z :=
  nth (Z.to_nat dirIndex) directions (0, 0).

(** *** The visited set: keys [`${x},${y}`], one per pixel *)

Definition visitedSet : Type := list pixel.

Definition pixel_eqb (p q : pixel) : bool :=
  (fst p =? fst q) && (snd p =? snd q).

Definition has (visited : visitedSet) (x y : Z) : bool :=
  existsb (pixel_eqb (x, y)) visited.

Definition add (visited : visitedSet) (x y : Z) : visitedSet :=
  visited ++ [(x, y)].

(** *** The boundary test of a candidate (route.ts 213-229)

    The 3x3 block around the candidate is read row by row; a cell outside the
    image counts as white, and the first white cell ends both loops. *)

Definition block3x3 (x y : Z) : list pixel :=
  [ (x - 1, y - 1); (x, y - 1); (x + 1, y - 1);
    (x - 1, y);     (x, y);     (x + 1, y);
    (x - 1, y + 1); (x, y + 1); (x + 1, y + 1) ].

Fixpoint anyWhite (pixels : pixelGrid) (width height : Z) (cells : list pixel)
  : result bool :=
  match cells with
  | [] => Ok false
  | (checkX, checkY) :: rest =>
      if inImage width height checkX checkY then
        v <- readPixel pixels checkX checkY ;;
        if v =? 0 then Ok true else anyWhite pixels width height rest
      else Ok true
  end.

Definition hasWhiteNeighbor (pixels : pixelGrid) (width height testX testY : Z)
  : result bool :=
  anyWhite pixels width height (block3x3 testX testY).

(** *** One pass of the neighbour scan (route.ts 205-240)

    [boundaryTest] is the extra test a foreground, unvisited neighbour has to
    pass: [hasWhiteNeighbor] in [findSingleOuterBoundary], nothing in
    [findPerfectContour] of revision B. *)

Record found : Type := mkFound {
  nextX : Z;
  nextY : Z;
  nextDirection : Z
}.

Section Scan.

Variable pixels : pixelGrid.
Variables width height : Z.
Variable boundaryTest : Z -> Z -> result bool.

Fixpoint scanNeighbours (visited : visitedSet) (currentX currentY direction : Z)
  (offsets : list Z) : result (option found) :=
  match offsets with
  | [] => Ok None
  | i :: rest =>
      let dirIndex := (direction + i) mod 8 in
      let '(dx, dy) := directionAt dirIndex in
      let testX := currentX + dx in
      let testY := currentY + dy in
      if inImage width height testX testY then
        v <- readPixel pixels testX testY ;;
        if (v =? 1) && negb (has visited testX testY) then
          w <- boundaryTest testX testY ;;
          if w then Ok (Some (mkFound testX testY ((dirIndex + 6) mod 8)))
          else scanNeighbours visited currentX currentY direction rest
        else scanNeighbours visited currentX currentY direction rest
      else scanNeighbours visited currentX currentY direction rest
  end.

(** [for (let i = 0; i < 8; i++)] *)
Definition scanOffsets : list Z := [0; 1; 2; 3; 4; 5; 6; 7].

(** *** The trace loop (route.ts 197-258) *)

Record traceState : Type := mkState {
  boundary : list pixel;
  visited : visitedSet;
  currentX : Z;
  currentY : Z;
  direction : Z;
  iterations : Z
}.

Inductive stepResult : Type :=
| NotFound                    (* [if (!found) break] *)
| LoopClosed                  (* back at the start with more than 3 points *)
| Advance (s : traceState).

Variables startX startY : Z.

Definition traceStep (s : traceState) : result stepResult :=
  f <- scanNeighbours (visited s) (currentX s) (currentY s) (direction s)
         scanOffsets ;;
  match f with
  | None => Ok NotFound
  | Some n =>
      if (nextX n =? startX) && (nextY n =? startY)
         && (3 <? Z.of_nat (length (boundary s)))
      then Ok LoopClosed
      else Ok (Advance
                 {| boundary := boundary s ++ [(nextX n, - nextY n)];
                    visited := add (visited s) (nextX n) (nextY n);
                    currentX := nextX n;
                    currentY := nextY n;
                    direction := nextDirection n;
                    iterations := iterations s + 1 |})
  end.

Inductive exitReason : Type :=
| NoNeighbour
| ClosedLoop
| IterationCap.

(** [while (iterations < maxIterations) { ... }]: [fuel] bounds the number of
    times the loop condition is evaluated. *)
Fixpoint traceLoop (maxIterations : Z) (fuel : nat) (s : traceState)
  : result (exitReason * traceState) :=
  match fuel with
  | O => Err OutOfFuel
  | S fuel' =>
      if iterations s <? maxIterations then
        r <- traceStep s ;;
        match r with
        | NotFound => Ok (NoNeighbour, s)
        | LoopClosed => Ok (ClosedLoop, s)
        | Advance s' => traceLoop maxIterations fuel' s'
        end
      else Ok (IterationCap, s)
  end.

Definition initialState : traceState :=
  {| boundary := [(startX, - startY)];
     visited := add [] startX startY;
     currentX := startX;
     currentY := startY;
     direction := 0;
     iterations := 0 |}.

End Scan.

(** *** [findSingleOuterBoundary] (revision A, route.ts 157-262) *)

Definition findSingleOuterBoundary (pixels : pixelGrid) (width height : Z)
  : result (list pixel) :=
  start <- findStart pixels width height ;;
  match start with
  | None => Ok []
  | Some (startX, startY) =>
      let maxIterations := width * height * 2 in
      r <- traceLoop pixels width height (hasWhiteNeighbor pixels width height)
             startX startY maxIterations (S (Z.to_nat maxIterations))
             (initialState startX startY) ;;
      Ok (boundary (snd r))
  end.

(** *** What one pass of the scan looks for, read off the grid *)

Section Candidates.

Variable pixels : pixelGrid.
Variables width height : Z.

Definition foreground (x y : Z) : bool :=
  match readPixel pixels x y with
  | Ok v => v =? 1
  | Err _ => false
  end.

(** No cell of the image holds 1. *)
Definition noForeground : Prop :=
  forall x y, inImage width height x y = true -> readPixel pixels x y <> Ok 1.

(** A cell that counts as white: outside the image, or holding 0. *)
Definition white (x y : Z) : bool :=
  if inImage width height x y then
    match readPixel pixels x y with
    | Ok v => v =? 0
    | Err _ => false
    end
  else true.

Definition onBoundary (x y : Z) : bool :=
  existsb (fun c => white (fst c) (snd c)) (block3x3 x y).

(** [test] is the pure reading of [boundaryTest]. *)
Variable test : Z -> Z -> bool.

Definition candidate (visited : visitedSet) (x y : Z) : bool :=
  inImage width height x y && foreground x y && negb (has visited x y)
  && test x y.

(** The neighbour reached from the current pixel at scan offset [i]. *)
Definition neighbourAt (s : traceState) (i : Z) : pixel :=
  let d := directionAt ((direction s + i) mod 8) in
  (currentX s + fst d, currentY s + snd d).

(** The first offset, in scan order, whose neighbour is a candidate. *)
Definition firstCandidate (s : traceState) : option Z :=
  find (fun i => candidate (visited s) (fst (neighbourAt s i)) (snd (neighbourAt s i)))
       scanOffsets.

(** The state after recording the neighbour at offset [i]. *)
Definition record (s : traceState) (i : Z) : traceState :=
  let n := neighbourAt s i in
  {| boundary := boundary s ++ [(fst n, - snd n)];
     visited := add (visited s) (fst n) (snd n);
     currentX := fst n;
     currentY := snd n;
     direction := ((direction s + i) mod 8 + 6) mod 8;
     iterations := iterations s + 1 |}.

(** Why the loop stopped in state [s] (route.ts 200, 242, 245). *)
Definition exitCondition (startX startY maxIterations : Z) (reason : exitReason)
  (s : traceState) : Prop :=
  match reason with
  | NoNeighbour => iterations s < maxIterations /\ firstCandidate s = None
  | ClosedLoop =>
      iterations s < maxIterations /\
      exists i, firstCandidate s = Some i /\
                neighbourAt s i = (startX, startY) /\
                3 < Z.of_nat (length (boundary s))
  | IterationCap => maxIterations <= iterations s
  end.

End Candidates.

(** *** [findBoundaryPixels] and [findPerfectContour] (revision B, route.ts 905-1025) *)

(** The eight cells around [(x, y)], in the order of the [dy], [dx] loops. *)
Definition ring8 (x y : Z) : list pixel :=
  [ (x - 1, y - 1); (x, y - 1); (x + 1, y - 1);
    (x - 1, y);                 (x + 1, y);
    (x - 1, y + 1); (x, y + 1); (x + 1, y + 1) ].

(** Columns [x, x + n) of row [y]. *)
Fixpoint boundaryPixelsRow (pixels : pixelGrid) (width height y x : Z) (n : nat)
  : result (list pixel) :=
  match n with
  | O => Ok []
  | S n' =>
      v <- readPixel pixels x y ;;
      here <- (if v =? 1 then
                 w <- anyWhite pixels width height (ring8 x y) ;;
                 Ok (if w then [(x, y)] else [])
               else Ok []) ;;
      rest <- boundaryPixelsRow pixels width height y (x + 1) n' ;;
      Ok (here ++ rest)
  end.

(** Rows [y, y + n). *)
Fixpoint boundaryPixelsRows (pixels : pixelGrid) (width height y : Z) (n : nat)
  : result (list pixel) :=
  match n with
  | O => Ok []
  | S n' =>
      row <- boundaryPixelsRow pixels width height y 0 (Z.to_nat width) ;;
      rest <- boundaryPixelsRows pixels width height (y + 1) n' ;;
      Ok (row ++ rest)
  end.

Definition findBoundaryPixels (pixels : pixelGrid) (width height : Z)
  : result (list pixel) :=
  boundaryPixelsRows pixels width height 0 (Z.to_nat height).

(** The topmost, then leftmost, boundary pixel (route.ts 911-920). *)
Definition pickStart (first : pixel) (others : list pixel) : pixel :=
  fold_left
    (fun start p =>
       if (snd p <? snd start) || ((snd p =? snd start) && (fst p <? fst start))
       then p else start)
    others first.

Definition findPerfectContour (pixels : pixelGrid) (width height : Z)
  : result (list pixel) :=
  boundaryPixels <- findBoundaryPixels pixels width height ;;
  match boundaryPixels with
  | [] => Ok []
  | first :: others =>
      let '(startX, startY) := pickStart first others in
      let maxIterations := Z.of_nat (length boundaryPixels) * 2 in
      r <- traceLoop pixels width height (fun _ _ => Ok true)
             startX startY maxIterations (S (Z.to_nat maxIterations))
             (initialState startX startY) ;;
      Ok (boundary (snd r))
  end.

End Tracer.

(** ** Numbers and the JavaScript runtime *)

Module Num.

Local Open Scope Q_scope.

(** A point is a two-element array [[x, y]]. *)
Definition point : Type := (Q * Q)%type.
Definition contour : Type := list point.

(** [a < b] on numbers *)
Definition Qltb (a b : Q) : bool := negb (Qle_bool b a).

(** [Math.PI], the double nearest to pi *)
Definition Math_PI : Q := 884279719003555 # 281474976710656.

(** [Math.floor] *)
Definition Math_floor (x : Q) : Z := Qfloor x.

(** A number used as a condition: [0] is falsy. *)
Definition truthy (x : Q) : bool := negb (Qeq_bool x 0).

(** [a / b] where the source gives no lower bound on the divisor. *)
Definition divide (a b : Q) : result Q :=
  if Qeq_bool b 0 then Err DivisionByZero else Ok (a / b).

(** [contour[i]]; every index the modelled code uses is below the length. *)
Definition at_ (c : contour) (i : nat) : point := nth i c (0, 0).

(** [c[c.length - 1]] *)
Definition lastOf (c : contour) : point := last c (0, 0).

(** ['width' | 'height'] *)
Inductive dimension : Type :=
| WIDTH
| HEIGHT.

(** [Math.min] folded from [Infinity] *)
Inductive extended : Type :=
| Infinity
| Finite (q : Q).

Definition minWith (m : extended) (y : Q) : extended :=
  match m with
  | Infinity => Finite y
  | Finite q => Finite (Qmin q y)
  end.

End Num.

(** ** Rounding

    Where a property depends on it, the rounding of the floating-point
    operations is written out: [fl] stands for the rounding, applied to the
    exact result of an operation.  Rounding keeps the order of two numbers,
    leaves a rounded number as it is, commutes with the change of sign and
    leaves 1 as it is.  The rounding to nearest of IEEE doubles has these
    properties as long as no operation overflows; so has exact arithmetic,
    where nothing is rounded. *)

Module Rounding.

Local Open Scope Q_scope.

Record sound (fl : Q -> Q) : Prop := mkSound {
  monotone : forall x y, x <= y -> fl x <= fl y;
  idempotent : forall x, fl (fl x) == fl x;
  odd : forall x, fl (- x) == - fl x;
  one : fl 1 == 1
}.

(** Exact arithmetic *)
Definition exact (x : Q) : Q := x.

(** Rounding toward zero to whole numbers *)
Definition truncate (x : Q) : Q :=
  if Qle_bool 0 x then inject_Z (Qfloor x) else - inject_Z (Qfloor (- x)).

End Rounding.

(** ** What the properties assume of the runtime

    [Math.sqrt] is accurate to one part in a thousand.  [Math.atan2] is
    bounded in the three sectors the properties visit, by the elementary
    bounds of the arc tangent (3/4 t <= atan t <= t for t in [0, 1]) relaxed
    by a factor and by [slack]: from East up to North-East, from West up, and
    from West down.  Implementations on IEEE doubles meet all of this with a
    wide margin. *)

Module Runtime.

Import Num.
Local Open Scope Q_scope.

Definition slack : Q := 1 # 1000000000.

Record facts (Math_sqrt : Q -> Q) (Math_atan2 : Q -> Q -> Q) : Prop := {
  sqrt_above :
    forall x t, 0 <= t -> (1001 # 1000) * (t * t) < x -> t < Math_sqrt x;
  sqrt_below :
    forall x t, 0 <= x -> 0 < t -> (1001 # 1000) * x < t * t -> Math_sqrt x < t;
  atan2_east_up :
    forall dy dx, 0 < dx -> 0 <= dy -> dy <= dx ->
    (3 # 4) * (dy / dx) <= Math_atan2 dy dx <= (1001 # 1000) * (dy / dx);
  atan2_west_up :
    forall dy dx, dx < 0 -> 0 <= dy ->
    Math_PI - 2 * (dy / (- dx)) - slack <= Math_atan2 dy dx <= Math_PI + slack;
  atan2_west_down :
    forall dy dx, dx < 0 -> dy < 0 ->
    - Math_PI - slack <= Math_atan2 dy dx <= - Math_PI + 2 * (dy / dx) + slack
}.

(** Distance tests that need no square root: they decide the comparisons of
    [Math.sqrt(dx * dx + dy * dy)] with a tolerance whenever the squared
    distance is off the squared tolerance by more than one part in a thousand. *)

Definition squaredDistance (p q : point) : Q :=
  let dx := fst p - fst q in
  let dy := snd p - snd q in
  dx * dx + dy * dy.

Definition farApart (tolerance : Q) (p q : point) : bool :=
  Qltb ((1001 # 1000) * (tolerance * tolerance)) (squaredDistance p q).

Definition closeBy (tolerance : Q) (p q : point) : bool :=
  Qltb ((1001 # 1000) * squaredDistance p q) (tolerance * tolerance).

(** A square root from the integer square root, with 11 extra bits. *)
Definition sqrt_sample (x : Q) : Q :=
  Z.sqrt (Qnum x * QDen x * 4 ^ 11) # (Qden x * 2 ^ 11).

(** A function that meets the three bounds on [Math.atan2] and is 0 elsewhere. *)
Definition atan2_sample (dy dx : Q) : Q :=
  if Qltb 0 dx then
    if Qle_bool 0 dy && Qle_bool dy dx then dy / dx else 0
  else if Qltb dx 0 then
    if Qle_bool 0 dy then Math_PI else - Math_PI
  else 0.

End Runtime.

(** ** Path stages shared by the revisions *)

Module Stages.

Import Num.
Local Open Scope Q_scope.

Section Runtime.

Variable Math_sqrt : Q -> Q.
Variable Math_atan2 : Q -> Q -> Q.

(** [Math.sqrt(dx * dx + dy * dy)] with [dx = p[0] - q[0]], [dy = p[1] - q[1]] *)
Definition distance (p q : point) : Q :=
  let dx := fst p - fst q in
  let dy := snd p - snd q in
  Math_sqrt (dx * dx + dy * dy).

(** *** [removeDuplicatePoints] (revision A 431-466, revision C 3594-3629) *)

Fixpoint keepDistinct (tolerance : Q) (cleaned rest : contour) : contour :=
  match rest with
  | [] => cleaned
  | current :: rest' =>
      if Qltb tolerance (distance current (lastOf cleaned))
      then keepDistinct tolerance (cleaned ++ [current]) rest'
      else keepDistinct tolerance cleaned rest'
  end.

Definition removeDuplicatePoints (c : contour) (tolerance : Q) : contour :=
  match c with
  | [] | [_] => c
  | first :: rest =>
      let cleaned := keepDistinct tolerance [first] rest in
      if (2 <? length cleaned)%nat
      then if Qltb (distance (lastOf cleaned) (at_ cleaned 0)) tolerance
           then removelast cleaned
           else cleaned
      else cleaned
  end.

(** *** [straightenNearOrthogonalLines] (revision A 378-428, revision C 3541-3591)

    The two copies differ in the constant [tolerance] only. *)

Definition twoPi : Q := 2 * Math_PI.

(** [while (normalizedAngle < 0) normalizedAngle += 2 * Math.PI] *)
Fixpoint raiseAngle (fuel : nat) (a : Q) : Q :=
  match fuel with
  | O => a
  | S fuel' => if Qltb a 0 then raiseAngle fuel' (a + twoPi) else a
  end.

(** [while (normalizedAngle >= 2 * Math.PI) normalizedAngle -= 2 * Math.PI] *)
Fixpoint lowerAngle (fuel : nat) (a : Q) : Q :=
  match fuel with
  | O => a
  | S fuel' => if Qle_bool twoPi a then lowerAngle fuel' (a - twoPi) else a
  end.

(** The number of full turns in [a]: as many passes as either loop can make. *)
Definition turns (a : Q) : nat := Z.to_nat (Qceiling (Qabs a / twoPi)).

Definition normalizeAngle (angle : Q) : Q :=
  let raised := raiseAngle (turns angle) angle in
  lowerAngle (turns raised) raised.

Definition snapSegment (tolerance : Q) (current next : point) : point :=
  let dx := fst next - fst current in
  let dy := snd next - snd current in
  let angle := Math_atan2 dy dx in
  let normalizedAngle := normalizeAngle angle in
  let isNearHorizontal :=
    Qltb (Qabs normalizedAngle) tolerance
    || Qltb (Qabs (normalizedAngle - Math_PI)) tolerance
    || Qltb (Qabs (normalizedAngle - 2 * Math_PI)) tolerance in
  let isNearVertical :=
    Qltb (Qabs (normalizedAngle - Math_PI / 2)) tolerance
    || Qltb (Qabs (normalizedAngle - 3 * Math_PI / 2)) tolerance in
  if isNearHorizontal then (fst next, snd current)
  else if isNearVertical then (fst current, snd next)
  else next.

Definition straightenWith (tolerance : Q) (c : contour) : contour :=
  if (length c <? 2)%nat then c
  else at_ c 0 ::
       map (fun i => snapSegment tolerance (at_ c i) (at_ c ((i + 1) mod length c)))
           (seq 0 (length c)).

(** *** [simplifyContour] (revision A 604-664, revision C 4065-4125) *)

Definition getPerpendicularDistance (p lineStart lineEnd : point) : result Q :=
  let A := fst p - fst lineStart in
  let B := snd p - snd lineStart in
  let C := fst lineEnd - fst lineStart in
  let D := snd lineEnd - snd lineStart in
  let dot := A * C + B * D in
  let lenSq := C * C + D * D in
  if Qeq_bool lenSq 0 then Ok (Math_sqrt (A * A + B * B))
  else
    param <- divide dot lenSq ;;
    let '(xx, yy) :=
      if Qltb param 0 then (fst lineStart, snd lineStart)
      else if Qltb 1 param then (fst lineEnd, snd lineEnd)
      else (fst lineStart + param * C, snd lineStart + param * D) in
    let dx := fst p - xx in
    let dy := snd p - yy in
    Ok (dx * dx + dy * dy).

(** The loop [for (let i = 1; i < points.length - 1; i++)] of [douglasPeucker],
    over the indices [is]; the state is [(maxDistance, maxIndex)]. *)
Fixpoint farthest (points : contour) (indices : list nat) (acc : Q * nat)
  : result (Q * nat) :=
  match indices with
  | [] => Ok acc
  | i :: rest =>
      d <- getPerpendicularDistance (at_ points i) (at_ points 0)
             (at_ points (length points - 1)) ;;
      farthest points rest (if Qltb (fst acc) d then (d, i) else acc)
  end.

(** [fuel] bounds the depth of the recursion. *)
Fixpoint douglasPeucker (fuel : nat) (points : contour) (tolerance : Q)
  : result contour :=
  match fuel with
  | O => Err OutOfFuel
  | S fuel' =>
      if (length points <=? 2)%nat then Ok points
      else
        m <- farthest points (seq 1 (length points - 2)) (0, O) ;;
        let '(maxDistance, maxIndex) := m in
        if Qltb tolerance maxDistance then
          left <- douglasPeucker fuel' (firstn (maxIndex + 1) points) tolerance ;;
          right <- douglasPeucker fuel' (skipn maxIndex points) tolerance ;;
          Ok (removelast left ++ right)
        else Ok [at_ points 0; at_ points (length points - 1)]
  end.

(** [Math.max(tolerance * 0.3, 0.05)] *)
Definition scaledTolerance (tolerance : Q) : Q :=
  Qmax (tolerance * (3 # 10)) (5 # 100).

Definition simplifyContour (c : contour) (tolerance : Q) : result contour :=
  if (length c <=? 2)%nat then Ok c
  else douglasPeucker (length c) c (scaledTolerance tolerance).

(** *** [adaptivePointReduction] (revision C 3991-4018)

    [targetPoints] is at least 50, so [step] is a quotient by a positive number. *)

Definition targetPoints (len : nat) (reductionFactor : Q) : Z :=
  let maxPoints := 200%Z in
  let minPoints := Z.max 50 (Math_floor (inject_Z (Z.of_nat len) * (1 # 10))) in
  Z.min maxPoints
    (Z.max minPoints (Math_floor (inject_Z (Z.of_nat len) * (1 - reductionFactor)))).

Definition adaptivePointReduction (c : contour) (reductionFactor : Q) : contour :=
  if (length c <=? 3)%nat then c
  else
    let target := targetPoints (length c) reductionFactor in
    if (Z.of_nat (length c) <=? target)%Z then c
    else
      let step := inject_Z (Z.of_nat (length c)) / inject_Z target in
      [at_ c 0]
      ++ flat_map
           (fun i =>
              let index := Math_floor (inject_Z (Z.of_nat i) * step) in
              if ((0 <? index) && (index <? Z.of_nat (length c) - 1))%Z
              then [at_ c (Z.to_nat index)] else [])
           (seq 1 (Z.to_nat target - 2))
      ++ [at_ c (length c - 1)].

(** *** [mergeStraightLineSegments] (revision C 4021-4062) *)

(** [Math.min(angleDiff, Math.abs(angleDiff - Math.PI * 2))] of
    [angleDiff = Math.abs(lineAngle - nextAngle)] *)
Definition angleChange (lineAngle nextAngle : Q) : Q :=
  let angleDiff := Qabs (lineAngle - nextAngle) in
  Qmin angleDiff (Qabs (angleDiff - Math_PI * 2)).

(** The test [angleDiff > angleTolerance] at point [j] of a run from [startPoint]. *)
Definition turnsAt (c : contour) (angleTolerance : Q) (startPoint : point) (j : nat)
  : bool :=
  let currentPoint := at_ c j in
  let nextPoint := at_ c ((j + 1) mod length c) in
  let lineAngle :=
    Math_atan2 (snd currentPoint - snd startPoint)
               (fst currentPoint - fst startPoint) in
  let nextAngle :=
    Math_atan2 (snd nextPoint - snd currentPoint)
               (fst nextPoint - fst currentPoint) in
  Qltb angleTolerance (angleChange lineAngle nextAngle).

(** The inner [while (j < contour.length)]; the result is [lastGoodPoint]. *)
Fixpoint extendRun (c : contour) (angleTolerance : Q) (startPoint : point)
  (fuel j lastGoodPoint : nat) : nat :=
  match fuel with
  | O => lastGoodPoint
  | S fuel' =>
      if (j <? length c)%nat then
        if turnsAt c angleTolerance startPoint j
        then lastGoodPoint
        else extendRun c angleTolerance startPoint fuel' (j + 1) j
      else lastGoodPoint
  end.

(** The outer [while (i < contour.length)]; [i] grows on every pass. *)
Fixpoint mergeRuns (c : contour) (angleTolerance : Q) (fuel i : nat)
  (acc : contour) : contour :=
  match fuel with
  | O => acc
  | S fuel' =>
      if (i <? length c)%nat then
        let startPoint := at_ c i in
        let lastGoodPoint :=
          extendRun c angleTolerance startPoint (length c) (i + 1) i in
        mergeRuns c angleTolerance fuel' (Nat.max (lastGoodPoint + 1) (i + 1))
          (acc ++ [startPoint])
      else acc
  end.

Definition mergeStraightLineSegments (c : contour) (angleTolerance : Q) : contour :=
  if (length c <=? 2)%nat then c
  else mergeRuns c angleTolerance (length c) 0 [].

End Runtime.

End Stages.

(** ** Revision A (route.ts 1-811) *)

Module RevA.

Import Num.
Local Open Scope Q_scope.

Section Runtime.

Variable Math_sqrt : Q -> Q.
Variable Math_atan2 : Q -> Q -> Q.
(** [Number.prototype.toString] *)
Variable numberToString : Q -> string.

(** *** [SimpleDxfWriter] (route.ts 21-127): the state is [this.content] *)

Definition writer : Type := list string.

(** [constructor()] *)
Definition SimpleDxfWriter : writer :=
  [ "0"; "SECTION"; "2"; "HEADER"; "0"; "ENDSEC";
    "0"; "SECTION"; "2"; "ENTITIES" ]%string.

Fixpoint keepSeparated (minDistance : Q) (cleaned rest : contour) : contour :=
  match rest with
  | [] => cleaned
  | current :: rest' =>
      if Qle_bool minDistance (Stages.distance Math_sqrt current (lastOf cleaned))
      then keepSeparated minDistance (cleaned ++ [current]) rest'
      else keepSeparated minDistance cleaned rest'
  end.

Definition cleanPoints (points : contour) : contour :=
  match points with
  | [] | [_] => points
  | first :: rest =>
      let minDistance := 1 # 100 in
      let cleaned := keepSeparated minDistance [first] rest in
      if (2 <? length cleaned)%nat
      then if Qle_bool minDistance
                (Stages.distance Math_sqrt (lastOf cleaned) (at_ cleaned 0))
           then cleaned ++ [at_ cleaned 0]
           else cleaned
      else cleaned
  end.

Definition lineEntity (layer : string) (current next : point) : list string :=
  [ "0"; "LINE"; "8"; layer;
    "10"; numberToString (fst current);
    "20"; numberToString (snd current);
    "30"; "0.0";
    "11"; numberToString (fst next);
    "21"; numberToString (snd next);
    "31"; "0.0" ]%string.

Definition addPolyline (w : writer) (points : contour) (layer : string) : writer :=
  if (length points <? 2)%nat then w
  else
    let cleanedPoints := cleanPoints points in
    w ++ flat_map
           (fun i =>
              let current := at_ cleanedPoints i in
              let next := at_ cleanedPoints ((i + 1) mod length cleanedPoints) in
              if Qltb (Stages.distance Math_sqrt next current) (1 # 1000) then []
              else lineEntity layer current next)
           (seq 0 (length cleanedPoints)).

(** [this.content.join('\n')] *)
Fixpoint join (lines : list string) : string :=
  match lines with
  | [] => EmptyString
  | [l] => l
  | l :: rest => (l ++ String "010"%char (join rest))%string
  end.

(** [toString()]: the closing records are pushed onto [this.content] and the
    joined text is returned. *)
Definition toString (w : writer) : string * writer :=
  let content := w ++ [ "0"; "ENDSEC"; "0"; "EOF" ]%string in
  (join content, content).

(** *** Reading a document back

    The container is a sequence of (group code, value) line pairs.  It is
    structurally valid when the pairs form zero or more sections, each opened
    by [0 SECTION] followed by its name [2 ...] and closed by [0 ENDSEC], and
    the last pair is the end-of-file marker [0 EOF]. *)

Fixpoint groups (lines : list string) : option (list (string * string)) :=
  match lines with
  | [] => Some []
  | [_] => None
  | code :: value :: rest =>
      match groups rest with
      | Some gs => Some ((code, value) :: gs)
      | None => None
      end
  end.

Definition isGroup (code value : string) (g : string * string) : bool :=
  String.eqb (fst g) code && String.eqb (snd g) value.

(** [inside]: a section is open. *)
Fixpoint validGroups (inside : bool) (gs : list (string * string)) : bool :=
  match gs with
  | [] => false
  | g :: rest =>
      if inside then
        if isGroup "0" "ENDSEC" g then validGroups false rest
        else negb (isGroup "0" "SECTION" g) && negb (isGroup "0" "EOF" g)
             && validGroups true rest
      else
        if isGroup "0" "EOF" g then match rest with [] => true | _ => false end
        else if isGroup "0" "SECTION" g then
          match rest with
          | name :: rest' => String.eqb (fst name) "2" && validGroups true rest'
          | [] => false
          end
        else false
  end.

Definition structurallyValid (lines : list string) : bool :=
  match groups lines with
  | Some gs => validGroups false gs
  | None => false
  end.

(** The number of LINE entities of a document. *)
Definition lineEntities (lines : list string) : nat :=
  match groups lines with
  | Some gs => length (filter (isGroup "0" "LINE") gs)
  | None => O
  end.

(** The names of the sections of a document, in order: the value of the
    group [2 ...] that follows each [0 SECTION]. *)
Fixpoint sectionNamesOf (gs : list (string * string)) : list string :=
  match gs with
  | [] => []
  | g :: rest =>
      match rest with
      | name :: _ =>
          if isGroup "0" "SECTION" g && String.eqb (fst name) "2"
          then snd name :: sectionNamesOf rest
          else sectionNamesOf rest
      | [] => []
      end
  end.

Definition sectionNames (lines : list string) : list string :=
  match groups lines with
  | Some gs => sectionNamesOf gs
  | None => []
  end.

(** [text.split('\n')]: the lines of the returned text. *)
Fixpoint splitLines (text : string) : list string :=
  match text with
  | EmptyString => [EmptyString]
  | String c rest =>
      if Ascii.eqb c "010"%char then EmptyString :: splitLines rest
      else match splitLines rest with
           | l :: ls => String c l :: ls
           | [] => [String c EmptyString]
           end
  end.

(** The container as the specification describes it (section 6): a
    structurally valid document with four sections -- header, symbol tables,
    block definitions and entities.  In the DXF format these are the sections
    named HEADER, TABLES, BLOCKS and ENTITIES, as revision C writes them
    (route.ts 1880, 2092, 2516, 2600). *)
Definition fourSections : list string :=
  [ "HEADER"; "TABLES"; "BLOCKS"; "ENTITIES" ]%string.

Definition specContainer (lines : list string) : bool :=
  structurallyValid lines
  && forallb (fun name => existsb (String.eqb name) (sectionNames lines)) fourSections.

(** *** [scaleContour] (route.ts 331-375) *)

Definition scaleContour (c : contour) (targetDimensionInches imageDimensionPixels : Q)
  (dimensionControl : dimension) : result contour :=
  if (length c =? 0)%nat then Ok c
  else
    scaleFactor <- divide targetDimensionInches imageDimensionPixels ;;
    Ok (map (fun p => (fst p * scaleFactor, snd p * scaleFactor)) c).

Definition straightenNearOrthogonalLines : contour -> contour :=
  Stages.straightenWith Math_atan2 (3 # 100).

(** *** The stages of [convertRasterToDxf] that read the options (route.ts 578, 587) *)

(** [simplify ? simplifyContour(smoothedPath, simplify * 0.3) : smoothedPath] *)
Definition simplifiedPath (smoothedPath : contour) (simplify : Q) : result contour :=
  if truthy simplify
  then Stages.simplifyContour Math_sqrt smoothedPath (simplify * (3 # 10))
  else Ok smoothedPath.

Definition scaledPath (deduplicatedPath : contour) (dimensionControl : dimension)
  (width height : Q) (imageWidth imageHeight : Z) : result contour :=
  scaleContour deduplicatedPath
    (match dimensionControl with WIDTH => width | HEIGHT => height end)
    (match dimensionControl with
     | WIDTH => inject_Z imageWidth
     | HEIGHT => inject_Z imageHeight
     end)
    dimensionControl.

End Runtime.

End RevA.

(** ** Revision C (route.ts 1849-4271) *)

Module RevC.

Import Num.
Local Open Scope Q_scope.

Section Runtime.

Variable Math_sqrt : Q -> Q.
Variable Math_atan2 : Q -> Q -> Q.

(** *** [scaleContour] (route.ts 3468-3538) *)

Definition scaleContour (c : contour) (targetDimensionInches imageDimensionPixels : Q)
  (dimensionControl : dimension) : result contour :=
  if (length c =? 0)%nat then Ok c
  else
    scaleFactor <- divide targetDimensionInches imageDimensionPixels ;;
    let scaledContour := map (fun p => (fst p * scaleFactor, snd p * scaleFactor)) c in
    let scaledUpContour := map (fun p => (fst p * 100, snd p * 100)) scaledContour in
    let minY := fold_left (fun m p => minWith m (snd p)) scaledUpContour Infinity in
    match minY with
    | Finite m =>
        if Qltb m 0 then
          let offsetY := Qabs m + 10 in
          Ok (map (fun p => (fst p, snd p + offsetY)) scaledUpContour)
        else Ok scaledUpContour
    | Infinity => Ok scaledUpContour
    end.

(** [scaleContour] with the rounding of its operations written out: of the
    quotient, of every product and of every sum.  [Math.min] and [Math.abs]
    do not round. *)
Definition scaleContourRounded (fl : Q -> Q) (c : contour)
  (targetDimensionInches imageDimensionPixels : Q) (dimensionControl : dimension)
  : result contour :=
  if (length c =? 0)%nat then Ok c
  else
    quotient <- divide targetDimensionInches imageDimensionPixels ;;
    let scaleFactor := fl quotient in
    let scaledContour :=
      map (fun p => (fl (fst p * scaleFactor), fl (snd p * scaleFactor))) c in
    let scaledUpContour :=
      map (fun p => (fl (fst p * 100), fl (snd p * 100))) scaledContour in
    let minY := fold_left (fun m p => minWith m (snd p)) scaledUpContour Infinity in
    match minY with
    | Finite m =>
        if Qltb m 0 then
          let offsetY := fl (Qabs m + 10) in
          Ok (map (fun p => (fst p, fl (snd p + offsetY))) scaledUpContour)
        else Ok scaledUpContour
    | Infinity => Ok scaledUpContour
    end.

Definition straightenNearOrthogonalLines : contour -> contour :=
  Stages.straightenWith Math_atan2 (5 # 100).

(** *** The refinement chain of [convertRasterToDxf] (route.ts 3947-3962) *)

Definition finalPath (boundary : contour) (simplify : Q) : contour :=
  let cleanedPath := Stages.removeDuplicatePoints Math_sqrt boundary (1 # 100) in
  let reducedPath := Stages.adaptivePointReduction cleanedPath simplify in
  let mergedStraightLines :=
    Stages.mergeStraightLineSegments Math_atan2 reducedPath (2 # 100) in
  let straightenedPath := straightenNearOrthogonalLines mergedStraightLines in
  Stages.removeDuplicatePoints Math_sqrt straightenedPath (5 # 1000).

End Runtime.

End RevC.

(** ** The refinement chain of revision C, evaluated from enclosures

    Where [Runtime.facts] encloses a square root or an angle tightly enough
    to settle every comparison the stages make with it, the stages can be
    evaluated without the runtime.  Each function below follows the stage of
    the same name and returns [None] where a comparison is not settled. *)

Module Certify.

Import Num Runtime.
Local Open Scope Q_scope.

(** An enclosure [(lo, hi)] of a number. *)
Definition interval : Type := (Q * Q)%type.

Definition encloses (i : interval) (a : Q) : Prop := fst i <= a <= snd i.

(** The enclosure of [Math.atan2(dy, dx)] that [facts] gives, if any. *)
Definition atan2Bounds (dy dx : Q) : option interval :=
  if Qltb 0 dx then
    if Qle_bool 0 dy && Qle_bool dy dx
    then Some ((3 # 4) * (dy / dx), (1001 # 1000) * (dy / dx))
    else None
  else if Qltb dx 0 then
    if Qle_bool 0 dy
    then Some (Math_PI - 2 * (dy / - dx) - slack, Math_PI + slack)
    else Some (- Math_PI - slack, - Math_PI + 2 * (dy / dx) + slack)
  else None.

(** The test [angleDiff > angleTolerance] for angles within [A] and [B]. *)
Definition angleTest (angleTolerance : Q) (A B : interval) : option bool :=
  let lo := fst A - snd B in
  let hi := snd A - fst B in
  let fullTurn := Math_PI * 2 in
  if Qle_bool (- angleTolerance) lo && Qle_bool hi angleTolerance then Some false
  else if Qle_bool (fullTurn - angleTolerance) lo
          && Qle_bool hi (fullTurn + angleTolerance) then Some false
  else if Qle_bool (- fullTurn - angleTolerance) lo
          && Qle_bool hi (- fullTurn + angleTolerance) then Some false
  else if Qle_bool 0 angleTolerance
          && ((Qltb angleTolerance lo && Qltb hi (fullTurn - angleTolerance))
              || (Qltb hi (- angleTolerance) && Qltb (angleTolerance - fullTurn) lo))
       then Some true
  else None.

Definition turnsAt (c : contour) (angleTolerance : Q) (startPoint : point) (j : nat)
  : option bool :=
  let currentPoint := at_ c j in
  let nextPoint := at_ c ((j + 1) mod length c) in
  match atan2Bounds (snd currentPoint - snd startPoint)
                    (fst currentPoint - fst startPoint),
        atan2Bounds (snd nextPoint - snd currentPoint)
                    (fst nextPoint - fst currentPoint) with
  | Some A, Some B => angleTest angleTolerance A B
  | _, _ => None
  end.

Fixpoint extendRun (c : contour) (angleTolerance : Q) (startPoint : point)
  (fuel j lastGoodPoint : nat) : option nat :=
  match fuel with
  | O => Some lastGoodPoint
  | S fuel' =>
      if (j <? length c)%nat then
        match turnsAt c angleTolerance startPoint j with
        | Some true => Some lastGoodPoint
        | Some false => extendRun c angleTolerance startPoint fuel' (j + 1) j
        | None => None
        end
      else Some lastGoodPoint
  end.

Fixpoint mergeRuns (c : contour) (angleTolerance : Q) (fuel i : nat)
  (acc : contour) : option contour :=
  match fuel with
  | O => Some acc
  | S fuel' =>
      if (i <? length c)%nat then
        let startPoint := at_ c i in
        match extendRun c angleTolerance startPoint (length c) (i + 1) i with
        | Some lastGoodPoint =>
            mergeRuns c angleTolerance fuel' (Nat.max (lastGoodPoint + 1) (i + 1))
              (acc ++ [startPoint])
        | None => None
        end
      else Some acc
  end.

Definition mergeStraightLineSegments (c : contour) (angleTolerance : Q)
  : option contour :=
  if (length c <=? 2)%nat then Some c
  else mergeRuns c angleTolerance (length c) 0 [].

(** The enclosure of the normalised angle. *)
Definition normalizeBounds (A : interval) : option interval :=
  if Qle_bool 0 (fst A) && Qltb (snd A) Stages.twoPi then Some A
  else if Qle_bool (- Stages.twoPi) (fst A) && Qltb (snd A) 0
       then Some (fst A + Stages.twoPi, snd A + Stages.twoPi)
  else None.

(** The test [Math.abs(normalizedAngle - centre) < tolerance]. *)
Definition nearTest (tolerance centre : Q) (A : interval) : option bool :=
  if Qltb (centre - tolerance) (fst A) && Qltb (snd A) (centre + tolerance)
  then Some true
  else if Qle_bool (centre + tolerance) (fst A) || Qle_bool (snd A) (centre - tolerance)
       then Some false
  else None.

(** [a || b] on tests that may be undecided. *)
Definition orTest (a b : option bool) : option bool :=
  match a, b with
  | Some true, _ | _, Some true => Some true
  | Some false, Some false => Some false
  | _, _ => None
  end.

Definition snapSegment (tolerance : Q) (current next : point) : option point :=
  match atan2Bounds (snd next - snd current) (fst next - fst current) with
  | None => None
  | Some A =>
      match normalizeBounds A with
      | None => None
      | Some N =>
          let isNearHorizontal :=
            orTest (orTest (nearTest tolerance 0 N) (nearTest tolerance Math_PI N))
                   (nearTest tolerance (2 * Math_PI) N) in
          let isNearVertical :=
            orTest (nearTest tolerance (Math_PI / 2) N)
                   (nearTest tolerance (3 * Math_PI / 2) N) in
          match isNearHorizontal with
          | Some true => Some (fst next, snd current)
          | Some false =>
              match isNearVertical with
              | Some true => Some (fst current, snd next)
              | Some false => Some next
              | None => None
              end
          | None => None
          end
      end
  end.

Fixpoint snapAll (tolerance : Q) (c : contour) (indices : list nat)
  : option contour :=
  match indices with
  | [] => Some []
  | i :: rest =>
      match snapSegment tolerance (at_ c i) (at_ c ((i + 1) mod length c)),
            snapAll tolerance c rest with
      | Some p, Some ps => Some (p :: ps)
      | _, _ => None
      end
  end.

Definition straightenWith (tolerance : Q) (c : contour) : option contour :=
  if (length c <? 2)%nat then Some c
  else match snapAll tolerance c (seq 0 (length c)) with
       | Some ps => Some (at_ c 0 :: ps)
       | None => None
       end.

Fixpoint keepDistinct (tolerance : Q) (cleaned rest : contour) : option contour :=
  match rest with
  | [] => Some cleaned
  | current :: rest' =>
      if farApart tolerance current (lastOf cleaned)
      then keepDistinct tolerance (cleaned ++ [current]) rest'
      else if closeBy tolerance current (lastOf cleaned)
           then keepDistinct tolerance cleaned rest'
           else None
  end.

Definition removeDuplicatePoints (c : contour) (tolerance : Q) : option contour :=
  if Qltb 0 tolerance then
    match c with
    | [] | [_] => Some c
    | first :: rest =>
        match keepDistinct tolerance [first] rest with
        | None => None
        | Some cleaned =>
            if (2 <? length cleaned)%nat
            then if closeBy tolerance (lastOf cleaned) (at_ cleaned 0)
                 then Some (removelast cleaned)
                 else if farApart tolerance (lastOf cleaned) (at_ cleaned 0)
                      then Some cleaned
                      else None
            else Some cleaned
        end
    end
  else None.

(** The refinement chain of revision C. *)
Definition finalPath (boundary : contour) (simplify : Q) : option contour :=
  match removeDuplicatePoints boundary (1 # 100) with
  | None => None
  | Some cleanedPath =>
      let reducedPath := Stages.adaptivePointReduction cleanedPath simplify in
      match mergeStraightLineSegments reducedPath (2 # 100) with
      | None => None
      | Some mergedStraightLines =>
          match straightenWith (5 # 100) mergedStraightLines with
          | None => None
          | Some straightenedPath => removeDuplicatePoints straightenedPath (5 # 1000)
          end
      end
  end.

End Certify.

(** ** Test data *)

Module Examples.

Import Tracer.
Local Open Scope Z_scope.

(** A 2x2 image without foreground. *)
Definition blank2 : pixelGrid := [ [0; 0]; [0; 0] ].

(** A 4x4 block of foreground in the lower right of a 5x5 image. *)
Definition block5 : pixelGrid :=
  [ [0; 0; 0; 0; 0];
    [0; 1; 1; 1; 1];
    [0; 1; 1; 1; 1];
    [0; 1; 1; 1; 1];
    [0; 1; 1; 1; 1] ].

(** The trace of [block5] after its first pass: it started at (1, 1), moved
    East to (2, 1) and now looks South. *)
Definition block5_second : traceState :=
  {| boundary := [(1, -1); (2, -1)];
     visited := [(1, 1); (2, 1)];
     currentX := 2;
     currentY := 1;
     direction := 6;
     iterations := 1 |}.

(** The document of a drawing without entities. *)
Definition emptyDocument : list string :=
  [ "0"; "SECTION"; "2"; "HEADER"; "0"; "ENDSEC";
    "0"; "SECTION"; "2"; "ENTITIES"; "0"; "ENDSEC";
    "0"; "EOF" ]%string.

(** A one-point contour below the X axis. *)
Definition below : Num.contour := [ (0, - (1)) ]%Q.

(** A chord of length 2 with a bump of height 0.4 in the middle. *)
Definition bump : Num.contour := [ (0, 0); (1, 2 # 5); (2, 0) ]%Q.

(** [n] points going East along the X axis, one unit apart. *)
Definition eastward (n : nat) : Num.contour :=
  map (fun i => (inject_Z (Z.of_nat i), 0%Q)) (seq 0 n).

(** [n] points going West at height 0.004, a tenth of a unit apart, from
    x = 7.1. *)
Definition westward (n : nat) : Num.contour :=
  map (fun m => ((71 - Z.of_nat m) # 10, 1 # 250)%Q) (seq 0 n).

(** A hairpin of 57 points: 9 points going East to (8, 0), then 48 points
    coming back just above them to (2.4, 0.004). *)
Definition hairpin : Num.contour := eastward 9 ++ westward 48.

(** A right triangle. *)
Definition triangle : Num.contour := [ (0, 0); (4, 0); (0, - (3)) ]%Q.

End Examples.

(** * The rest of the pipeline *)

(** ** From the image buffer to the traced contour *)

Module Raster.

Import Tracer.
Local Open Scope Z_scope.

(** [imageData[idx] < threshold ? 1 : 0].  Past the end of the buffer
    [imageData[idx]] is [undefined], and [undefined < threshold] is false. *)
Definition binarize (imageData : list Z) (threshold idx : Z) : Z :=
  match nth_error imageData (Z.to_nat idx) with
  | Some gray => if gray <? threshold then 1 else 0
  | None => 0
  end.

(** The grid [pixels[y][x]] of [findContours] (route.ts 132-140). *)
Definition toPixels (imageData : list Z) (width height threshold : Z) : pixelGrid :=
  map (fun y =>
         map (fun x => binarize imageData threshold (Z.of_nat y * width + Z.of_nat x))
             (seq 0 (Z.to_nat width)))
      (seq 0 (Z.to_nat height)).

(** [findContours] of revision A (route.ts 130-155) *)
Definition findContours (imageData : list Z) (width height threshold : Z)
  : result (list (list pixel)) :=
  let pixels := toPixels imageData width height threshold in
  outerBoundary <- findSingleOuterBoundary pixels width height ;;
  Ok (if (2 <? length outerBoundary)%nat then [outerBoundary] else []).

(** Every cell holds 0 or 1. *)
Definition binary (pixels : pixelGrid) : Prop :=
  Forall (Forall (fun v => v = 0 \/ v = 1)) pixels.

(** The pixel a boundary point [[x, -y]] stands for. *)
Definition pixelOf (point : pixel) : pixel := (fst point, - snd point).

(** Two different cells that touch, by a side or by a corner. *)
Definition adjacent8 (p q : pixel) : bool :=
  (Z.abs (fst q - fst p) <=? 1) && (Z.abs (snd q - snd p) <=? 1)
  && negb (pixel_eqb p q).

(** Every cell of [path] touches the next. *)
Fixpoint linked (path : list pixel) : bool :=
  match path with
  | p :: rest =>
      match rest with
      | q :: _ => adjacent8 p q && linked rest
      | [] => true
      end
  | [] => true
  end.

(** [(x, y)] comes before [(x0, y0)] in the row-major scan. *)
Definition before (x y x0 y0 : Z) : Prop := y < y0 \/ (y = y0 /\ x < x0).

(** What holds of every state the trace loop passes through, started at
    [(startX, startY)]: the polygon is the visited list with Y negated, the
    list begins at the start and ends at the current pixel, no pixel occurs
    twice, every pixel is foreground and inside the image, every pixel after
    the first passed [test], each pixel touches the next, and the pass counter
    is one less than the number of pixels. *)
Definition traced (pixels : pixelGrid) (width height : Z) (test : Z -> Z -> bool)
  (startX startY : Z) (s : traceState) : Prop :=
  boundary s = map pixelOf (visited s)
  /\ hd (0, 0) (visited s) = (startX, startY)
  /\ (visited s <> [] /\ last (visited s) (0, 0) = (currentX s, currentY s))
  /\ NoDup (visited s)
  /\ Forall (fun p => inImage width height (fst p) (snd p) = true
                      /\ readPixel pixels (fst p) (snd p) = Ok 1) (visited s)
  /\ Forall (fun p => test (fst p) (snd p) = true) (tl (visited s))
  /\ linked (visited s) = true
  /\ Z.of_nat (length (visited s)) = iterations s + 1.

(** [l] lists pixels in the order of the row-major scan, none twice. *)
Definition rowMajor (l : list pixel) : Prop :=
  StronglySorted (fun p q => before (fst p) (snd p) (fst q) (snd q)) l.

(** The cells of the image, one per pixel. *)
Definition cells (width height : Z) : list pixel :=
  map (fun c => (Z.of_nat (fst c), Z.of_nat (snd c)))
      (list_prod (seq 0 (Z.to_nat width)) (seq 0 (Z.to_nat height))).

End Raster.

(** ** Cleaning and smoothing of the traced path (revision A, route.ts 268-329, 469-524) *)

Module Paths.

Import Num.
Local Open Scope Q_scope.

(** Every point of [path] is more than [tolerance] away from the one before
    it, by the distance [distance next previous] the code computes. *)
Fixpoint apart (distance : point -> point -> Q) (tolerance : Q) (path : contour)
  : bool :=
  match path with
  | previous :: rest =>
      match rest with
      | next :: _ => Qltb tolerance (distance next previous) && apart distance tolerance rest
      | [] => true
      end
  | [] => true
  end.

(** [test next previous] holds for every point [next] of [path] and the point
    [previous] before it. *)
Fixpoint chained (test : point -> point -> bool) (path : contour) : bool :=
  match path with
  | previous :: rest =>
      match rest with
      | next :: _ => test next previous && chained test rest
      | [] => true
      end
  | [] => true
  end.

(** [p] lies in the box [minX, maxX] x [minY, maxY]. *)
Definition inBox (minX maxX minY maxY : Q) (p : point) : Prop :=
  minX <= fst p <= maxX /\ minY <= snd p <= maxY.

(** The points of [c] at [indices]. *)
Definition selection (c : contour) (indices : list nat) : contour :=
  map (at_ c) indices.

(** [indices] are positions of a contour of [len] points, in growing order. *)
Definition increasing (len : nat) (indices : list nat) : Prop :=
  StronglySorted lt indices /\ Forall (fun i => (i < len)%nat) indices.

(** Every point of [rest] is clearly more than [tolerance] away from the one
    before it, the first of them from [previous]: the squared distance exceeds
    the squared tolerance by one part in a thousand. *)
Fixpoint separatedFrom (tolerance : Q) (previous : point) (rest : contour) : bool :=
  match rest with
  | [] => true
  | next :: rest' =>
      Runtime.farApart tolerance next previous && separatedFrom tolerance next rest'
  end.

(** The same all around the closed polygon [points]: also the first point is
    clearly more than [tolerance] away from the last. *)
Definition separatedCycle (tolerance : Q) (points : contour) : bool :=
  match points with
  | [] => true
  | first :: rest =>
      separatedFrom tolerance first rest
      && Runtime.farApart tolerance first (lastOf points)
  end.

End Paths.

Module Smooth.

Import Num.
Local Open Scope Q_scope.

(** A traced polygon as a list of points: the coordinates are the same numbers. *)
Definition toContour (b : list Tracer.pixel) : contour :=
  map (fun p => (inject_Z (fst p), inject_Z (snd p))) b.

(** The running sums [sum += f(item)] of the loops, from 0. *)
Definition sumOf {A : Type} (f : A -> Q) (items : list A) : Q :=
  fold_left (fun sum item => sum + f item) items 0.

Section Runtime.

Variable Math_sqrt : Q -> Q.

(** *** [cleanPath] (route.ts 268-310) *)

(** [Math.pow(a, 2)] *)
Definition square (a : Q) : Q := a * a.

(** [Math.sqrt(Math.pow(p[0] - q[0], 2) + Math.pow(p[1] - q[1], 2))] *)
Definition separation (p q : point) : Q :=
  Math_sqrt (square (fst p - fst q) + square (snd p - snd q)).

Fixpoint keepApart (tolerance : Q) (cleaned rest : contour) : contour :=
  match rest with
  | [] => cleaned
  | current :: rest' =>
      if Qltb tolerance (separation current (lastOf cleaned))
      then keepApart tolerance (cleaned ++ [current]) rest'
      else keepApart tolerance cleaned rest'
  end.

Definition cleanPath (path : contour) : contour :=
  if (length path <? 3)%nat then path
  else
    let tolerance := 1 # 2 in
    let cleaned := keepApart tolerance [at_ path 0] (tl path) in
    if (2 <? length cleaned)%nat then
      let first := at_ cleaned 0 in
      let last := lastOf cleaned in
      if Qltb tolerance (separation first last) then cleaned ++ [first] else cleaned
    else cleaned.

End Runtime.

(** *** [applyMovingAverage] (route.ts 469-495)

    [windowSize] is 3 or 5 at the call sites; it is taken as a natural number. *)

(** [for (let j = -Math.floor(windowSize / 2); j <= Math.floor(windowSize / 2); j++)] *)
Definition windowOffsets (windowSize : nat) : list Z :=
  map (fun k => (Z.of_nat k - Z.of_nat (windowSize / 2))%Z)
      (seq 0 (2 * (windowSize / 2) + 1)).

(** [(i + j + contour.length) % contour.length]: [%] is the remainder of the
    truncated division.  Behind the length test of the callers the dividend
    is never negative. *)
Definition wrap (len i : nat) (j : Z) : nat :=
  Z.to_nat (Z.rem (Z.of_nat i + j + Z.of_nat len) (Z.of_nat len)).

Definition applyMovingAverage (c : contour) (windowSize : nat) : contour :=
  if (length c <? windowSize)%nat then c
  else
    map (fun i =>
           let window :=
             map (fun j => at_ c (wrap (length c) i j)) (windowOffsets windowSize) in
           let sumX := sumOf fst window in
           let sumY := sumOf snd window in
           let count := inject_Z (Z.of_nat (length window)) in
           (sumX / count, sumY / count))
        (seq 0 (length c)).

(** *** [applyGaussianSmoothing] (route.ts 497-524) *)

Definition weights : list Q := [ 1 # 10; 2 # 10; 4 # 10; 2 # 10; 1 # 10 ].

Definition applyGaussianSmoothing (c : contour) : contour :=
  if (length c <? 5)%nat then c
  else
    map (fun i =>
           (* [j] runs from -2 to 2; the tap for [j] is [k = j + 2] *)
           let taps :=
             map (fun k => (at_ c (wrap (length c) i (Z.of_nat k - 2)), nth k weights 0))
                 (seq 0 5) in
           let sumX := sumOf (fun t => fst (fst t) * snd t) taps in
           let sumY := sumOf (fun t => snd (fst t) * snd t) taps in
           let totalWeight := sumOf snd taps in
           (sumX / totalWeight, sumY / totalWeight))
        (seq 0 (length c)).

(** The coordinate [g] ([fst] or [snd]) of point [i] of the two results. *)
Definition averaged (g : point -> Q) (c : contour) (windowSize i : nat) : Q :=
  let window := map (fun j => at_ c (wrap (length c) i j)) (windowOffsets windowSize) in
  sumOf g window / inject_Z (Z.of_nat (length window)).

Definition weighted (g : point -> Q) (c : contour) (i : nat) : Q :=
  let taps :=
    map (fun k => (at_ c (wrap (length c) i (Z.of_nat k - 2)), nth k weights 0))
        (seq 0 5) in
  sumOf (fun t => g (fst t) * snd t) taps / sumOf snd taps.

(** What both smoothing stages keep: the sums of the coordinates. *)
Definition sameSums (c c' : contour) : Prop :=
  sumOf fst c' == sumOf fst c /\ sumOf snd c' == sumOf snd c.

(** *** [smoothContour] (route.ts 312-329) *)

Definition smoothContour (c : contour) : contour :=
  if (length c <? 3)%nat then c
  else applyGaussianSmoothing (applyMovingAverage (applyMovingAverage c 3) 5).

End Smooth.

(** ** [convertRasterToDxf] and the POST handler of revision A (route.ts 526-601, 716-804) *)

Module PipelineA.

Import Num.
Local Open Scope Q_scope.

Section Runtime.

Variable Math_sqrt : Q -> Q.
Variable Math_atan2 : Q -> Q -> Q.
Variable numberToString : Q -> string.

(** The refinement of the boundary (route.ts 569-584); [removeDuplicatePoints]
    is called with its default tolerance 0.001. *)
Definition refinedPath (boundary : contour) (simplify : Q) : result contour :=
  let initialCleanedPath := Smooth.cleanPath Math_sqrt boundary in
  let smoothedPath := Smooth.smoothContour initialCleanedPath in
  simplifiedPath <- RevA.simplifiedPath Math_sqrt smoothedPath simplify ;;
  let straightenedPath :=
    RevA.straightenNearOrthogonalLines Math_atan2 simplifiedPath in
  Ok (Stages.removeDuplicatePoints Math_sqrt straightenedPath (1 # 1000)).

(** [convertRasterToDxf] from the raw buffer on (route.ts 545-596): [imageData],
    [imageWidth] and [imageHeight] are what the image library returned. *)
Definition convertRasterToDxf (imageData : list Z) (imageWidth imageHeight : Z)
  (threshold : Z) (simplify width height : Q) (dimensionControl : dimension)
  : result (string * RevA.writer) :=
  contours <- Raster.findContours imageData imageWidth imageHeight threshold ;;
  let writer := RevA.SimpleDxfWriter in
  match contours with
  | boundary :: _ =>
      if (2 <? length boundary)%nat then
        deduplicatedPath <- refinedPath (Smooth.toContour boundary) simplify ;;
        scaledPath <- RevA.scaledPath deduplicatedPath dimensionControl width height
                        imageWidth imageHeight ;;
        Ok (RevA.toString
              (RevA.addPolyline Math_sqrt numberToString writer scaledPath "0"))
      else Ok (RevA.toString writer)
  | [] => Ok (RevA.toString writer)
  end.

End Runtime.

End PipelineA.

Module Handler.

Import Num.
Local Open Scope Q_scope.

(** [parsed || fallback] for the result of [parseInt] or [parseFloat]:
    [None] is NaN, which is falsy as 0 is. *)
Definition orFallback (parsed : option Q) (fallback : Q) : Q :=
  match parsed with
  | Some value => if truthy value then value else fallback
  | None => fallback
  end.

(** [parseInt(text) || fallback] *)
Definition orFallbackInt (parsed : option Z) (fallback : Z) : Z :=
  match parsed with
  | Some value => if (value =? 0)%Z then fallback else value
  | None => fallback
  end.

(** The numeric options of the POST handler (route.ts 720-724). *)
Record options : Type := mkOptions {
  threshold : Z;
  simplify : Q;
  width : Q;
  height : Q
}.

Definition readOptions (threshold : option Z) (simplify width height : option Q)
  : options :=
  {| threshold := orFallbackInt threshold 128;
     simplify := orFallback simplify (1 # 10);
     width := orFallback width (225 # 100);
     height := orFallback height (75 # 100) |}.






End Handler.

(** ** The tracer of revision C: [findSingleLineBoundary] (route.ts 3036-3160) *)

Module TracerC.

Import Tracer.
Local Open Scope Z_scope.

(** *** The bounding box of the shape (route.ts 3038-3052) *)

Record bounds : Type := mkBounds {
  minX : Z;
  maxX : Z;
  minY : Z;
  maxY : Z;
  foundBlack : bool
}.

Definition noBounds (width height : Z) : bounds :=
  {| minX := width; maxX := -1; minY := height; maxY := -1; foundBlack := false |}.

Definition grow (b : bounds) (x y : Z) : bounds :=
  {| minX := Z.min (minX b) x;
     maxX := Z.max (maxX b) x;
     minY := Z.min (minY b) y;
     maxY := Z.max (maxY b) y;
     foundBlack := true |}.

(** Columns [x, x + n) of row [y]. *)
Fixpoint boundsRow (pixels : pixelGrid) (y x : Z) (n : nat) (b : bounds)
  : result bounds :=
  match n with
  | O => Ok b
  | S n' =>
      v <- readPixel pixels x y ;;
      boundsRow pixels y (x + 1) n' (if v =? 1 then grow b x y else b)
  end.

(** Rows [y, y + n). *)
Fixpoint boundsRows (pixels : pixelGrid) (width y : Z) (n : nat) (b : bounds)
  : result bounds :=
  match n with
  | O => Ok b
  | S n' =>
      b' <- boundsRow pixels y 0 (Z.to_nat width) b ;;
      boundsRows pixels width (y + 1) n' b'
  end.

Definition shapeBounds (pixels : pixelGrid) (width height : Z) : result bounds :=
  boundsRows pixels width 0 (Z.to_nat height) (noBounds width height).

(** *** The start pixel (route.ts 3060-3075)

    Rows [y, y + n) of the box; [start] is [(startX, startY)].  The inner loop
    leaves at the first foreground pixel of the row, the outer one once
    [pixels[startY][startX]] is 1. *)
Fixpoint startRows (pixels : pixelGrid) (b : bounds) (start : pixel) (y : Z) (n : nat)
  : result pixel :=
  match n with
  | O => Ok start
  | S n' =>
      r <- scanRow pixels y (minX b) (Z.to_nat (maxX b - minX b + 1)) ;;
      let start' := match r with Some p => p | None => start end in
      v <- readPixel pixels (fst start') (snd start') ;;
      if v =? 1 then Ok start' else startRows pixels b start' (y + 1) n'
  end.

Definition findStart (pixels : pixelGrid) (b : bounds) : result pixel :=
  startRows pixels b (minX b, minY b) (minY b) (Z.to_nat (maxY b - minY b + 1)).

(** *** The trace loop (route.ts 3090-3157) *)

Section Trace.

Variable pixels : pixelGrid.
Variables width height : Z.
Variables startX startY : Z.

(** The neighbour scan has no extra test of a candidate here; the second scan
    (route.ts 3121-3138) is the first one without the visited set. *)
Definition traceStep (s : traceState) : result stepResult :=
  unvisited <- scanNeighbours pixels width height (fun _ _ => Ok true)
                 (visited s) (currentX s) (currentY s) (direction s) scanOffsets ;;
  f <- match unvisited with
       | Some n => Ok (Some n)
       | None =>
           scanNeighbours pixels width height (fun _ _ => Ok true)
             [] (currentX s) (currentY s) (direction s) scanOffsets
       end ;;
  match f with
  | None => Ok NotFound
  | Some n =>
      if (nextX n =? startX) && (nextY n =? startY)
         && (3 <? Z.of_nat (length (boundary s)))
      then Ok LoopClosed
      else Ok (Advance
                 {| boundary := boundary s ++ [(nextX n, nextY n)];
                    visited := add (visited s) (nextX n) (nextY n);
                    currentX := nextX n;
                    currentY := nextY n;
                    direction := nextDirection n;
                    iterations := iterations s + 1 |})
  end.

(** [while (iterations < maxIterations) { ... }]: [fuel] bounds the number of
    times the loop condition is evaluated. *)
Fixpoint traceLoop (maxIterations : Z) (fuel : nat) (s : traceState)
  : result (exitReason * traceState) :=
  match fuel with
  | O => Err OutOfFuel
  | S fuel' =>
      if iterations s <? maxIterations then
        r <- traceStep s ;;
        match r with
        | NotFound => Ok (NoNeighbour, s)
        | LoopClosed => Ok (ClosedLoop, s)
        | Advance s' => traceLoop maxIterations fuel' s'
        end
      else Ok (IterationCap, s)
  end.

(** The points are pushed as [[x, y]]: this tracer does not negate y. *)
Definition initialState : traceState :=
  {| boundary := [(startX, startY)];
     visited := add [] startX startY;
     currentX := startX;
     currentY := startY;
     direction := 0;
     iterations := 0 |}.

End Trace.

Definition findSingleLineBoundary (pixels : pixelGrid) (width height : Z)
  : result (list pixel) :=
  b <- shapeBounds pixels width height ;;
  if negb (foundBlack b) then Ok []
  else
    start <- findStart pixels b ;;
    let '(startX, startY) := start in
    let maxIterations := (maxX b - minX b + maxY b - minY b) * 4 in
    r <- traceLoop pixels width height startX startY maxIterations
           (S (Z.to_nat maxIterations)) (initialState startX startY) ;;
    Ok (boundary (snd r)).

(** [findContours] of revision C (route.ts 2841-2865): the grid is cut at 128
    whatever [threshold] is, and [findSingleOuterBoundary] and
    [findPerfectContour] hand on to [findSingleLineBoundary]. *)
Definition findContours (imageData : list Z) (width height threshold : Z)
  : result (list (list pixel)) :=
  let pixels := Raster.toPixels imageData width height 128 in
  outerBoundary <- findSingleLineBoundary pixels width height ;;
  Ok (if (2 <? length outerBoundary)%nat then [outerBoundary] else []).

(** *** What the loops establish *)

Section Shape.

Variable pixels : pixelGrid.
Variables width height : Z.

(** A foreground pixel of the image. *)
Definition shapePixel (x y : Z) : Prop :=
  inImage width height x y = true /\ readPixel pixels x y = Ok 1.

(** [b] is the bounding box of the foreground: every foreground pixel lies in
    it, and each of its four sides holds one. *)
Definition isBoundingBox (b : bounds) : Prop :=
  (forall x y, shapePixel x y -> minX b <= x <= maxX b /\ minY b <= y <= maxY b)
  /\ (exists y, shapePixel (minX b) y)
  /\ (exists y, shapePixel (maxX b) y)
  /\ (exists x, shapePixel x (minY b))
  /\ (exists x, shapePixel x (maxY b)).

(** The invariant of the trace loop. *)
Definition traced (startX startY : Z) (maxIterations : Z) (s : traceState) : Prop :=
  hd (0, 0) (boundary s) = (startX, startY)
  /\ (boundary s <> [] /\ last (boundary s) (0, 0) = (currentX s, currentY s))
  /\ Forall (fun p => shapePixel (fst p) (snd p)) (boundary s)
  /\ Raster.linked (boundary s) = true
  /\ Z.of_nat (length (boundary s)) = iterations s + 1
  /\ iterations s <= maxIterations.

End Shape.

End TracerC.

(** ** The path [convertRasterToDxf] of revision C draws (route.ts 3931-3974) *)

Module PipelineC.

Import Num.
Local Open Scope Q_scope.

Section Runtime.

Variable Math_sqrt : Q -> Q.
Variable Math_atan2 : Q -> Q -> Q.


End Runtime.

End PipelineC.

(** ** The LINE writer of revision C (route.ts 2617-2742) *)

Module WriterC.

Import Num.
Local Open Scope Q_scope.

Section Runtime.

Variable Math_sqrt : Q -> Q.
Variable numberToString : Q -> string.

(** The second loop of [cleanPoints] (route.ts 2724-2737): a point stays when
    the next one, cyclically, is at least [minDistance] away. *)
Definition finalCleaned (minDistance : Q) (cleaned : contour) : contour :=
  flat_map
    (fun i =>
       let current := at_ cleaned i in
       let next := at_ cleaned ((i + 1) mod length cleaned) in
       if Qle_bool minDistance (Stages.distance Math_sqrt next current)
       then [current] else [])
    (seq 0 (length cleaned)).

(** [cleanPoints] (route.ts 2705-2742) *)
Definition cleanPoints (points : contour) : contour :=
  if (length points <? 2)%nat then points
  else
    let minDistance := 1 # 1000 in
    let cleaned := RevA.keepSeparated Math_sqrt minDistance [at_ points 0] (tl points) in
    finalCleaned minDistance cleaned.

(** [addPolyline] (route.ts 2617-2702); [closed] is [options.closed]. *)
Definition addPolyline (w : RevA.writer) (points : contour) (layer : string)
  (closed : bool) : RevA.writer :=
  if (length points <? 2)%nat then w
  else
    let cleanedPoints := cleanPoints points in
    let segments :=
      flat_map
        (fun i =>
           let current := at_ cleanedPoints i in
           let next := at_ cleanedPoints (i + 1) in
           if Qltb (Stages.distance Math_sqrt next current) (1 # 10000) then []
           else RevA.lineEntity numberToString layer current next)
        (seq 0 (length cleanedPoints - 1)) in
    if closed && (2 <? length cleanedPoints)%nat then
      let last := lastOf cleanedPoints in
      let first := at_ cleanedPoints 0 in
      if Qle_bool (1 # 10000) (Stages.distance Math_sqrt first last)
      then w ++ segments ++ RevA.lineEntity numberToString layer last first
      else w ++ segments
    else w ++ segments.

End Runtime.

End WriterC.

(** ** The angle normalisation with rounding (route.ts 398-400, 3561-3563) *)

Module RoundedAngle.

Import Num.
Local Open Scope Q_scope.

Section Rounded.

Variable fl : Q -> Q.

(** [2 * Math.PI] *)
Definition twoPi : Q := fl (2 * Math_PI).

(** [while (normalizedAngle < 0) normalizedAngle += 2 * Math.PI]; [fuel]
    bounds the number of passes. *)
Fixpoint raiseAngle (fuel : nat) (a : Q) : Q :=
  match fuel with
  | O => a
  | S fuel' => if Qltb a 0 then raiseAngle fuel' (fl (a + twoPi)) else a
  end.

(** [while (normalizedAngle >= 2 * Math.PI) normalizedAngle -= 2 * Math.PI] *)
Fixpoint lowerAngle (fuel : nat) (a : Q) : Q :=
  match fuel with
  | O => a
  | S fuel' => if Qle_bool twoPi a then lowerAngle fuel' (fl (a - twoPi)) else a
  end.

End Rounded.

End RoundedAngle.

(** ** More test data *)

Module Samples.

Import Tracer Num.
Local Open Scope Z_scope.

(** The bytes of a 3x2 image: a dark 2x2 square at the left, a light column at
    the right; the last byte is missing. *)
Definition bytes3x2 : list Z := [0; 0; 255; 0; 0].

(** A hexagon inside the box from (0, -4) to (4, 0). *)
Definition hexagon : contour :=
  [ (1, 0); (3, 0); (4, - (2)); (3, - (4)); (1, - (4)); (0, - (2)) ]%Q.

(** A number formatter for the examples: the whole part in decimal. *)
Definition wholePart (x : Q) : string :=
  NilZero.string_of_int (Z.to_int (Qfloor x)).

End Samples.

(** * Properties *)

(** ** The boundary tracer *)

Section TracerFacts.

Import Tracer.
Local Open Scope Z_scope.

Variable pixels : pixelGrid.
Variables width height : Z.
Hypothesis grid : wellFormed pixels width height.

Lemma readPixel_inImage x y :
  inImage width height x y = true -> exists v, readPixel pixels x y = Ok v.
Proof.
  destruct grid as (Hw & Hh & Hrows & Hcols).
  unfold inImage, readPixel. intros Hin.
  apply andb_prop in Hin as [Hin Hy2]. apply andb_prop in Hin as [Hin Hy1].
  apply andb_prop in Hin as [Hx1 Hx2].
  apply Z.leb_le in Hx1, Hy1. apply Z.ltb_lt in Hx2, Hy2.
  replace (x <? 0) with false by (symmetry; apply Z.ltb_ge; lia).
  replace (y <? 0) with false by (symmetry; apply Z.ltb_ge; lia).
  cbn [orb].
  destruct (nth_error pixels (Z.to_nat y)) as [row|] eqn:Hrow.
  - assert (Hlen : length row = Z.to_nat width).
    { rewrite Forall_forall in Hcols. apply Hcols.
      eapply nth_error_In; eauto. }
    destruct (nth_error row (Z.to_nat x)) as [v|] eqn:Hv.
    + eauto.
    + apply nth_error_None in Hv. lia.
  - apply nth_error_None in Hrow. lia.
Qed.

Lemma anyWhite_reads cells :
  anyWhite pixels width height cells
  = Ok (existsb (fun c => white pixels width height (fst c) (snd c)) cells).
Proof.
  induction cells as [|[cx cy] rest IH]; cbn [anyWhite existsb fst snd].
  - reflexivity.
  - unfold white at 1. destruct (inImage width height cx cy) eqn:Hin.
    + destruct (readPixel_inImage _ _ Hin) as [v Hv]. rewrite Hv. cbn [bind].
      destruct (v =? 0); [reflexivity | exact IH].
    + reflexivity.
Qed.

Lemma hasWhiteNeighbor_reads x y :
  hasWhiteNeighbor pixels width height x y = Ok (onBoundary pixels width height x y).
Proof. apply anyWhite_reads. Qed.

Section Pass.

Variable boundaryTest : Z -> Z -> result bool.
Variable test : Z -> Z -> bool.
Hypothesis boundaryTest_reads :
  forall x y, inImage width height x y = true -> boundaryTest x y = Ok (test x y).
Variables startX startY : Z.

Let scan := scanNeighbours pixels width height boundaryTest.
Let step := traceStep pixels width height boundaryTest startX startY.
Let loop := traceLoop pixels width height boundaryTest startX startY.
Let cand := candidate pixels width height test.
Let pick := firstCandidate pixels width height test.

Lemma scanNeighbours_find s offsets :
  scan (visited s) (currentX s) (currentY s) (direction s) offsets
  = Ok (match find (fun i => cand (visited s) (fst (neighbourAt s i))
                                  (snd (neighbourAt s i))) offsets with
        | None => None
        | Some i => Some (mkFound (fst (neighbourAt s i)) (snd (neighbourAt s i))
                                  (((direction s + i) mod 8 + 6) mod 8))
        end).
Proof.
  subst scan cand.
  induction offsets as [|i rest IH]; cbn [scanNeighbours find].
  - reflexivity.
  - unfold neighbourAt at 1 2. cbn [fst snd].
    destruct (directionAt ((direction s + i) mod 8)) as [dx dy] eqn:Hd.
    cbn [fst snd]. unfold candidate at 1, foreground.
    destruct (inImage width height (currentX s + dx) (currentY s + dy)) eqn:Hin;
      cbn [andb]; [|exact IH].
    destruct (readPixel_inImage _ _ Hin) as [v Hv]. rewrite Hv. cbn [bind].
    destruct ((v =? 1) && negb (has (visited s) (currentX s + dx) (currentY s + dy)))
      eqn:Hfg.
    + rewrite (boundaryTest_reads _ _ Hin). cbn [bind andb].
      destruct (test (currentX s + dx) (currentY s + dy)).
      * unfold neighbourAt. rewrite Hd. reflexivity.
      * exact IH.
    + cbn [andb]. exact IH.
Qed.

(** The pass written with [firstCandidate]. *)
Lemma traceStep_reads s :
  step s
  = Ok (match pick s with
        | None => NotFound
        | Some i =>
            if (fst (neighbourAt s i) =? startX) && (snd (neighbourAt s i) =? startY)
               && (3 <? Z.of_nat (length (boundary s)))
            then LoopClosed
            else Advance (record s i)
        end).
Proof.
  subst step pick. unfold traceStep, firstCandidate.
  fold scan. rewrite scanNeighbours_find. cbn [bind].
  destruct (find _ scanOffsets) as [i|]; [|reflexivity].
  cbn [nextX nextY nextDirection].
  destruct ((fst (neighbourAt s i) =? startX) && (snd (neighbourAt s i) =? startY)
            && (3 <? Z.of_nat (length (boundary s)))); reflexivity.
Qed.

Lemma traceLoop_terminates maxIterations (m : nat) :
  forall s, maxIterations - iterations s <= Z.of_nat m ->
  exists (n : nat) reason s',
    (n <= m)%nat /\
    iterations s' = iterations s + Z.of_nat n /\
    (forall fuel, (n < fuel)%nat -> loop maxIterations fuel s = Ok (reason, s')) /\
    exitCondition pixels width height test startX startY maxIterations reason s'.
Proof.
  subst loop.
  induction m as [|m IH]; intros s Hm.
  - exists O, IterationCap, s. repeat split; [lia | lia | | cbn; lia].
    intros [|fuel] Hf; [lia|]. cbn [traceLoop].
    replace (iterations s <? maxIterations) with false
      by (symmetry; apply Z.ltb_ge; lia).
    reflexivity.
  - destruct (iterations s <? maxIterations) eqn:Hlt.
    + apply Z.ltb_lt in Hlt.
      pose proof (traceStep_reads s) as Hstep. subst step pick.
      destruct (firstCandidate pixels width height test s) as [i|] eqn:Hpick.
      * destruct ((fst (neighbourAt s i) =? startX) && (snd (neighbourAt s i) =? startY)
                  && (3 <? Z.of_nat (length (boundary s)))) eqn:Hclose.
        -- exists O, ClosedLoop, s. repeat split; [lia | lia | | exact Hlt |].
           ++ intros [|fuel] Hf; [lia|]. cbn [traceLoop].
              apply Z.ltb_lt in Hlt. rewrite Hlt, Hstep. reflexivity.
           ++ exists i. apply andb_prop in Hclose as [Hxy Hlen].
              apply andb_prop in Hxy as [Hx Hy].
              apply Z.eqb_eq in Hx, Hy. apply Z.ltb_lt in Hlen.
              repeat split; [exact Hpick | | exact Hlen].
              destruct (neighbourAt s i); cbn [fst snd] in *; congruence.
        -- destruct (IH (record s i)) as (n & reason & s' & Hn & Hit & Hrun & Hexit).
           { cbn [record iterations]. lia. }
           exists (S n), reason, s'. repeat split; [lia | | | exact Hexit].
           ++ rewrite Hit. cbn [record iterations]. lia.
           ++ intros [|fuel] Hf; [lia|]. cbn [traceLoop].
              apply Z.ltb_lt in Hlt. rewrite Hlt, Hstep. cbn [bind].
              apply Hrun. lia.
      * exists O, NoNeighbour, s. repeat split; [lia | lia | | exact Hlt | exact Hpick].
        intros [|fuel] Hf; [lia|]. cbn [traceLoop].
        apply Z.ltb_lt in Hlt. rewrite Hlt, Hstep. reflexivity.
    + exists O, IterationCap, s. apply Z.ltb_ge in Hlt.
      repeat split; [lia | lia | | cbn; lia].
      intros [|fuel] Hf; [lia|]. cbn [traceLoop].
      replace (iterations s <? maxIterations) with false
        by (symmetry; apply Z.ltb_ge; lia).
      reflexivity.
Qed.

(** From the initial state the loop makes at most [maxIterations] passes. *)
Lemma traceLoop_from_start maxIterations :
  0 <= maxIterations ->
  exists (n : nat) reason s',
    Z.of_nat n <= maxIterations /\
    iterations s' = Z.of_nat n /\
    (forall fuel, (n < fuel)%nat ->
       loop maxIterations fuel (initialState startX startY) = Ok (reason, s')) /\
    exitCondition pixels width height test startX startY maxIterations reason s'.
Proof.
  intros Hmax.
  destruct (traceLoop_terminates maxIterations (Z.to_nat maxIterations)
              (initialState startX startY))
    as (n & reason & s' & Hn & Hit & Hrun & Hexit).
  { cbn [initialState iterations]. lia. }
  exists n, reason, s'. cbn [initialState iterations] in Hit.
  repeat split; [lia | lia | exact Hrun | exact Hexit].
Qed.

(** Once the start pixel is in the visited set no pass can close the loop. *)
Lemma traceStep_start_visited s :
  has (visited s) startX startY = true ->
  step s = Ok (match pick s with
               | None => NotFound
               | Some i => Advance (record s i)
               end).
Proof.
  intros Hvis. rewrite traceStep_reads. subst pick.
  destruct (firstCandidate pixels width height test s) as [i|] eqn:Hpick;
    [|reflexivity].
  unfold firstCandidate in Hpick. apply find_some in Hpick as [_ Hc].
  unfold candidate in Hc.
  apply andb_prop in Hc as [Hc _]. apply andb_prop in Hc as [_ Hnot].
  destruct (fst (neighbourAt s i) =? startX) eqn:Hx; [|reflexivity].
  destruct (snd (neighbourAt s i) =? startY) eqn:Hy; [|reflexivity].
  apply Z.eqb_eq in Hx, Hy. rewrite Hx, Hy, Hvis in Hnot. discriminate.
Qed.

End Pass.

Lemma has_add v x y a b :
  has (add v x y) a b = has v a b || pixel_eqb (a, b) (x, y).
Proof.
  unfold has, add. rewrite existsb_app. cbn [existsb].
  rewrite orb_false_r. reflexivity.
Qed.

Lemma initialState_start_visited startX startY :
  has (visited (initialState startX startY)) startX startY = true.
Proof.
  cbn [initialState visited]. rewrite has_add. unfold pixel_eqb. cbn [fst snd].
  rewrite !Z.eqb_refl. apply orb_true_r.
Qed.

Lemma record_start_visited s i startX startY :
  has (visited s) startX startY = true ->
  has (visited (record s i)) startX startY = true.
Proof.
  intros H. cbn [record visited]. rewrite has_add, H. reflexivity.
Qed.

(** Every state the loop of [findSingleOuterBoundary] passes through holds the
    start pixel in its visited set. *)
Lemma traceLoop_keeps_start_visited startX startY maxIterations fuel :
  forall s reason s',
  has (visited s) startX startY = true ->
  traceLoop pixels width height (hasWhiteNeighbor pixels width height)
    startX startY maxIterations fuel s = Ok (reason, s') ->
  has (visited s') startX startY = true.
Proof.
  induction fuel as [|fuel IH]; intros s reason s' Hvis Hrun; [discriminate|].
  cbn [traceLoop] in Hrun.
  destruct (iterations s <? maxIterations); [|congruence].
  rewrite (traceStep_start_visited (hasWhiteNeighbor pixels width height)
             (onBoundary pixels width height)
             (fun x y _ => hasWhiteNeighbor_reads x y) startX startY s Hvis) in Hrun.
  cbn [bind] in Hrun.
  destruct (firstCandidate pixels width height (onBoundary pixels width height) s)
    as [i|]; [|congruence].
  apply (IH _ _ _ (record_start_visited s i startX startY Hvis) Hrun).
Qed.

(** Where no neighbour is foreground and unvisited, no neighbour is a
    candidate either, and the pass ends the loop. *)
Lemma traceStep_without_neighbour startX startY s :
  firstCandidate pixels width height (fun _ _ => true) s = None ->
  traceStep pixels width height (hasWhiteNeighbor pixels width height)
    startX startY s = Ok NotFound.
Proof.
  intros Hnone.
  rewrite (traceStep_reads (hasWhiteNeighbor pixels width height)
             (onBoundary pixels width height)
             (fun x y _ => hasWhiteNeighbor_reads x y) startX startY s).
  destruct (firstCandidate pixels width height (onBoundary pixels width height) s)
    as [i|] eqn:Hpick; [|reflexivity].
  unfold firstCandidate in Hpick, Hnone.
  apply find_some in Hpick as [Hin Hc].
  pose proof (find_none _ _ Hnone i Hin) as Hplain. cbv beta in Hplain.
  unfold candidate in Hc, Hplain.
  apply andb_prop in Hc as [Hc _]. rewrite Hc in Hplain. discriminate.
Qed.

(** *** The initial scan on a grid without foreground *)

Lemma scanRow_none (Hno : noForeground pixels width height) y :
  0 <= y < height ->
  forall n x, 0 <= x -> x + Z.of_nat n <= width -> scanRow pixels y x n = Ok None.
Proof.
  intros Hy. induction n as [|n IH]; intros x Hx Hn; cbn [scanRow].
  - reflexivity.
  - assert (Hin : inImage width height x y = true).
    { unfold inImage. rewrite !andb_true_iff, !Z.leb_le, !Z.ltb_lt. lia. }
    destruct (readPixel_inImage _ _ Hin) as [v Hv]. rewrite Hv. cbn [bind].
    destruct (v =? 1) eqn:Hv1.
    + apply Z.eqb_eq in Hv1. subst v. elim (Hno _ _ Hin Hv).
    + apply IH; lia.
Qed.

Lemma scanRows_none (Hno : noForeground pixels width height) :
  forall n y, 0 <= y -> y + Z.of_nat n <= height ->
  scanRows pixels width y n = Ok None.
Proof.
  induction n as [|n IH]; intros y Hy Hn; cbn [scanRows].
  - reflexivity.
  - destruct grid as (Hw & _).
    rewrite (scanRow_none Hno) by lia. cbn [bind]. apply IH; lia.
Qed.

Lemma empty_noForeground :
  width = 0 \/ height = 0 -> noForeground pixels width height.
Proof.
  intros Hempty x y Hin. unfold inImage in Hin.
  rewrite !andb_true_iff, !Z.leb_le, !Z.ltb_lt in Hin. lia.
Qed.

(** *** [findBoundaryPixels] lists at most one pixel per cell *)

Lemma boundaryPixelsRow_length y :
  0 <= y < height ->
  forall n x, 0 <= x -> x + Z.of_nat n <= width ->
  exists l, boundaryPixelsRow pixels width height y x n = Ok l /\ (length l <= n)%nat.
Proof.
  intros Hy. induction n as [|n IH]; intros x Hx Hn; cbn [boundaryPixelsRow].
  - exists []. split; [reflexivity | cbn; lia].
  - assert (Hin : inImage width height x y = true).
    { unfold inImage. rewrite !andb_true_iff, !Z.leb_le, !Z.ltb_lt. lia. }
    destruct (readPixel_inImage _ _ Hin) as [v Hv]. rewrite Hv. cbn [bind].
    destruct (IH (x + 1)) as (rest & Hrest & Hlen); [lia | lia |].
    rewrite anyWhite_reads.
    destruct (v =? 1); cbn [bind]; rewrite Hrest; cbn [bind].
    + eexists. split; [reflexivity|]. rewrite length_app.
      match goal with |- context [if ?b then _ else _] => destruct b end;
        simpl length; unfold pixel in *; lia.
    + eexists. split; [reflexivity|]. cbn [app]. lia.
Qed.

Lemma boundaryPixelsRows_length :
  forall n y, 0 <= y -> y + Z.of_nat n <= height ->
  exists l, boundaryPixelsRows pixels width height y n = Ok l /\
            (length l <= n * Z.to_nat width)%nat.
Proof.
  induction n as [|n IH]; intros y Hy Hn; cbn [boundaryPixelsRows].
  - exists []. split; [reflexivity | cbn; lia].
  - destruct grid as (Hw & _).
    assert (Hy' : 0 <= y < height) by lia.
    destruct (boundaryPixelsRow_length y Hy' (Z.to_nat width) 0)
      as (row & Hrow & Hlen); [lia | lia |].
    rewrite Hrow. cbn [bind].
    destruct (IH (y + 1)) as (rest & Hrest & Hlen'); [lia | lia |].
    rewrite Hrest. cbn [bind].
    eexists. split; [reflexivity|]. rewrite length_app. unfold pixel in *. lia.
Qed.

Lemma findBoundaryPixels_length :
  exists l, findBoundaryPixels pixels width height = Ok l /\
            Z.of_nat (length l) <= width * height.
Proof.
  destruct grid as (Hw & Hh & _).
  destruct (boundaryPixelsRows_length (Z.to_nat height) 0) as (l & Hl & Hlen);
    [lia | lia |].
  exists l. split; [exact Hl|]. nia.
Qed.

(** *** The scan order *)

Lemma find_scanOffsets (f : Z -> bool) :
  match find f scanOffsets with
  | None => forall i, 0 <= i < 8 -> f i = false
  | Some i => 0 <= i < 8 /\ f i = true /\ forall j, 0 <= j < i -> f j = false
  end.
Proof.
  unfold scanOffsets. cbn [find].
  repeat match goal with
         | |- context [if f ?k then _ else _] => destruct (f k) eqn:?
         end;
    try (split; [lia | split; [assumption |]]);
    intros j Hj;
    assert (Hcases : j = 0 \/ j = 1 \/ j = 2 \/ j = 3 \/ j = 4 \/ j = 5 \/ j = 6 \/ j = 7)
      by lia;
    repeat (destruct Hcases as [-> | Hcases]; [first [assumption | lia] |]);
    first [subst j; assumption | lia].
Qed.

(** *** The functions return on every grid *)

Lemma scanRow_returns y :
  0 <= y < height ->
  forall n x, 0 <= x -> x + Z.of_nat n <= width ->
  exists r, scanRow pixels y x n = Ok r.
Proof.
  intros Hy. induction n as [|n IH]; intros x Hx Hn; cbn [scanRow].
  - eauto.
  - assert (Hin : inImage width height x y = true).
    { unfold inImage. rewrite !andb_true_iff, !Z.leb_le, !Z.ltb_lt. lia. }
    destruct (readPixel_inImage _ _ Hin) as [v Hv]. rewrite Hv. cbn [bind].
    destruct (v =? 1); [eauto | apply IH; lia].
Qed.

Lemma scanRows_returns :
  forall n y, 0 <= y -> y + Z.of_nat n <= height ->
  exists r, scanRows pixels width y n = Ok r.
Proof.
  induction n as [|n IH]; intros y Hy Hn; cbn [scanRows].
  - eauto.
  - destruct grid as (Hw & _).
    assert (Hy' : 0 <= y < height) by lia.
    destruct (scanRow_returns y Hy' (Z.to_nat width) 0) as [r Hr]; [lia | lia |].
    rewrite Hr. cbn [bind]. destruct r; [eauto | apply IH; lia].
Qed.

Lemma findSingleOuterBoundary_returns :
  exists b, findSingleOuterBoundary pixels width height = Ok b.
Proof.
  destruct grid as (Hw & Hh & _).
  unfold findSingleOuterBoundary, findStart.
  destruct (scanRows_returns (Z.to_nat height) 0) as [r Hr]; [lia | lia |].
  rewrite Hr. cbn [bind]. destruct r as [[startX startY]|]; [|eauto].
  destruct (traceLoop_from_start (hasWhiteNeighbor pixels width height)
              (onBoundary pixels width height)
              (fun x y _ => hasWhiteNeighbor_reads x y)
              startX startY (width * height * 2))
    as (n & reason & s' & Hn & _ & Hrun & _); [nia|].
  rewrite Hrun by lia. cbn [bind snd]. eauto.
Qed.

Lemma findPerfectContour_returns :
  exists b, findPerfectContour pixels width height = Ok b.
Proof.
  unfold findPerfectContour.
  destruct findBoundaryPixels_length as (l & Hl & _). rewrite Hl. cbn [bind].
  destruct l as [|first others]; [eauto|].
  destruct (pickStart first others) as [startX startY].
  destruct (traceLoop_from_start (fun _ _ => Ok true) (fun _ _ => true)
              (fun _ _ _ => eq_refl) startX startY
              (Z.of_nat (length (first :: others)) * 2))
    as (n & reason & s' & Hn & _ & Hrun & _); [lia|].
  rewrite Hrun by lia. cbn [bind snd]. eauto.
Qed.

(** *** The claims about the tracer *)

(** C2 (as amended). On every binary grid of width W and height H the trace
    loop stops: there is a number n of completed passes, at most 2 x W x H,
    after which the loop has left with one of three reasons -- no neighbour is
    a candidate, that is unvisited, foreground and accepted by the test of the
    loop, or the neighbour found is the start pixel while the polygon has
    more than 3 points, or the pass counter has reached the cap.  This holds
    for the loop of [findSingleOuterBoundary] (test [hasWhiteNeighbor], cap
    [width * height * 2]) and for the loop of [findPerfectContour] (no test,
    cap twice the number of boundary pixels, itself at most 2 x W x H), from
    every start pixel. *)
Theorem trace_loop_terminates :
  (forall startX startY,
     exists (n : nat) reason s',
       Z.of_nat n <= 2 * width * height /\
       iterations s' = Z.of_nat n /\
       (forall fuel, (n < fuel)%nat ->
          traceLoop pixels width height (hasWhiteNeighbor pixels width height)
            startX startY (width * height * 2) fuel (initialState startX startY)
          = Ok (reason, s')) /\
       exitCondition pixels width height (onBoundary pixels width height)
         startX startY (width * height * 2) reason s')
  /\
  (exists boundaryPixels,
     findBoundaryPixels pixels width height = Ok boundaryPixels /\
     forall startX startY,
     exists (n : nat) reason s',
       Z.of_nat n <= Z.of_nat (length boundaryPixels) * 2 <= 2 * width * height /\
       iterations s' = Z.of_nat n /\
       (forall fuel, (n < fuel)%nat ->
          traceLoop pixels width height (fun _ _ => Ok true)
            startX startY (Z.of_nat (length boundaryPixels) * 2) fuel
            (initialState startX startY)
          = Ok (reason, s')) /\
       exitCondition pixels width height (fun _ _ => true)
         startX startY (Z.of_nat (length boundaryPixels) * 2) reason s').
Proof.
  split.
  - intros startX startY.
    destruct grid as (Hw & Hh & _).
    destruct (traceLoop_from_start (hasWhiteNeighbor pixels width height)
                (onBoundary pixels width height)
                (fun x y _ => hasWhiteNeighbor_reads x y)
                startX startY (width * height * 2))
      as (n & reason & s' & Hn & Hit & Hrun & Hexit); [nia|].
    exists n, reason, s'. repeat split; [lia | exact Hit | exact Hrun | exact Hexit].
  - destruct findBoundaryPixels_length as (l & Hl & Hlen).
    exists l. split; [exact Hl|]. intros startX startY.
    destruct (traceLoop_from_start (fun _ _ => Ok true) (fun _ _ => true)
                (fun _ _ _ => eq_refl) startX startY (Z.of_nat (length l) * 2))
      as (n & reason & s' & Hn & Hit & Hrun & Hexit); [lia|].
    exists n, reason, s'. repeat split; [lia | lia | exact Hit | exact Hrun | exact Hexit].
Qed.

(** C4. A grid that is empty (width or height 0) or holds no foreground pixel
    traces to the empty polygon, returned as an ordinary result. *)
Theorem findSingleOuterBoundary_without_foreground :
  width = 0 \/ height = 0 \/ noForeground pixels width height ->
  findSingleOuterBoundary pixels width height = Ok [].
Proof.
  intros Hcase.
  assert (Hno : noForeground pixels width height).
  { destruct Hcase as [H | [H | H]]; [| | exact H];
      apply empty_noForeground; auto. }
  destruct grid as (Hw & Hh & _).
  unfold findSingleOuterBoundary, findStart.
  rewrite (scanRows_none Hno) by lia. reflexivity.
Qed.

(** C7 (as amended). In a pass of [findSingleOuterBoundary] whose visited set
    holds the start pixel, the 8 neighbours are scanned from the current
    direction in the order East, NE, N, NW, W, SW, S, SE; the first neighbour
    that is inside the image, foreground, unvisited and on the boundary (a
    white or outside cell in its 3x3 block) is selected: the direction becomes
    (foundDirectionIndex + 6) mod 8, the pixel is marked visited and appended
    with its Y negated.  Without such a neighbour the pass reports that
    nothing was found. *)
Theorem traceStep_selects startX startY s :
  has (visited s) startX startY = true ->
  let isCandidate i :=
    candidate pixels width height (onBoundary pixels width height) (visited s)
      (fst (neighbourAt s i)) (snd (neighbourAt s i)) in
  let step :=
    traceStep pixels width height (hasWhiteNeighbor pixels width height)
      startX startY s in
  (step = Ok NotFound /\ forall i, 0 <= i < 8 -> isCandidate i = false)
  \/
  (exists i,
     0 <= i < 8 /\ isCandidate i = true /\
     (forall j, 0 <= j < i -> isCandidate j = false) /\
     let dirIndex := (direction s + i) mod 8 in
     let x := currentX s + fst (directionAt dirIndex) in
     let y := currentY s + snd (directionAt dirIndex) in
     step = Ok (Advance {| boundary := boundary s ++ [(x, - y)];
                           visited := add (visited s) x y;
                           currentX := x;
                           currentY := y;
                           direction := (dirIndex + 6) mod 8;
                           iterations := iterations s + 1 |})).
Proof.
  intros Hvis isCandidate step. subst step.
  rewrite (traceStep_start_visited (hasWhiteNeighbor pixels width height)
             (onBoundary pixels width height)
             (fun x y _ => hasWhiteNeighbor_reads x y) startX startY s Hvis).
  unfold firstCandidate.
  pose proof (find_scanOffsets isCandidate) as Hfind. subst isCandidate.
  cbv beta in Hfind.
  destruct (find _ scanOffsets) as [i|].
  - right. exists i. destruct Hfind as (Hi & Hc & Hfirst).
    repeat split; [lia | lia | exact Hc | exact Hfirst].
  - left. split; [reflexivity | exact Hfind].
Qed.

End TracerFacts.

(** *** The tracer on the test data *)

Section TracerExamples.

Import Tracer Examples.
Local Open Scope Z_scope.

Lemma blank2_wellFormed : wellFormed blank2 2 2.
Proof.
  unfold wellFormed. split; [lia|]. split; [lia|]. split; [reflexivity|].
  repeat constructor.
Defined.

Lemma block5_wellFormed : wellFormed block5 5 5.
Proof.
  unfold wellFormed. split; [lia|]. split; [lia|]. split; [reflexivity|].
  repeat constructor.
Defined.

Lemma blank2_noForeground : noForeground blank2 2 2.
Proof.
  intros x y Hin. unfold inImage in Hin.
  rewrite !andb_true_iff, !Z.leb_le, !Z.ltb_lt in Hin.
  assert (Hx : x = 0 \/ x = 1) by lia. assert (Hy : y = 0 \/ y = 1) by lia.
  destruct Hx as [-> | ->], Hy as [-> | ->]; vm_compute; discriminate.
Defined.

(** The loop on [block5], started at (1, 1), stops within 50 passes. *)
Lemma trace_loop_terminates_block5 :
  exists (n : nat) reason s',
    Z.of_nat n <= 2 * 5 * 5 /\
    iterations s' = Z.of_nat n /\
    (forall fuel, (n < fuel)%nat ->
       traceLoop block5 5 5 (hasWhiteNeighbor block5 5 5) 1 1 (5 * 5 * 2) fuel
         (initialState 1 1)
       = Ok (reason, s')) /\
    exitCondition block5 5 5 (onBoundary block5 5 5) 1 1 (5 * 5 * 2) reason s'.
Proof.
  exact (proj1 (trace_loop_terminates block5 5 5 block5_wellFormed) 1 1).
Defined.

(** C2 as stated fails on [block5].  The loop of [findSingleOuterBoundary],
    started at (1, 1), leaves through [if (!found) break] after 8 of its 50
    passes, at (1, 2): the neighbour (2, 2) to the East is foreground and
    unvisited, but it is interior and the test of the loop refuses it. *)
Lemma trace_loop_stops_beside_unvisited_foreground :
  exists s',
    traceLoop block5 5 5 (hasWhiteNeighbor block5 5 5) 1 1 (5 * 5 * 2) 51
      (initialState 1 1)
    = Ok (NoNeighbour, s')
    /\ iterations s' = 8
    /\ iterations s' < 2 * 5 * 5
    /\ neighbourAt s' 0 = (2, 2)
    /\ inImage 5 5 2 2 = true
    /\ readPixel block5 2 2 = Ok 1
    /\ has (visited s') 2 2 = false
    /\ firstCandidate block5 5 5 (fun _ _ => true) s' = Some 0.
Proof.
  eexists. split; [vm_compute; reflexivity|].
  repeat split; reflexivity.
Qed.

Lemma findSingleOuterBoundary_blank2 : findSingleOuterBoundary blank2 2 2 = Ok [].
Proof.
  apply (findSingleOuterBoundary_without_foreground blank2 2 2 blank2_wellFormed).
  right. right. exact blank2_noForeground.
Defined.

(** The second pass on [block5], read through the amended claim. *)
Lemma traceStep_selects_block5 :
  let isCandidate i :=
    candidate block5 5 5 (onBoundary block5 5 5) (visited block5_second)
      (fst (neighbourAt block5_second i)) (snd (neighbourAt block5_second i)) in
  let step :=
    traceStep block5 5 5 (hasWhiteNeighbor block5 5 5) 1 1 block5_second in
  (step = Ok NotFound /\ forall i, 0 <= i < 8 -> isCandidate i = false)
  \/
  (exists i,
     0 <= i < 8 /\ isCandidate i = true /\
     (forall j, 0 <= j < i -> isCandidate j = false) /\
     let dirIndex := (direction block5_second + i) mod 8 in
     let x := currentX block5_second + fst (directionAt dirIndex) in
     let y := currentY block5_second + snd (directionAt dirIndex) in
     step = Ok (Advance {| boundary := boundary block5_second ++ [(x, - y)];
                           visited := add (visited block5_second) x y;
                           currentX := x;
                           currentY := y;
                           direction := (dirIndex + 6) mod 8;
                           iterations := iterations block5_second + 1 |})).
Proof.
  apply (traceStep_selects block5 5 5 block5_wellFormed 1 1 block5_second).
  reflexivity.
Defined.

(** C7 as stated fails on [block5].  After the first pass (from (1, 1) East to
    (2, 1)) the first unvisited foreground neighbour in scan order is (2, 2),
    at offset 0 (South); it is interior, so the pass skips it and records
    (3, 1), at offset 2 (East). *)
Lemma traceStep_skips_interior_neighbour :
  traceStep block5 5 5 (hasWhiteNeighbor block5 5 5) 1 1 (initialState 1 1)
  = Ok (Advance block5_second)
  /\ firstCandidate block5 5 5 (fun _ _ => true) block5_second = Some 0
  /\ neighbourAt block5_second 0 = (2, 2)
  /\ traceStep block5 5 5 (hasWhiteNeighbor block5 5 5) 1 1 block5_second
     = Ok (Advance (record block5_second 2))
  /\ neighbourAt block5_second 2 = (3, 1)
  /\ record block5_second 2 <> record block5_second 0.
Proof.
  repeat split; try (vm_compute; reflexivity).
  vm_compute. discriminate.
Qed.

End TracerExamples.

(** ** The scaler *)

Section ScalerFacts.

Import Num.
Local Open Scope Q_scope.

Lemma divide_nonzero a b : ~ b == 0 -> divide a b = Ok (a / b).
Proof.
  intros Hb. unfold divide.
  destruct (Qeq_bool b 0) eqn:E; [|reflexivity].
  apply Qeq_bool_iff in E. contradiction.
Qed.

Lemma inject_Z_nonzero z : (0 < z)%Z -> ~ inject_Z z == 0.
Proof.
  intros Hz H. unfold Qeq in H. cbn in H. lia.
Qed.

(** C1. For a non-empty polygon and a positive image size, the scaled path of
    revision A is the input with both coordinates of every point multiplied by
    one factor, the target dimension of the controlled axis divided by the
    pixel size of the whole image along that axis; the polygon's own extent
    does not enter the factor. *)
Theorem scaledPath_uses_image_dimension
  (deduplicatedPath : contour) (dimensionControl : dimension)
  (width height : Q) (imageWidth imageHeight : Z) :
  deduplicatedPath <> [] ->
  (0 < imageWidth)%Z -> (0 < imageHeight)%Z ->
  let scaleFactor :=
    match dimensionControl with
    | WIDTH => width / inject_Z imageWidth
    | HEIGHT => height / inject_Z imageHeight
    end in
  RevA.scaledPath deduplicatedPath dimensionControl width height imageWidth imageHeight
  = Ok (map (fun p => (fst p * scaleFactor, snd p * scaleFactor)) deduplicatedPath).
Proof.
  intros Hne Hw Hh scaleFactor. subst scaleFactor.
  unfold RevA.scaledPath, RevA.scaleContour.
  destruct deduplicatedPath as [|p rest]; [congruence|]. cbn [length Nat.eqb].
  destruct dimensionControl;
    rewrite divide_nonzero by (apply inject_Z_nonzero; assumption);
    reflexivity.
Qed.

Lemma Qltb_lt a b : Qltb a b = true <-> a < b.
Proof.
  unfold Qltb. rewrite negb_true_iff.
  split.
  - intros H. apply Qnot_le_lt. intros Hle.
    apply Qle_bool_iff in Hle. congruence.
  - intros H. destruct (Qle_bool b a) eqn:E; [|reflexivity].
    apply Qle_bool_iff in E. exfalso. apply (Qlt_not_le _ _ H E).
Qed.

Lemma Qltb_ge a b : Qltb a b = false <-> b <= a.
Proof.
  unfold Qltb. rewrite negb_false_iff. apply Qle_bool_iff.
Qed.

Lemma Qmin_cases q y : (Qmin q y = q /\ q <= y) \/ (Qmin q y = y /\ y <= q).
Proof.
  unfold Qmin, GenericMinMax.gmin.
  destruct (q ?= y) eqn:E.
  - left. split; [reflexivity|]. apply Qeq_alt in E. rewrite E. apply Qle_refl.
  - left. split; [reflexivity|]. apply Qlt_alt in E. apply Qlt_le_weak, E.
  - right. split; [reflexivity|]. apply Qgt_alt in E. apply Qlt_le_weak, E.
Qed.

(** The fold of [Math.min] over the Y coordinates yields the least of them. *)
Lemma fold_minWith (l : contour) :
  forall m0,
  exists m, fold_left (fun m p => minWith m (snd p)) l (Finite m0) = Finite m /\
            m <= m0 /\ Forall (fun p => m <= snd p) l /\
            (m = m0 \/ exists p, In p l /\ snd p = m).
Proof.
  induction l as [|p l IH]; intros m0; cbn [fold_left minWith].
  - exists m0. repeat split; [apply Qle_refl | constructor | now left].
  - destruct (IH (Qmin m0 (snd p))) as (m & Hfold & Hle & Hall & Hmem).
    exists m. split; [exact Hfold|].
    destruct (Qmin_cases m0 (snd p)) as [[Heq Hcmp] | [Heq Hcmp]];
      rewrite Heq in Hle, Hmem.
    + split; [exact Hle|]. split.
      * constructor; [eapply Qle_trans; eauto | exact Hall].
      * destruct Hmem as [-> | (q & Hq & Hqm)]; [now left|].
        right. exists q. split; [now right | exact Hqm].
    + split; [eapply Qle_trans; eauto|]. split.
      * constructor; [exact Hle | exact Hall].
      * right. destruct Hmem as [-> | (q & Hq & Hqm)].
        -- exists p. split; [now left | reflexivity].
        -- exists q. split; [now right | exact Hqm].
Qed.

Lemma exact_sound : Rounding.sound Rounding.exact.
Proof.
  unfold Rounding.exact. constructor; intros; try assumption; reflexivity.
Qed.

Lemma truncate_sound : Rounding.sound Rounding.truncate.
Proof.
  assert (Hfloor : forall x, 0 <= x -> 0 <= inject_Z (Qfloor x)).
  { intros x Hx. change 0 with (inject_Z 0). rewrite <- Zle_Qle.
    change 0%Z with (Qfloor 0). apply Qfloor_resp_le, Hx. }
  assert (Hnonneg : forall x, 0 <= x -> Rounding.truncate x = inject_Z (Qfloor x)).
  { intros x Hx. unfold Rounding.truncate.
    apply Qle_bool_iff in Hx. rewrite Hx. reflexivity. }
  assert (Hneg : forall x, x < 0 -> Rounding.truncate x = - inject_Z (Qfloor (- x))).
  { intros x Hx. unfold Rounding.truncate.
    destruct (Qle_bool 0 x) eqn:E; [apply Qle_bool_iff in E; lra | reflexivity]. }
  constructor.
  - intros x y Hxy.
    destruct (Qlt_le_dec x 0) as [Hx | Hx], (Qlt_le_dec y 0) as [Hy | Hy].
    + rewrite (Hneg x Hx), (Hneg y Hy).
      assert (H : inject_Z (Qfloor (- y)) <= inject_Z (Qfloor (- x))).
      { rewrite <- Zle_Qle. apply Qfloor_resp_le. lra. }
      lra.
    + rewrite (Hneg x Hx), (Hnonneg y Hy).
      pose proof (Hfloor (- x) ltac:(lra)). pose proof (Hfloor y Hy). lra.
    + lra.
    + rewrite (Hnonneg x Hx), (Hnonneg y Hy).
      rewrite <- Zle_Qle. apply Qfloor_resp_le, Hxy.
  - intros x. destruct (Qlt_le_dec x 0) as [Hx | Hx].
    + rewrite (Hneg x Hx).
      pose proof (Hfloor (- x) ltac:(lra)) as Hpos.
      destruct (Qlt_le_dec (- inject_Z (Qfloor (- x))) 0) as [Hlt | Hge].
      * rewrite (Hneg _ Hlt). rewrite Qopp_involutive, Qfloor_Z. reflexivity.
      * rewrite (Hnonneg _ Hge).
        assert (Hzero : inject_Z (Qfloor (- x)) == 0) by lra.
        assert (Hz : Qfloor (- x) = 0%Z).
        { remember (Qfloor (- x)) as z. unfold Qeq in Hzero. cbn in Hzero. lia. }
        rewrite Hz. reflexivity.
    + rewrite (Hnonneg x Hx). rewrite (Hnonneg _ (Hfloor x Hx)), Qfloor_Z. reflexivity.
  - intros x. destruct (Qlt_le_dec x 0) as [Hx | Hx].
    + rewrite (Hneg x Hx). rewrite (Hnonneg (- x)) by lra. lra.
    + destruct (Qlt_le_dec (- x) 0) as [Hlt | Hge].
      * rewrite (Hneg _ Hlt), (Hnonneg x Hx), Qopp_involutive.
        assert (Hsame : Qfloor (- - x) = Qfloor x)
          by (apply Qfloor_comp, Qopp_involutive).
        reflexivity.
      * assert (Hzero : x == 0) by lra.
        rewrite (Hnonneg _ Hge), (Hnonneg x Hx).
        assert (H1 : Qfloor (- x) = 0%Z).
        { change 0%Z with (Qfloor 0). apply Qfloor_comp. lra. }
        assert (H2 : Qfloor x = 0%Z).
        { change 0%Z with (Qfloor 0). apply Qfloor_comp. exact Hzero. }
        rewrite H1, H2. reflexivity.
  - reflexivity.
Qed.

Lemma rounding_zero (fl : Q -> Q) : Rounding.sound fl -> fl 0 == 0.
Proof.
  intros Hfl. pose proof (Rounding.odd fl Hfl 0) as Hodd.
  change (- 0) with 0 in Hodd. lra.
Qed.

(** C8 (as amended). Revision C: the scaler multiplies by the scale factor and
    by 100; when the least Y of the result is negative, every point is moved
    up by |minY| + 10, and no Y of the output is negative then, whatever the
    rounding of the operations; in exact arithmetic every Y of the output is
    at least 10.  Otherwise the points are returned as scaled. *)
Theorem scaleContour_lifts_negative_Y
  (fl : Q -> Q) (c : contour) (targetDimensionInches imageDimensionPixels : Q)
  (dimensionControl : dimension) :
  Rounding.sound fl -> c <> [] -> ~ imageDimensionPixels == 0 ->
  let scaleFactor := fl (targetDimensionInches / imageDimensionPixels) in
  let scaledUpContour :=
    map (fun p => (fl (fl (fst p * scaleFactor) * 100),
                   fl (fl (snd p * scaleFactor) * 100))) c in
  exists minY,
    (exists p, In p scaledUpContour /\ snd p = minY) /\
    Forall (fun p => minY <= snd p) scaledUpContour /\
    (minY < 0 ->
     exists out,
       RevC.scaleContourRounded fl c targetDimensionInches imageDimensionPixels
         dimensionControl = Ok out /\
       out = map (fun p => (fst p, fl (snd p + fl (Qabs minY + 10)))) scaledUpContour /\
       Forall (fun p => 0 <= snd p) out /\
       ((forall x, fl x == x) -> Forall (fun p => 10 <= snd p) out)) /\
    (~ minY < 0 ->
     RevC.scaleContourRounded fl c targetDimensionInches imageDimensionPixels
       dimensionControl = Ok scaledUpContour) /\
    RevC.scaleContourRounded Rounding.exact c targetDimensionInches
      imageDimensionPixels dimensionControl
    = RevC.scaleContour c targetDimensionInches imageDimensionPixels dimensionControl.
Proof.
  intros Hfl Hne Hdim scaleFactor scaledUpContour.
  assert (Htie : RevC.scaleContourRounded Rounding.exact c targetDimensionInches
                     imageDimensionPixels dimensionControl
                   = RevC.scaleContour c targetDimensionInches imageDimensionPixels
                       dimensionControl) by reflexivity.
  revert Htie. generalize (RevC.scaleContourRounded Rounding.exact c
                               targetDimensionInches imageDimensionPixels
                               dimensionControl).
  intros exactResult Htie.
  unfold RevC.scaleContourRounded.
  destruct c as [|p0 rest]; [congruence|]. cbn [length Nat.eqb].
  rewrite divide_nonzero by exact Hdim. cbn [bind]. cbv zeta.
  rewrite map_map. cbn [fst snd]. fold scaleFactor. fold scaledUpContour.
  subst scaledUpContour. cbn [map fold_left minWith].
  set (q0 := (fl (fl (fst p0 * scaleFactor) * 100), fl (fl (snd p0 * scaleFactor) * 100))).
  set (tail := map (fun p => (fl (fl (fst p * scaleFactor) * 100),
                              fl (fl (snd p * scaleFactor) * 100))) rest).
  destruct (fold_minWith tail (snd q0)) as (m & Hfold & Hle & Hall & Hmem).
  rewrite Hfold.
  assert (Hin : exists p, In p (q0 :: tail) /\ snd p = m).
  { destruct Hmem as [-> | (q & Hq & Hqm)].
    - exists q0. split; [now left | reflexivity].
    - exists q. split; [now right | exact Hqm]. }
  assert (Hrounded : fl m == m).
  { destruct Hin as (p & Hp & <-). destruct Hp as [<- | Hp].
    - subst q0. cbn [snd]. apply (Rounding.idempotent fl Hfl).
    - subst tail. apply in_map_iff in Hp as (r & <- & _). cbn [snd].
      apply (Rounding.idempotent fl Hfl). }
  exists m. split; [exact Hin|]. split; [constructor; [exact Hle | exact Hall]|].
  split; [|split].
  - intros Hneg. apply Qltb_lt in Hneg as Hb. rewrite Hb.
    eexists. split; [reflexivity|]. split; [reflexivity|].
    assert (Habs : Qabs m == - m) by (apply Qabs_neg, Qlt_le_weak, Hneg).
    assert (Hoffset : - m <= fl (Qabs m + 10)).
    { assert (H1 : fl (- m) <= fl (Qabs m + 10))
        by (apply (Rounding.monotone fl Hfl); lra).
      pose proof (Rounding.odd fl Hfl m) as H2. lra. }
    assert (Hlifted : forall y, m <= y -> 0 <= fl (y + fl (Qabs m + 10))).
    { intros y Hy. pose proof (rounding_zero fl Hfl) as H0.
      assert (H1 : fl 0 <= fl (y + fl (Qabs m + 10)))
        by (apply (Rounding.monotone fl Hfl); lra).
      lra. }
    split.
    + cbn [map snd fst]. constructor; [cbn [snd]; apply Hlifted, Hle|].
      rewrite Forall_map. cbn [snd].
      eapply Forall_impl; [|exact Hall]. cbn beta. intros a Ha. apply Hlifted, Ha.
    + intros Hexact.
      assert (Hten : forall y, m <= y -> 10 <= fl (y + fl (Qabs m + 10))).
      { intros y Hy. rewrite (Hexact (y + fl (Qabs m + 10))).
        rewrite (Hexact (Qabs m + 10)). lra. }
      cbn [map snd fst]. constructor; [cbn [snd]; apply Hten, Hle|].
      rewrite Forall_map. cbn [snd].
      eapply Forall_impl; [|exact Hall]. cbn beta. intros a Ha. apply Hten, Ha.
  - intros Hpos. apply Qnot_lt_le in Hpos. apply Qltb_ge in Hpos. rewrite Hpos.
    reflexivity.
  - exact Htie.
Qed.

End ScalerFacts.

Section ScalerExamples.

Import Num Examples.
Local Open Scope Q_scope.

Lemma scaledPath_triangle :
  RevA.scaledPath triangle WIDTH (9 # 4) (3 # 4) 10 20
  = Ok (map (fun p => (fst p * ((9 # 4) / inject_Z 10),
                       snd p * ((9 # 4) / inject_Z 10))) triangle).
Proof.
  apply (scaledPath_uses_image_dimension triangle WIDTH (9 # 4) (3 # 4) 10 20).
  - discriminate.
  - reflexivity.
  - reflexivity.
Defined.

Lemma scaleContour_lifts_below :
  let scaleFactor := Rounding.truncate (1 / 1) in
  let scaledUpContour :=
    map (fun p => (Rounding.truncate (Rounding.truncate (fst p * scaleFactor) * 100),
                   Rounding.truncate (Rounding.truncate (snd p * scaleFactor) * 100)))
        below in
  exists minY,
    (exists p, In p scaledUpContour /\ snd p = minY) /\
    Forall (fun p => minY <= snd p) scaledUpContour /\
    (minY < 0 ->
     exists out,
       RevC.scaleContourRounded Rounding.truncate below 1 1 WIDTH = Ok out /\
       out = map (fun p => (fst p, Rounding.truncate
                                      (snd p + Rounding.truncate (Qabs minY + 10))))
                 scaledUpContour /\
       Forall (fun p => 0 <= snd p) out /\
       ((forall x, Rounding.truncate x == x) -> Forall (fun p => 10 <= snd p) out)) /\
    (~ minY < 0 ->
     RevC.scaleContourRounded Rounding.truncate below 1 1 WIDTH = Ok scaledUpContour) /\
    RevC.scaleContourRounded Rounding.exact below 1 1 WIDTH
    = RevC.scaleContour below 1 1 WIDTH.
Proof.
  apply (scaleContour_lifts_negative_Y Rounding.truncate below 1 1 WIDTH).
  - exact truncate_sound.
  - discriminate.
  - discriminate.
Defined.

(** C8 as stated fails on revision A: its [scaleContour] has no translation
    step, so a contour below the X axis stays below it. *)
Lemma scaleContour_revisionA_keeps_negative_Y :
  exists out,
    RevA.scaleContour below 1 1 WIDTH = Ok out /\
    out <> [] /\
    Forall (fun p => snd p < 0) out.
Proof.
  eexists. split; [reflexivity|]. split; [discriminate|].
  repeat constructor.
Qed.

End ScalerExamples.

(** ** The emitter (revision A) *)

Section EmitterFacts.

Import Num Examples.
Local Open Scope string_scope.

Variable Math_sqrt : Q -> Q.
Variable numberToString : Q -> string.

Lemma addPolyline_short w (points : contour) layer :
  (length points < 2)%nat ->
  RevA.addPolyline Math_sqrt numberToString w points layer = w.
Proof.
  intros Hlen. unfold RevA.addPolyline.
  replace (length points <? 2)%nat with true
    by (symmetry; apply Nat.ltb_lt; exact Hlen).
  reflexivity.
Qed.

(** C5 (as amended). Emitting the empty polygon with the writer of revision A
    -- [addPolyline] on fewer than 2 points, or no call of [addPolyline] at
    all, as [convertRasterToDxf] does when no contour was found -- returns a
    text of 14 lines: a header section and an entities section without any
    LINE entity, each opened and closed, and the end-of-file marker as the
    last two lines.  These are the only sections of the text.  Neither
    [addPolyline] nor [toString] has an operation that can fail. *)
Theorem empty_polygon_document (points : contour) (layer : string) :
  (length points < 2)%nat ->
  let text :=
    fst (RevA.toString
           (RevA.addPolyline Math_sqrt numberToString RevA.SimpleDxfWriter points
              layer)) in
  text = fst (RevA.toString RevA.SimpleDxfWriter)
  /\ RevA.splitLines text = emptyDocument
  /\ RevA.sectionNames (RevA.splitLines text) = [ "HEADER"; "ENTITIES" ]
  /\ RevA.structurallyValid (RevA.splitLines text) = true
  /\ RevA.lineEntities (RevA.splitLines text) = O
  /\ last (RevA.splitLines text) "" = "EOF".
Proof.
  intros Hlen text. subst text. rewrite addPolyline_short by exact Hlen.
  repeat split; vm_compute; reflexivity.
Qed.

End EmitterFacts.

Section EmitterExamples.

Import Num Runtime Examples.
Local Open Scope string_scope.

Lemma empty_polygon_document_below :
  let text :=
    fst (RevA.toString
           (RevA.addPolyline sqrt_sample (fun _ => "0") RevA.SimpleDxfWriter below
              "0")) in
  text = fst (RevA.toString RevA.SimpleDxfWriter)
  /\ RevA.splitLines text = emptyDocument
  /\ RevA.sectionNames (RevA.splitLines text) = [ "HEADER"; "ENTITIES" ]
  /\ RevA.structurallyValid (RevA.splitLines text) = true
  /\ RevA.lineEntities (RevA.splitLines text) = O
  /\ last (RevA.splitLines text) "" = "EOF".
Proof.
  apply (empty_polygon_document sqrt_sample (fun _ => "0") below "0").
  cbn. lia.
Defined.

(** C5 as stated fails on revision A: the text returned when no contour was
    found has two sections, the header and the entities; the symbol tables and
    the block definitions that the container of the specification holds are
    missing. *)
Lemma empty_polygon_document_lacks_tables_and_blocks :
  RevA.sectionNames (RevA.splitLines (fst (RevA.toString RevA.SimpleDxfWriter)))
  = [ "HEADER"; "ENTITIES" ]
  /\ existsb (String.eqb "TABLES")
       (RevA.sectionNames (RevA.splitLines (fst (RevA.toString RevA.SimpleDxfWriter))))
     = false
  /\ existsb (String.eqb "BLOCKS")
       (RevA.sectionNames (RevA.splitLines (fst (RevA.toString RevA.SimpleDxfWriter))))
     = false
  /\ RevA.specContainer
       (RevA.splitLines (fst (RevA.toString RevA.SimpleDxfWriter)))
     = false.
Proof.
  repeat split; vm_compute; reflexivity.
Qed.

End EmitterExamples.

(** ** Simplification *)

Section SimplifyFacts.

Import Num.
Local Open Scope Q_scope.

Variable Math_sqrt : Q -> Q.

(** C9. The perpendicular-distance computation returns a value for every
    point and every reference segment: the only quotient is taken after the
    test [lenSq === 0] has failed, and on a zero-length segment the result is
    the distance to its single point. *)
Theorem getPerpendicularDistance_total (p lineStart lineEnd : point) :
  (exists d, Stages.getPerpendicularDistance Math_sqrt p lineStart lineEnd = Ok d)
  /\
  (let C := fst lineEnd - fst lineStart in
   let D := snd lineEnd - snd lineStart in
   C * C + D * D == 0 ->
   let A := fst p - fst lineStart in
   let B := snd p - snd lineStart in
   Stages.getPerpendicularDistance Math_sqrt p lineStart lineEnd
   = Ok (Math_sqrt (A * A + B * B))).
Proof.
  unfold Stages.getPerpendicularDistance, divide.
  destruct (Qeq_bool _ 0) eqn:Hzero.
  - split; [eauto|]. intros; reflexivity.
  - split.
    + cbn [bind]. destruct (if Qltb _ 0 then _ else _) as [xx yy]. eauto.
    + cbv zeta. intros Hlen. apply Qeq_bool_iff in Hlen. congruence.
Qed.

Lemma getPerpendicularDistance_returns (p lineStart lineEnd : point) :
  exists d, Stages.getPerpendicularDistance Math_sqrt p lineStart lineEnd = Ok d.
Proof.
  unfold Stages.getPerpendicularDistance, divide.
  destruct (Qeq_bool _ 0); [eauto|].
  cbn [bind]. destruct (if Qltb _ 0 then _ else _) as [xx yy]. eauto.
Qed.

(** The farthest-point loop returns; its index is 0 only while the pair is the
    initial [(0, 0)], and is one of the scanned indices otherwise. *)
Lemma farthest_returns (points : contour) (indices : list nat) :
  forall acc,
  exists m, Stages.farthest Math_sqrt points indices acc = Ok m /\
            (m = acc \/ In (snd m) indices).
Proof.
  induction indices as [|i rest IH]; intros acc; cbn [Stages.farthest].
  - exists acc. split; [reflexivity | now left].
  - destruct (getPerpendicularDistance_returns (at_ points i) (at_ points 0)
                (at_ points (length points - 1))) as [d Hd].
    rewrite Hd. cbn [bind].
    destruct (IH (if Qltb (fst acc) d then (d, i) else acc)) as (m & Hm & Hcase).
    exists m. split; [exact Hm|].
    destruct Hcase as [-> | Hin]; [|right; now right].
    destruct (Qltb (fst acc) d); [right; now left | now left].
Qed.

Lemma farthest_index (points : contour) m :
  Stages.farthest Math_sqrt points (seq 1 (length points - 2)) (0, O) = Ok m ->
  0 < fst m ->
  (1 <= snd m <= length points - 2)%nat.
Proof.
  intros Hm Hpos.
  destruct (farthest_returns points (seq 1 (length points - 2)) (0, O))
    as (m' & Hm' & Hcase).
  rewrite Hm in Hm'. injection Hm' as <-.
  destruct Hcase as [-> | Hin].
  - cbn [fst] in Hpos. exfalso. apply (Qlt_irrefl 0), Hpos.
  - apply in_seq in Hin. lia.
Qed.

Lemma removelast_length {A} (l : list A) : length (removelast l) = (length l - 1)%nat.
Proof.
  induction l as [|a [|b l] IH]; [reflexivity | reflexivity |].
  change (removelast (a :: b :: l)) with (a :: removelast (b :: l)).
  cbn [length] in *. lia.
Qed.

Ltac split_lengths :=
  rewrite ?length_app, ?removelast_length, ?length_firstn, ?length_skipn in *.

(** With a non-negative tolerance the output has between 2 points (for an
    input of at least 2) and as many as the input. *)
Lemma douglasPeucker_length tolerance :
  0 <= tolerance ->
  forall fuel points out,
  Stages.douglasPeucker Math_sqrt fuel points tolerance = Ok out ->
  (length out <= length points)%nat /\
  ((2 <= length points)%nat -> (2 <= length out)%nat).
Proof.
  intros Htol. induction fuel as [|fuel IH]; intros points out Hout; [discriminate|].
  cbn [Stages.douglasPeucker] in Hout.
  destruct (length points <=? 2)%nat eqn:Hshort.
  - injection Hout as <-. split; auto.
  - apply Nat.leb_gt in Hshort.
    destruct (Stages.farthest Math_sqrt points (seq 1 (length points - 2)) (0, O))
      as [[maxDistance maxIndex]|] eqn:Hm; [|discriminate].
    cbn [bind] in Hout.
    destruct (Qltb tolerance maxDistance) eqn:Hfar.
    + apply Qltb_lt in Hfar.
      assert (Hidx : (1 <= maxIndex <= length points - 2)%nat).
      { apply (farthest_index points (maxDistance, maxIndex) Hm).
        cbn [fst]. eapply Qle_lt_trans; eauto. }
      destruct (Stages.douglasPeucker Math_sqrt fuel (firstn (maxIndex + 1) points)
                  tolerance) as [left|] eqn:Hleft; [|discriminate].
      destruct (Stages.douglasPeucker Math_sqrt fuel (skipn maxIndex points)
                  tolerance) as [right|] eqn:Hright; [|discriminate].
      cbn [bind] in Hout. injection Hout as <-.
      destruct (IH _ _ Hleft) as [Hl1 Hl2]. destruct (IH _ _ Hright) as [Hr1 Hr2].
      split_lengths. lia.
    + injection Hout as <-. cbn [length]. lia.
Qed.

(** With a non-negative tolerance the recursion is at most as deep as the
    input is long. *)
Lemma douglasPeucker_returns tolerance :
  0 <= tolerance ->
  forall fuel points,
  (1 <= fuel)%nat -> (length points <= S fuel)%nat ->
  exists out, Stages.douglasPeucker Math_sqrt fuel points tolerance = Ok out.
Proof.
  intros Htol. induction fuel as [|fuel IH]; intros points Hfuel Hlen; [lia|].
  cbn [Stages.douglasPeucker].
  destruct (length points <=? 2)%nat eqn:Hshort; [eauto|].
  apply Nat.leb_gt in Hshort.
  destruct (farthest_returns points (seq 1 (length points - 2)) (0, O))
    as ([maxDistance maxIndex] & Hm & _).
  rewrite Hm. cbn [bind].
  destruct (Qltb tolerance maxDistance) eqn:Hfar; [|eauto].
  apply Qltb_lt in Hfar.
  assert (Hidx : (1 <= maxIndex <= length points - 2)%nat).
  { apply (farthest_index points (maxDistance, maxIndex) Hm).
    cbn [fst]. eapply Qle_lt_trans; eauto. }
  destruct (IH (firstn (maxIndex + 1) points)) as (left & Hleft);
    [lia | rewrite length_firstn; lia |].
  destruct (IH (skipn maxIndex points)) as (right & Hright);
    [lia | rewrite length_skipn; lia |].
  rewrite Hleft, Hright. cbn [bind]. eauto.
Qed.

(** A larger tolerance never keeps more points. *)
Lemma douglasPeucker_monotone tolerance1 tolerance2 :
  0 <= tolerance1 -> tolerance1 <= tolerance2 ->
  forall fuel points out1 out2,
  Stages.douglasPeucker Math_sqrt fuel points tolerance1 = Ok out1 ->
  Stages.douglasPeucker Math_sqrt fuel points tolerance2 = Ok out2 ->
  (length out2 <= length out1)%nat.
Proof.
  intros Htol Hle. induction fuel as [|fuel IH]; intros points out1 out2 H1 H2;
    [discriminate|].
  cbn [Stages.douglasPeucker] in H1, H2.
  destruct (length points <=? 2)%nat eqn:Hshort.
  - injection H1 as <-. injection H2 as <-. auto.
  - apply Nat.leb_gt in Hshort.
    destruct (Stages.farthest Math_sqrt points (seq 1 (length points - 2)) (0, O))
      as [[maxDistance maxIndex]|] eqn:Hm; [|discriminate].
    cbn [bind] in H1, H2.
    destruct (Qltb tolerance1 maxDistance) eqn:Hfar1.
    + apply Qltb_lt in Hfar1.
      assert (Hidx : (1 <= maxIndex <= length points - 2)%nat).
      { apply (farthest_index points (maxDistance, maxIndex) Hm).
        cbn [fst]. eapply Qle_lt_trans; eauto. }
      destruct (Stages.douglasPeucker Math_sqrt fuel (firstn (maxIndex + 1) points)
                  tolerance1) as [left1|] eqn:Hleft1; [|discriminate].
      destruct (Stages.douglasPeucker Math_sqrt fuel (skipn maxIndex points)
                  tolerance1) as [right1|] eqn:Hright1; [|discriminate].
      cbn [bind] in H1. injection H1 as <-.
      destruct (douglasPeucker_length tolerance1 Htol _ _ _ Hright1) as [_ Hr1].
      rewrite length_skipn in Hr1.
      destruct (Qltb tolerance2 maxDistance) eqn:Hfar2.
      * destruct (Stages.douglasPeucker Math_sqrt fuel (firstn (maxIndex + 1) points)
                    tolerance2) as [left2|] eqn:Hleft2; [|discriminate].
        destruct (Stages.douglasPeucker Math_sqrt fuel (skipn maxIndex points)
                    tolerance2) as [right2|] eqn:Hright2; [|discriminate].
        cbn [bind] in H2. injection H2 as <-.
        pose proof (IH _ _ _ Hleft1 Hleft2) as Hl.
        pose proof (IH _ _ _ Hright1 Hright2) as Hr.
        split_lengths. lia.
      * injection H2 as <-. split_lengths. cbn [length]. lia.
    + apply Qltb_ge in Hfar1.
      assert (Hfar2 : Qltb tolerance2 maxDistance = false).
      { apply Qltb_ge. eapply Qle_trans; eauto. }
      rewrite Hfar2 in H2. injection H1 as <-. injection H2 as <-.
      cbn [length]. lia.
Qed.

Lemma scaledTolerance_bounds tolerance :
  5 # 100 <= Stages.scaledTolerance tolerance /\
  tolerance * (3 # 10) <= Stages.scaledTolerance tolerance.
Proof.
  unfold Stages.scaledTolerance. split; [apply Q.le_max_r | apply Q.le_max_l].
Qed.

Lemma scaledTolerance_monotone t1 t2 :
  t1 <= t2 -> Stages.scaledTolerance t1 <= Stages.scaledTolerance t2.
Proof.
  intros Hle. unfold Stages.scaledTolerance.
  apply Q.max_le_compat_r. lra.
Qed.

Lemma simplifyContour_returns (c : contour) tolerance :
  exists out, Stages.simplifyContour Math_sqrt c tolerance = Ok out /\
              (length out <= length c)%nat.
Proof.
  unfold Stages.simplifyContour.
  destruct (length c <=? 2)%nat eqn:Hshort; [eauto|].
  apply Nat.leb_gt in Hshort.
  assert (Htol : 0 <= Stages.scaledTolerance tolerance).
  { pose proof (scaledTolerance_bounds tolerance). lra. }
  destruct (douglasPeucker_returns _ Htol (length c) c) as [out Hout]; [lia | lia |].
  exists out. split; [exact Hout|].
  apply (douglasPeucker_length _ Htol _ _ _ Hout).
Qed.

(** C3 (as amended). The stage [simplify ? simplifyContour(p, simplify * 0.3) : p]
    of revision A is skipped when simplify is 0 and leaves a polygon of at most
    2 points alone; otherwise it runs Douglas-Peucker with the tolerance
    max(simplify x 0.3 x 0.3, 0.05), which for simplify in [0, 1] lies between
    0.05 and 0.09. *)
Theorem simplifiedPath_tolerance (smoothedPath : contour) (simplify : Q) :
  let effectiveTolerance := Qmax (simplify * (3 # 10) * (3 # 10)) (5 # 100) in
  RevA.simplifiedPath Math_sqrt smoothedPath simplify
  = (if Qeq_bool simplify 0 then Ok smoothedPath
     else if (length smoothedPath <=? 2)%nat then Ok smoothedPath
     else Stages.douglasPeucker Math_sqrt (length smoothedPath) smoothedPath
            effectiveTolerance)
  /\ (0 <= simplify <= 1 -> 5 # 100 <= effectiveTolerance <= 9 # 100).
Proof.
  intros effectiveTolerance. subst effectiveTolerance. split.
  - unfold RevA.simplifiedPath, truthy, Stages.simplifyContour, Stages.scaledTolerance.
    destruct (Qeq_bool simplify 0); reflexivity.
  - intros [H0 H1]. split; [apply Q.le_max_r|].
    apply Q.max_lub; lra.
Qed.

End SimplifyFacts.

(** ** Orthogonal snapping *)

Section StraightenFacts.

Import Num.
Local Open Scope Q_scope.

Variable Math_atan2 : Q -> Q -> Q.

Lemma twoPi_positive : 0 < Stages.twoPi.
Proof. reflexivity. Qed.

(** The two normalisation loops are given enough passes: the result lies in
    [0, 2 * Math.PI), where both loop conditions are false. *)
Lemma raiseAngle_nonneg fuel :
  forall a, 0 <= a + inject_Z (Z.of_nat fuel) * Stages.twoPi ->
  0 <= Stages.raiseAngle fuel a.
Proof.
  pose proof twoPi_positive as Hpos.
  induction fuel as [|fuel IH]; intros a Ha; cbn [Stages.raiseAngle].
  - change (inject_Z (Z.of_nat 0)) with 0 in Ha. lra.
  - destruct (Qltb a 0) eqn:Hneg.
    + apply IH. rewrite Nat2Z.inj_succ in Ha. unfold Z.succ in Ha.
      rewrite inject_Z_plus in Ha. change (inject_Z 1) with 1 in Ha. nra.
    + apply Qltb_ge in Hneg. exact Hneg.
Qed.

Lemma raiseAngle_nonneg_id fuel a : 0 <= a -> Stages.raiseAngle fuel a = a.
Proof.
  intros Ha. destruct fuel; cbn [Stages.raiseAngle]; [reflexivity|].
  apply Qltb_ge in Ha. rewrite Ha. reflexivity.
Qed.

Lemma lowerAngle_range fuel :
  forall a, 0 <= a -> a < (inject_Z (Z.of_nat fuel) + 1) * Stages.twoPi ->
  0 <= Stages.lowerAngle fuel a < Stages.twoPi.
Proof.
  pose proof twoPi_positive as Hpos.
  induction fuel as [|fuel IH]; intros a Ha Hlt; cbn [Stages.lowerAngle].
  - change (inject_Z (Z.of_nat 0)) with 0 in Hlt. lra.
  - destruct (Qle_bool Stages.twoPi a) eqn:Hge.
    + apply Qle_bool_iff in Hge. apply IH; [lra|].
      rewrite Nat2Z.inj_succ in Hlt. unfold Z.succ in Hlt.
      rewrite inject_Z_plus in Hlt. change (inject_Z 1) with 1 in Hlt. nra.
    + split; [exact Ha|]. apply Qnot_le_lt. intros Hle.
      apply Qle_bool_iff in Hle. congruence.
Qed.

Lemma turns_covers a : Qabs a <= inject_Z (Z.of_nat (Stages.turns a)) * Stages.twoPi.
Proof.
  pose proof twoPi_positive as Hpos. unfold Stages.turns.
  pose proof (Qle_ceiling (Qabs a / Stages.twoPi)) as Hceil.
  assert (Hq : 0 <= Qabs a / Stages.twoPi).
  { apply Qle_shift_div_l; [exact Hpos|]. rewrite Qmult_0_l. apply Qabs_nonneg. }
  assert (Hz : (0 <= Qceiling (Qabs a / Stages.twoPi))%Z).
  { rewrite Zle_Qle. eapply Qle_trans; [exact Hq | exact Hceil]. }
  rewrite Z2Nat.id by exact Hz.
  assert (Hab : Qabs a == Qabs a / Stages.twoPi * Stages.twoPi).
  { field. intros H0. rewrite H0 in Hpos. discriminate. }
  rewrite Hab at 1. apply Qmult_le_compat_r; [exact Hceil | lra].
Qed.

Lemma normalizeAngle_range angle :
  0 <= Stages.normalizeAngle angle < Stages.twoPi.
Proof.
  pose proof twoPi_positive as Hpos. unfold Stages.normalizeAngle.
  set (raised := Stages.raiseAngle (Stages.turns angle) angle).
  assert (Hraised : 0 <= raised).
  { apply raiseAngle_nonneg. pose proof (turns_covers angle) as Hc.
    pose proof (Qle_Qabs (- angle)) as Habs. rewrite Qabs_opp in Habs. lra. }
  apply lowerAngle_range; [exact Hraised|].
  pose proof (turns_covers raised) as Hc.
  rewrite Qabs_pos in Hc by exact Hraised. lra.
Qed.

Lemma straightenWith_length tolerance (c : contour) :
  (2 <= length c)%nat ->
  length (Stages.straightenWith Math_atan2 tolerance c) = S (length c).
Proof.
  intros Hlen. unfold Stages.straightenWith.
  replace (length c <? 2)%nat with false by (symmetry; apply Nat.ltb_ge; exact Hlen).
  cbn [length]. rewrite length_map, length_seq. reflexivity.
Qed.

Lemma straightenWith_points tolerance (c : contour) :
  (2 <= length c)%nat ->
  nth 0 (Stages.straightenWith Math_atan2 tolerance c) (0, 0) = at_ c 0 /\
  forall i, (i < length c)%nat ->
    nth (S i) (Stages.straightenWith Math_atan2 tolerance c) (0, 0)
    = Stages.snapSegment Math_atan2 tolerance (at_ c i) (at_ c ((i + 1) mod length c)).
Proof.
  intros Hlen. unfold Stages.straightenWith.
  replace (length c <? 2)%nat with false by (symmetry; apply Nat.ltb_ge; exact Hlen).
  split; [reflexivity|]. intros i Hi. cbn [nth].
  rewrite (nth_indep _ (0, 0)
             (Stages.snapSegment Math_atan2 tolerance (at_ c 0)
                (at_ c ((0 + 1) mod length c))))
    by (rewrite length_map, length_seq; exact Hi).
  rewrite (map_nth (fun i => Stages.snapSegment Math_atan2 tolerance (at_ c i)
                               (at_ c ((i + 1) mod length c)))).
  rewrite seq_nth by exact Hi. reflexivity.
Qed.

(** C10. On an input of n >= 2 points the orthogonal-snapping stage of
    revision A and of revision C returns n + 1 points: the first input point,
    then one point for each segment from point i to point (i + 1) mod n, the
    last of them for the wrap-around segment back to the first point.  Applying
    the stage twice therefore yields n + 2 points. *)
Theorem straighten_adds_one_point (c : contour) :
  (2 <= length c)%nat ->
  let n := length c in
  let outA := RevA.straightenNearOrthogonalLines Math_atan2 c in
  let outC := RevC.straightenNearOrthogonalLines Math_atan2 c in
  length outA = S n /\ length outC = S n /\
  nth 0 outA (0, 0) = at_ c 0 /\ nth 0 outC (0, 0) = at_ c 0 /\
  (forall i, (i < n)%nat ->
     nth (S i) outA (0, 0)
     = Stages.snapSegment Math_atan2 (3 # 100) (at_ c i) (at_ c ((i + 1) mod n)) /\
     nth (S i) outC (0, 0)
     = Stages.snapSegment Math_atan2 (5 # 100) (at_ c i) (at_ c ((i + 1) mod n))) /\
  length (RevA.straightenNearOrthogonalLines Math_atan2 outA) = S (S n) /\
  length (RevC.straightenNearOrthogonalLines Math_atan2 outC) = S (S n).
Proof.
  intros Hlen n outA outC. subst n outA outC.
  unfold RevA.straightenNearOrthogonalLines, RevC.straightenNearOrthogonalLines.
  pose proof (straightenWith_length (3 # 100) c Hlen) as HA.
  pose proof (straightenWith_length (5 # 100) c Hlen) as HC.
  destruct (straightenWith_points (3 # 100) c Hlen) as [HA0 HAi].
  destruct (straightenWith_points (5 # 100) c Hlen) as [HC0 HCi].
  repeat split; auto.
  - rewrite straightenWith_length; [congruence | lia].
  - rewrite straightenWith_length; [congruence | lia].
Qed.

End StraightenFacts.

(** ** Adaptive reduction *)

Section ReductionFacts.

Import Num.
Local Open Scope Q_scope.

Lemma targetPoints_range len r : (50 <= Stages.targetPoints len r <= 200)%Z.
Proof. unfold Stages.targetPoints. lia. Qed.

Lemma targetPoints_monotone len r1 r2 :
  r1 <= r2 -> (Stages.targetPoints len r2 <= Stages.targetPoints len r1)%Z.
Proof.
  intros Hle. unfold Stages.targetPoints, Math_floor.
  assert (Hfloor : (Qfloor (inject_Z (Z.of_nat len) * (1 - r2))
                    <= Qfloor (inject_Z (Z.of_nat len) * (1 - r1)))%Z).
  { apply Qfloor_resp_le.
    assert (Hlen : 0 <= inject_Z (Z.of_nat len)).
    { change 0 with (inject_Z 0). rewrite <- Zle_Qle. lia. }
    nra. }
  lia.
Qed.

Lemma flat_map_length_le {A B} (f : A -> list B) (l : list A) :
  (forall a, (length (f a) <= 1)%nat) ->
  (length (flat_map f l) <= length l)%nat.
Proof.
  intros Hf. induction l as [|a l IH]; cbn [flat_map length]; [lia|].
  rewrite length_app. specialize (Hf a). lia.
Qed.

Lemma flat_map_length_eq {A B} (f : A -> list B) (l : list A) :
  (forall a, In a l -> length (f a) = 1%nat) ->
  length (flat_map f l) = length l.
Proof.
  intros Hf. induction l as [|a l IH]; cbn [flat_map length]; [reflexivity|].
  rewrite length_app, IH, (Hf a); [reflexivity | now left |].
  intros b Hb. apply Hf. now right.
Qed.

(** Every resampling index lies strictly between the first and the last point. *)
Lemma resample_index_inside (len target : Z) (i : nat) :
  (50 <= target)%Z -> (target < len)%Z ->
  (1 <= i <= Z.to_nat target - 2)%nat ->
  let step := inject_Z len / inject_Z target in
  let index := Math_floor (inject_Z (Z.of_nat i) * step) in
  (0 < index < len - 1)%Z.
Proof.
  intros Ht Hlen Hi step index. subst index. unfold Math_floor.
  assert (HT : 50 <= inject_Z target).
  { change 50 with (inject_Z 50). rewrite <- Zle_Qle. exact Ht. }
  assert (HL : inject_Z target < inject_Z len) by (rewrite <- Zlt_Qlt; exact Hlen).
  assert (HI1 : 1 <= inject_Z (Z.of_nat i)).
  { change 1 with (inject_Z 1). rewrite <- Zle_Qle. lia. }
  assert (HI2 : inject_Z (Z.of_nat i) <= inject_Z target - 2).
  { change 2 with (inject_Z 2). unfold Qminus. rewrite <- inject_Z_opp, <- inject_Z_plus.
    rewrite <- Zle_Qle. lia. }
  assert (Hstep : step * inject_Z target == inject_Z len).
  { subst step. field. intros H0. rewrite H0 in HT. lra. }
  assert (Hstep1 : 1 < step).
  { subst step. apply Qlt_shift_div_l; lra. }
  set (x := inject_Z (Z.of_nat i) * step).
  assert (Hx1 : 1 <= x) by (subst x; nra).
  assert (Hx2 : x < inject_Z len - 1) by (subst x; nra).
  split.
  - apply Qfloor_resp_le in Hx1. change (Qfloor 1) with 1%Z in Hx1. lia.
  - pose proof (Qfloor_le x) as Hfl.
    rewrite Zlt_Qlt. unfold Z.sub. rewrite inject_Z_plus.
    assert (Hm : inject_Z (- (1)) == - (1)) by reflexivity.
    rewrite Hm. lra.
Qed.

Lemma adaptivePointReduction_length (c : contour) r :
  length (Stages.adaptivePointReduction c r)
  = if (length c <=? 3)%nat then length c
    else if (Z.of_nat (length c) <=? Stages.targetPoints (length c) r)%Z
         then length c
         else Z.to_nat (Stages.targetPoints (length c) r).
Proof.
  unfold Stages.adaptivePointReduction.
  destruct (length c <=? 3)%nat; [reflexivity|].
  pose proof (targetPoints_range (length c) r) as Hrange.
  destruct (Z.of_nat (length c) <=? Stages.targetPoints (length c) r)%Z eqn:Hbig;
    [reflexivity|].
  apply Z.leb_gt in Hbig.
  rewrite !length_app. cbn [length].
  rewrite flat_map_length_eq.
  - rewrite length_seq. lia.
  - intros i Hi. apply in_seq in Hi.
    pose proof (resample_index_inside (Z.of_nat (length c))
                  (Stages.targetPoints (length c) r) i) as Hidx.
    cbv zeta in Hidx.
    destruct Hidx as [Hlo Hhi]; [lia | lia | lia |].
    apply Z.ltb_lt in Hlo, Hhi. rewrite Hlo, Hhi. reflexivity.
Qed.

Lemma adaptivePointReduction_monotone (c : contour) r1 r2 :
  r1 <= r2 ->
  (length (Stages.adaptivePointReduction c r2)
   <= length (Stages.adaptivePointReduction c r1))%nat.
Proof.
  intros Hle. rewrite !adaptivePointReduction_length.
  pose proof (targetPoints_monotone (length c) r1 r2 Hle) as Hmono.
  pose proof (targetPoints_range (length c) r1) as Hr1.
  pose proof (targetPoints_range (length c) r2) as Hr2.
  destruct (length c <=? 3)%nat; [lia|].
  destruct (Z.of_nat (length c) <=? Stages.targetPoints (length c) r1)%Z eqn:H1;
    destruct (Z.of_nat (length c) <=? Stages.targetPoints (length c) r2)%Z eqn:H2;
    rewrite ?Z.leb_le, ?Z.leb_gt in H1, H2; lia.
Qed.

End ReductionFacts.

Section SimplifyExamples.

Import Num Examples.
Local Open Scope Q_scope.

(** C3 as stated fails at simplify = 1: the stage runs Douglas-Peucker with
    tolerance 0.09, not max(1 x 0.3, 0.05) = 0.3.  On [bump] the middle point
    lies at squared distance 0.16 from the chord: the stage keeps it, the
    claimed tolerance would drop it. *)
Lemma simplifiedPath_tolerance_at_one :
  Stages.scaledTolerance (1 * (3 # 10)) == 9 # 100
  /\ ~ Stages.scaledTolerance (1 * (3 # 10)) == Qmax (1 * (3 # 10)) (5 # 100)
  /\ (forall Math_sqrt,
        RevA.simplifiedPath Math_sqrt bump 1 = Ok bump
        /\ Stages.douglasPeucker Math_sqrt (length bump) bump
             (Qmax (1 * (3 # 10)) (5 # 100))
           = Ok [ (0, 0); (2, 0) ]).
Proof.
  split; [reflexivity|]. split; [discriminate|].
  intros Math_sqrt. split; vm_compute; reflexivity.
Qed.

End SimplifyExamples.

(** ** The refinement chain of revision C on a hairpin *)

Section RuntimeFacts.

Import Num.
Local Open Scope Q_scope.

Lemma sqrt_sample_nonneg x : 0 <= Runtime.sqrt_sample x.
Proof.
  unfold Runtime.sqrt_sample, Qle. cbn [Qnum Qden].
  rewrite Z.mul_0_l, Z.mul_1_r. apply Z.sqrt_nonneg.
Qed.

Lemma sqrt_sample_square_below x :
  0 <= x -> Runtime.sqrt_sample x * Runtime.sqrt_sample x <= x.
Proof.
  destruct x as [n d]. unfold Runtime.sqrt_sample, Qle, Qmult. cbn [Qnum Qden].
  intros Hn. rewrite Z.mul_1_r in Hn.
  set (N := (n * Z.pos d * 4 ^ 11)%Z).
  assert (HN : (0 <= N)%Z) by (subst N; nia).
  pose proof (Z.sqrt_spec N HN) as [Hlo Hhi].
  set (s := Z.sqrt N) in *.
  rewrite !Pos2Z.inj_mul. change (Z.pos (2 ^ 11)) with (2 ^ 11)%Z.
  assert (Hs : (0 <= s)%Z) by apply Z.sqrt_nonneg.
  set (D := Z.pos d) in *. assert (HD : (0 < D)%Z) by (subst D; lia).
  subst N. change (4 ^ 11)%Z with (2 ^ 11 * 2 ^ 11)%Z in Hlo.
  set (k := (2 ^ 11)%Z) in *. assert (0 < k)%Z by (subst k; lia).
  nia.
Qed.

Lemma sqrt_sample_square_above x :
  0 < x -> x <= (1001 # 1000) * (Runtime.sqrt_sample x * Runtime.sqrt_sample x).
Proof.
  destruct x as [n d]. unfold Runtime.sqrt_sample, Qle, Qlt, Qmult. cbn [Qnum Qden].
  intros Hn. rewrite Z.mul_1_r in Hn. cbn [Z.mul] in Hn.
  set (N := (n * Z.pos d * 4 ^ 11)%Z).
  assert (HN : (4 ^ 11 <= N)%Z) by (subst N; nia).
  pose proof (Z.sqrt_spec N ltac:(lia)) as [Hlo Hhi].
  set (s := Z.sqrt N) in *.
  rewrite !Pos2Z.inj_mul. change (Z.pos (2 ^ 11)) with (2 ^ 11)%Z.
  assert (Hs : (2048 <= s)%Z).
  { apply Z.sqrt_le_mono in HN. change (Z.sqrt (4 ^ 11)) with 2048%Z in HN. exact HN. }
  set (D := Z.pos d) in *. assert (HD : (0 < D)%Z) by (subst D; lia).
  assert (Hrel : (1000 * N <= 1001 * (s * s))%Z) by (unfold Z.succ in Hhi; nia).
  subst N. change (4 ^ 11)%Z with (2 ^ 11 * 2 ^ 11)%Z in *.
  set (k := (2 ^ 11)%Z) in *. assert (0 < k)%Z by (subst k; lia).
  change (Z.pos 1000) with 1000%Z.
  nia.
Qed.

Lemma Math_PI_positive : 0 < Math_PI.
Proof. reflexivity. Qed.

(** The assumptions on the runtime can be met. *)
Lemma facts_sample : Runtime.facts Runtime.sqrt_sample Runtime.atan2_sample.
Proof.
  pose proof Math_PI_positive as Hpi.
  constructor; unfold Runtime.slack.
  - intros x t Ht Hx.
    assert (Hpos : 0 < x) by nra.
    pose proof (sqrt_sample_square_above x Hpos) as Habove.
    pose proof (sqrt_sample_nonneg x) as Hs.
    apply Qnot_le_lt. intros Hle. nra.
  - intros x t Hx Ht Hlt.
    pose proof (sqrt_sample_square_below x Hx) as Hbelow.
    pose proof (sqrt_sample_nonneg x) as Hs.
    apply Qnot_le_lt. intros Hle. nra.
  - intros dy dx Hdx Hdy Hle. unfold Runtime.atan2_sample.
    apply Qltb_lt in Hdx as Hb. rewrite Hb.
    apply Qle_bool_iff in Hdy as Hb1. apply Qle_bool_iff in Hle as Hb2.
    rewrite Hb1, Hb2. cbn [andb].
    assert (Hq : 0 <= dy / dx).
    { apply Qle_shift_div_l; [exact Hdx | lra]. }
    lra.
  - intros dy dx Hdx Hdy. unfold Runtime.atan2_sample.
    assert (Hb : Qltb 0 dx = false) by (apply Qltb_ge; lra). rewrite Hb.
    apply Qltb_lt in Hdx as Hb'. rewrite Hb'.
    apply Qle_bool_iff in Hdy as Hb1. rewrite Hb1.
    assert (Hq : 0 <= dy / - dx).
    { apply Qle_shift_div_l; lra. }
    lra.
  - intros dy dx Hdx Hdy. unfold Runtime.atan2_sample.
    assert (Hb : Qltb 0 dx = false) by (apply Qltb_ge; lra). rewrite Hb.
    apply Qltb_lt in Hdx as Hb'. rewrite Hb'.
    assert (Hb1 : Qle_bool 0 dy = false).
    { destruct (Qle_bool 0 dy) eqn:E; [|reflexivity].
      apply Qle_bool_iff in E. lra. }
    rewrite Hb1.
    assert (Hq : 0 <= dy / dx).
    { setoid_replace (dy / dx) with ((- dy) / (- dx)).
      - apply Qle_shift_div_l; lra.
      - field. intros H0. rewrite H0 in Hdx. lra. }
    lra.
Qed.

End RuntimeFacts.


Section DistanceFacts.

Import Num Runtime.
Local Open Scope Q_scope.

Variable Math_sqrt : Q -> Q.
Variable Math_atan2 : Q -> Q -> Q.
Hypothesis runtime : Runtime.facts Math_sqrt Math_atan2.

Lemma Qsquare_nonneg x : 0 <= x * x.
Proof.
  unfold Qle, Qmult. cbn [Qnum Qden]. rewrite Z.mul_0_l, Z.mul_1_r.
  apply Z.square_nonneg.
Qed.

Lemma squaredDistance_nonneg p q : 0 <= squaredDistance p q.
Proof.
  unfold squaredDistance. cbv zeta.
  pose proof (Qsquare_nonneg (fst p - fst q)).
  pose proof (Qsquare_nonneg (snd p - snd q)). lra.
Qed.

Lemma distance_far tolerance p q :
  0 <= tolerance -> farApart tolerance p q = true ->
  Qltb tolerance (Stages.distance Math_sqrt p q) = true.
Proof.
  intros Htol Hfar. apply Qltb_lt in Hfar. apply Qltb_lt.
  apply (Runtime.sqrt_above _ _ runtime); assumption.
Qed.

Lemma distance_close tolerance p q :
  0 < tolerance -> closeBy tolerance p q = true ->
  Qltb (Stages.distance Math_sqrt p q) tolerance = true.
Proof.
  intros Htol Hclose. apply Qltb_lt in Hclose. apply Qltb_lt.
  apply (Runtime.sqrt_below _ _ runtime);
    [apply squaredDistance_nonneg | assumption | assumption].
Qed.

Lemma distance_far_not_close tolerance p q :
  0 <= tolerance -> farApart tolerance p q = true ->
  Qltb (Stages.distance Math_sqrt p q) tolerance = false.
Proof.
  intros Htol Hfar. apply Qltb_ge. apply Qlt_le_weak.
  apply Qltb_lt. apply distance_far; assumption.
Qed.

End DistanceFacts.

Section AngleFacts.

Import Num.
Local Open Scope Q_scope.

Lemma Math_PI_bounds : 3 < Math_PI < 4.
Proof. split; reflexivity. Qed.

Lemma angleChange_same tolerance a b :
  Qabs (a - b) <= tolerance ->
  Qltb tolerance (Stages.angleChange a b) = false.
Proof.
  intros Hab. apply Qltb_ge. unfold Stages.angleChange. cbv zeta.
  eapply Qle_trans; [apply Q.le_min_l | exact Hab].
Qed.

Lemma angleChange_full_turn tolerance a b :
  Math_PI * 2 - tolerance <= a - b <= Math_PI * 2 + tolerance ->
  Qltb tolerance (Stages.angleChange a b) = false.
Proof.
  intros [Hlo Hhi]. pose proof Math_PI_bounds as Hpi.
  apply Qltb_ge. unfold Stages.angleChange. cbv zeta.
  eapply Qle_trans; [apply Q.le_min_r|].
  apply Qabs_Qle_condition.
  assert (Hpos : 0 <= a - b \/ a - b <= 0) by (destruct (Qlt_le_dec (a - b) 0); [right | left]; lra).
  destruct Hpos as [Hpos | Hneg].
  - rewrite (Qabs_pos _ Hpos). lra.
  - rewrite (Qabs_neg _ Hneg). lra.
Qed.

Lemma angleChange_turn tolerance a b :
  0 <= tolerance ->
  tolerance < Qabs (a - b) -> Qabs (a - b) < Math_PI * 2 - tolerance ->
  Qltb tolerance (Stages.angleChange a b) = true.
Proof.
  intros Htol Hlo Hhi. apply Qltb_lt. unfold Stages.angleChange. cbv zeta.
  apply Q.min_glb_lt; [exact Hlo|].
  rewrite Qabs_neg by lra. lra.
Qed.

Lemma lowerAngle_small_id fuel a : a < Stages.twoPi -> Stages.lowerAngle fuel a = a.
Proof.
  intros Ha. destruct fuel; cbn [Stages.lowerAngle]; [reflexivity|].
  destruct (Qle_bool Stages.twoPi a) eqn:E; [|reflexivity].
  apply Qle_bool_iff in E. lra.
Qed.

Lemma normalizeAngle_id a : 0 <= a < Stages.twoPi -> Stages.normalizeAngle a = a.
Proof.
  intros [Hlo Hhi]. unfold Stages.normalizeAngle.
  rewrite raiseAngle_nonneg_id by exact Hlo.
  apply lowerAngle_small_id, Hhi.
Qed.

Lemma turns_positive a : a < 0 -> exists n, Stages.turns a = S n.
Proof.
  intros Ha. pose proof twoPi_positive as Hpos. unfold Stages.turns.
  pose proof (Qle_ceiling (Qabs a / Stages.twoPi)) as Hceil.
  assert (Hq : 0 < Qabs a / Stages.twoPi).
  { apply Qlt_shift_div_l; [exact Hpos|]. rewrite Qabs_neg by lra. lra. }
  assert (Hz : (0 < Qceiling (Qabs a / Stages.twoPi))%Z).
  { rewrite Zlt_Qlt. eapply Qlt_le_trans; [exact Hq | exact Hceil]. }
  exists (Nat.pred (Z.to_nat (Qceiling (Qabs a / Stages.twoPi)))). lia.
Qed.

Lemma normalizeAngle_raise a :
  - Stages.twoPi <= a < 0 -> Stages.normalizeAngle a = a + Stages.twoPi.
Proof.
  intros [Hlo Hhi]. unfold Stages.normalizeAngle.
  destruct (turns_positive a Hhi) as [n Hn]. rewrite Hn.
  cbn [Stages.raiseAngle]. apply Qltb_lt in Hhi as Hb. rewrite Hb.
  rewrite raiseAngle_nonneg_id by lra.
  apply lowerAngle_small_id. lra.
Qed.

End AngleFacts.

(** *** The evaluation from enclosures is sound *)

Section CertifyFacts.

Import Num Runtime.
Local Open Scope Q_scope.

Variable Math_sqrt : Q -> Q.
Variable Math_atan2 : Q -> Q -> Q.
Hypothesis runtime : Runtime.facts Math_sqrt Math_atan2.

Ltac head_test H :=
  match goal with
  | |- (if ?b then _ else _) = _ -> _ => destruct b eqn:H
  end.

Lemma Qle_bool_false a b : Qle_bool a b = false -> b < a.
Proof.
  intros H. apply Qnot_le_lt. intros Hle. apply Qle_bool_iff in Hle. congruence.
Qed.

Lemma atan2Bounds_sound dy dx A :
  Certify.atan2Bounds dy dx = Some A -> Certify.encloses A (Math_atan2 dy dx).
Proof.
  unfold Certify.atan2Bounds, Certify.encloses.
  destruct (Qltb 0 dx) eqn:Hpos.
  - destruct (Qle_bool 0 dy && Qle_bool dy dx) eqn:Hsector; [|discriminate].
    intros [= <-]. cbn [fst snd].
    apply andb_prop in Hsector as [Hdy Hle].
    apply Qltb_lt in Hpos. apply Qle_bool_iff in Hdy, Hle.
    apply (Runtime.atan2_east_up _ _ runtime); assumption.
  - destruct (Qltb dx 0) eqn:Hneg; [|discriminate].
    apply Qltb_lt in Hneg.
    destruct (Qle_bool 0 dy) eqn:Hdy; intros [= <-]; cbn [fst snd].
    + apply Qle_bool_iff in Hdy.
      apply (Runtime.atan2_west_up _ _ runtime); assumption.
    + apply Qle_bool_false in Hdy.
      apply (Runtime.atan2_west_down _ _ runtime); assumption.
Qed.

Lemma angleChange_full_turn_back tolerance a b :
  - (Math_PI * 2) - tolerance <= a - b <= - (Math_PI * 2) + tolerance ->
  Qltb tolerance (Stages.angleChange a b) = false.
Proof.
  intros [Hlo Hhi]. pose proof Math_PI_bounds as Hpi.
  apply Qltb_ge. unfold Stages.angleChange. cbv zeta.
  eapply Qle_trans; [apply Q.le_min_r|].
  apply Qabs_Qle_condition.
  destruct (Qlt_le_dec (a - b) 0) as [Hneg | Hpos].
  - rewrite (Qabs_neg (a - b)) by lra. lra.
  - rewrite (Qabs_pos _ Hpos). lra.
Qed.

Lemma angleTest_sound angleTolerance A B a b r :
  Certify.encloses A a -> Certify.encloses B b ->
  Certify.angleTest angleTolerance A B = Some r ->
  Qltb angleTolerance (Stages.angleChange a b) = r.
Proof.
  intros [Ha1 Ha2] [Hb1 Hb2]. unfold Certify.angleTest. cbv zeta.
  pose proof Math_PI_bounds as Hpi.
  head_test Hsame.
  { intros [= <-]. apply andb_prop in Hsame as [H1 H2].
    apply Qle_bool_iff in H1, H2.
    apply angleChange_same. apply Qabs_Qle_condition. lra. }
  head_test Hfull.
  { intros [= <-]. apply andb_prop in Hfull as [H1 H2].
    apply Qle_bool_iff in H1, H2.
    apply angleChange_full_turn. lra. }
  head_test Hback.
  { intros [= <-]. apply andb_prop in Hback as [H1 H2].
    apply Qle_bool_iff in H1, H2.
    apply angleChange_full_turn_back. lra. }
  head_test Hturn; [|discriminate].
  intros [= <-]. apply andb_prop in Hturn as [Htol Hside].
  apply Qle_bool_iff in Htol.
  apply orb_prop in Hside as [Hside | Hside];
    apply andb_prop in Hside as [H1 H2]; apply Qltb_lt in H1, H2.
  - apply angleChange_turn; [exact Htol | |]; rewrite Qabs_pos by lra; lra.
  - apply angleChange_turn; [exact Htol | |]; rewrite Qabs_neg by lra; lra.
Qed.

Lemma turnsAt_sound c angleTolerance startPoint j r :
  Certify.turnsAt c angleTolerance startPoint j = Some r ->
  Stages.turnsAt Math_atan2 c angleTolerance startPoint j = r.
Proof.
  unfold Certify.turnsAt, Stages.turnsAt. cbv zeta.
  destruct (Certify.atan2Bounds _ _) as [A|] eqn:HA; [|discriminate].
  destruct (Certify.atan2Bounds _ _) as [B|] eqn:HB in |- *; [|discriminate].
  apply angleTest_sound; apply atan2Bounds_sound; assumption.
Qed.

Lemma extendRun_sound c angleTolerance startPoint fuel :
  forall j lastGoodPoint r,
  Certify.extendRun c angleTolerance startPoint fuel j lastGoodPoint = Some r ->
  Stages.extendRun Math_atan2 c angleTolerance startPoint fuel j lastGoodPoint = r.
Proof.
  induction fuel as [|fuel IH]; intros j lastGoodPoint r;
    cbn [Certify.extendRun Stages.extendRun].
  - intros [= <-]. reflexivity.
  - destruct (j <? length c)%nat; [|intros [= <-]; reflexivity].
    destruct (Certify.turnsAt c angleTolerance startPoint j) as [[|]|] eqn:Hturn;
      [| |discriminate]; rewrite (turnsAt_sound _ _ _ _ _ Hturn).
    + intros [= <-]. reflexivity.
    + apply IH.
Qed.

Lemma mergeRuns_sound c angleTolerance fuel :
  forall i acc r,
  Certify.mergeRuns c angleTolerance fuel i acc = Some r ->
  Stages.mergeRuns Math_atan2 c angleTolerance fuel i acc = r.
Proof.
  induction fuel as [|fuel IH]; intros i acc r;
    cbn [Certify.mergeRuns Stages.mergeRuns].
  - intros [= <-]. reflexivity.
  - destruct (i <? length c)%nat; [|intros [= <-]; reflexivity].
    cbv zeta.
    destruct (Certify.extendRun c angleTolerance (at_ c i) (length c) (i + 1) i)
      as [lastGoodPoint|] eqn:Hrun; [|discriminate].
    rewrite (extendRun_sound _ _ _ _ _ _ _ Hrun). apply IH.
Qed.

Lemma mergeStraightLineSegments_sound c angleTolerance r :
  Certify.mergeStraightLineSegments c angleTolerance = Some r ->
  Stages.mergeStraightLineSegments Math_atan2 c angleTolerance = r.
Proof.
  unfold Certify.mergeStraightLineSegments, Stages.mergeStraightLineSegments.
  destruct (length c <=? 2)%nat; [intros [= <-]; reflexivity|].
  apply mergeRuns_sound.
Qed.

Lemma normalizeBounds_sound A N a :
  Certify.encloses A a -> Certify.normalizeBounds A = Some N ->
  Certify.encloses N (Stages.normalizeAngle a).
Proof.
  intros [Hlo Hhi]. unfold Certify.normalizeBounds, Certify.encloses.
  head_test Hin.
  { intros [= <-]. apply andb_prop in Hin as [H1 H2].
    apply Qle_bool_iff in H1. apply Qltb_lt in H2.
    rewrite normalizeAngle_id by lra. split; assumption. }
  head_test Hbelow; [|discriminate].
  intros [= <-]. apply andb_prop in Hbelow as [H1 H2].
  apply Qle_bool_iff in H1. apply Qltb_lt in H2.
  rewrite normalizeAngle_raise by lra. cbn [fst snd]. lra.
Qed.

Lemma nearTest_sound tolerance centre N n e r :
  Certify.encloses N n -> e == n - centre ->
  Certify.nearTest tolerance centre N = Some r ->
  Qltb (Qabs e) tolerance = r.
Proof.
  intros [Hlo Hhi] He. unfold Certify.nearTest.
  head_test Hnear.
  { intros [= <-]. apply andb_prop in Hnear as [H1 H2]. apply Qltb_lt in H1, H2.
    apply Qltb_lt. rewrite He. apply Qabs_Qlt_condition. lra. }
  head_test Hfar; [|discriminate].
  intros [= <-]. apply Qltb_ge. rewrite He.
  apply orb_prop in Hfar as [H | H]; apply Qle_bool_iff in H.
  - apply Qabs_case; intros; lra.
  - apply Qabs_case; intros; lra.
Qed.

Lemma orTest_sound ta tb a b r :
  (forall x, ta = Some x -> a = x) -> (forall y, tb = Some y -> b = y) ->
  Certify.orTest ta tb = Some r -> a || b = r.
Proof.
  intros Ha Hb. unfold Certify.orTest.
  destruct ta as [[|]|], tb as [[|]|]; try discriminate; intros [= <-];
    try rewrite (Ha _ eq_refl); try rewrite (Hb _ eq_refl);
    try reflexivity; apply orb_true_r.
Qed.

Lemma snapSegment_sound tolerance current next r :
  Certify.snapSegment tolerance current next = Some r ->
  Stages.snapSegment Math_atan2 tolerance current next = r.
Proof.
  unfold Certify.snapSegment, Stages.snapSegment. cbv zeta.
  destruct (Certify.atan2Bounds _ _) as [A|] eqn:HA; [|discriminate].
  apply atan2Bounds_sound in HA.
  destruct (Certify.normalizeBounds A) as [N|] eqn:HN; [|discriminate].
  pose proof (normalizeBounds_sound _ _ _ HA HN) as Hn.
  set (n := Stages.normalizeAngle _) in *.
  destruct (Certify.orTest (Certify.orTest _ _) _) as [[|]|] eqn:Hh; [| |discriminate].
  - apply orTest_sound with (a := Qltb (Qabs n) tolerance
                                  || Qltb (Qabs (n - Math_PI)) tolerance)
                            (b := Qltb (Qabs (n - 2 * Math_PI)) tolerance) in Hh.
    + rewrite Hh. intros [= <-]. reflexivity.
    + intros x. apply orTest_sound.
      * intros y. apply (nearTest_sound _ _ _ n); [exact Hn | lra].
      * intros y. apply (nearTest_sound _ _ _ n); [exact Hn | reflexivity].
    + intros y. apply (nearTest_sound _ _ _ n); [exact Hn | reflexivity].
  - apply orTest_sound with (a := Qltb (Qabs n) tolerance
                                  || Qltb (Qabs (n - Math_PI)) tolerance)
                            (b := Qltb (Qabs (n - 2 * Math_PI)) tolerance) in Hh.
    + rewrite Hh.
      destruct (Certify.orTest _ _) as [[|]|] eqn:Hv in |- *; [| |discriminate].
      * apply orTest_sound with (a := Qltb (Qabs (n - Math_PI / 2)) tolerance)
                                (b := Qltb (Qabs (n - 3 * Math_PI / 2)) tolerance) in Hv.
        -- rewrite Hv. intros [= <-]. reflexivity.
        -- intros y. apply (nearTest_sound _ _ _ n); [exact Hn | reflexivity].
        -- intros y. apply (nearTest_sound _ _ _ n); [exact Hn | reflexivity].
      * apply orTest_sound with (a := Qltb (Qabs (n - Math_PI / 2)) tolerance)
                                (b := Qltb (Qabs (n - 3 * Math_PI / 2)) tolerance) in Hv.
        -- rewrite Hv. intros [= <-]. reflexivity.
        -- intros y. apply (nearTest_sound _ _ _ n); [exact Hn | reflexivity].
        -- intros y. apply (nearTest_sound _ _ _ n); [exact Hn | reflexivity].
    + intros x. apply orTest_sound.
      * intros y. apply (nearTest_sound _ _ _ n); [exact Hn | lra].
      * intros y. apply (nearTest_sound _ _ _ n); [exact Hn | reflexivity].
    + intros y. apply (nearTest_sound _ _ _ n); [exact Hn | reflexivity].
Qed.

Lemma snapAll_sound tolerance c indices :
  forall r,
  Certify.snapAll tolerance c indices = Some r ->
  map (fun i => Stages.snapSegment Math_atan2 tolerance (at_ c i)
                  (at_ c ((i + 1) mod length c))) indices = r.
Proof.
  induction indices as [|i rest IH]; intros r; cbn [Certify.snapAll map].
  - intros [= <-]. reflexivity.
  - destruct (Certify.snapSegment _ _ _) as [p|] eqn:Hp; [|discriminate].
    destruct (Certify.snapAll tolerance c rest) as [ps|]; [|discriminate].
    intros [= <-]. rewrite (snapSegment_sound _ _ _ _ Hp), (IH _ eq_refl). reflexivity.
Qed.

Lemma straightenWith_sound tolerance c r :
  Certify.straightenWith tolerance c = Some r ->
  Stages.straightenWith Math_atan2 tolerance c = r.
Proof.
  unfold Certify.straightenWith, Stages.straightenWith.
  destruct (length c <? 2)%nat; [intros [= <-]; reflexivity|].
  destruct (Certify.snapAll _ _ _) as [ps|] eqn:Hps; [|discriminate].
  intros [= <-]. rewrite (snapAll_sound _ _ _ _ Hps). reflexivity.
Qed.

Lemma distance_close_not_far tolerance p q :
  0 < tolerance -> closeBy tolerance p q = true ->
  Qltb tolerance (Stages.distance Math_sqrt p q) = false.
Proof.
  intros Htol Hclose. apply Qltb_ge. apply Qlt_le_weak.
  apply Qltb_lt. apply (distance_close _ _ runtime); assumption.
Qed.

Lemma keepDistinct_sound tolerance :
  0 < tolerance ->
  forall rest cleaned r,
  Certify.keepDistinct tolerance cleaned rest = Some r ->
  Stages.keepDistinct Math_sqrt tolerance cleaned rest = r.
Proof.
  intros Htol. induction rest as [|current rest IH]; intros cleaned r;
    cbn [Certify.keepDistinct Stages.keepDistinct].
  - intros [= <-]. reflexivity.
  - destruct (farApart tolerance current (lastOf cleaned)) eqn:Hfar.
    + rewrite (distance_far _ _ runtime) by (try apply Qlt_le_weak; assumption).
      apply IH.
    + destruct (closeBy tolerance current (lastOf cleaned)) eqn:Hclose; [|discriminate].
      rewrite distance_close_not_far by assumption. apply IH.
Qed.

Lemma removeDuplicatePoints_sound c tolerance r :
  Certify.removeDuplicatePoints c tolerance = Some r ->
  Stages.removeDuplicatePoints Math_sqrt c tolerance = r.
Proof.
  unfold Certify.removeDuplicatePoints, Stages.removeDuplicatePoints.
  destruct (Qltb 0 tolerance) eqn:Htol; [|discriminate]. apply Qltb_lt in Htol.
  destruct c as [|first [|second rest]]; try (intros [= <-]; reflexivity).
  destruct (Certify.keepDistinct _ _ _) as [cleaned|] eqn:Hclean; [|discriminate].
  rewrite (keepDistinct_sound _ Htol _ _ _ Hclean). cbv zeta.
  destruct (2 <? length cleaned)%nat; [|intros [= <-]; reflexivity].
  destruct (closeBy tolerance (lastOf cleaned) (at_ cleaned 0)) eqn:Hclose.
  - rewrite (distance_close _ _ runtime) by assumption. intros [= <-]. reflexivity.
  - destruct (farApart tolerance (lastOf cleaned) (at_ cleaned 0)) eqn:Hfar;
      [|discriminate].
    rewrite (distance_far_not_close _ _ runtime)
      by (try apply Qlt_le_weak; assumption).
    intros [= <-]. reflexivity.
Qed.

(** Whatever the evaluation from enclosures returns is what the refinement
    chain returns on every runtime that meets [Runtime.facts]. *)
Lemma finalPath_sound boundary simplify r :
  Certify.finalPath boundary simplify = Some r ->
  RevC.finalPath Math_sqrt Math_atan2 boundary simplify = r.
Proof.
  unfold Certify.finalPath, RevC.finalPath, RevC.straightenNearOrthogonalLines.
  cbv zeta.
  destruct (Certify.removeDuplicatePoints boundary _) as [cleanedPath|] eqn:H1;
    [|discriminate].
  rewrite (removeDuplicatePoints_sound _ _ _ H1).
  destruct (Certify.mergeStraightLineSegments _ _) as [merged|] eqn:H2; [|discriminate].
  rewrite (mergeStraightLineSegments_sound _ _ _ H2).
  destruct (Certify.straightenWith _ _) as [straightened|] eqn:H3; [|discriminate].
  rewrite (straightenWith_sound _ _ _ H3).
  apply removeDuplicatePoints_sound.
Qed.

Lemma finalPath_hairpin :
  RevC.finalPath Math_sqrt Math_atan2 Examples.hairpin (1 # 10) = [ (0, 0); (8, 0) ]
  /\ RevC.finalPath Math_sqrt Math_atan2 Examples.hairpin (1 # 2)
     = [ (0, 0); (7, 0); (71 # 10, 0) ].
Proof.
  split; apply finalPath_sound; vm_compute; reflexivity.
Qed.

End CertifyFacts.

(** C6 as stated fails on revision C, also for settings within (0, 1].  On
    [hairpin] the refinement chain returns 2 points at simplify = 1/10 and
    3 points at simplify = 1/2.  At 1/10 adaptive reduction keeps 51 of the 57
    points, among them the far end (8, 0): the eastward run merges up to it,
    and the way back merges with the closing segment.  At 1/2 it keeps 50
    points and drops the far end: the eastward run then stops at (7, 0), the
    short rise to (7.1, 0.004) is a run of its own, and so is the way back.
    No runtime that meets the assumptions of [Runtime.facts] makes the point
    count of the refined polygon monotone. *)
Lemma finalPath_not_monotone :
  ~ exists Math_sqrt Math_atan2,
      Runtime.facts Math_sqrt Math_atan2 /\
      forall boundary simplify1 simplify2,
        0 < simplify1 -> simplify1 <= simplify2 -> simplify2 <= 1 ->
        (length (RevC.finalPath Math_sqrt Math_atan2 boundary simplify2)
         <= length (RevC.finalPath Math_sqrt Math_atan2 boundary simplify1))%nat.
Proof.
  intros (Math_sqrt & Math_atan2 & runtime & Hmono).
  specialize (Hmono Examples.hairpin (1 # 10) (1 # 2)).
  destruct (finalPath_hairpin Math_sqrt Math_atan2 runtime) as [H0 H1].
  rewrite H0, H1 in Hmono. cbn [length] in Hmono.
  assert (3 <= 2)%nat by (apply Hmono; [reflexivity | discriminate | discriminate]).
  lia.
Qed.

(** ** Monotonicity of the stages that read [simplify] *)

Section MonotoneFacts.

Import Num.
Local Open Scope Q_scope.

Variable Math_sqrt : Q -> Q.

(** C6 (as amended). For a fixed input polygon and 0 <= simplify1 <= simplify2,
    the stage that reads the setting returns at simplify2 no more points than
    at simplify1: the Douglas-Peucker stage of revision A
    ([simplify ? simplifyContour(p, simplify * 0.3) : p]) and
    [adaptivePointReduction] of revision C. *)
Theorem simplify_stages_monotone (path : contour) (simplify1 simplify2 : Q) :
  0 <= simplify1 -> simplify1 <= simplify2 ->
  (exists out1 out2,
     RevA.simplifiedPath Math_sqrt path simplify1 = Ok out1 /\
     RevA.simplifiedPath Math_sqrt path simplify2 = Ok out2 /\
     (length out2 <= length out1)%nat)
  /\ (length (Stages.adaptivePointReduction path simplify2)
      <= length (Stages.adaptivePointReduction path simplify1))%nat.
Proof.
  intros H0 Hle. split; [|apply adaptivePointReduction_monotone; exact Hle].
  unfold RevA.simplifiedPath, truthy.
  destruct (Qeq_bool simplify1 0) eqn:E1; cbn [negb].
  - destruct (Qeq_bool simplify2 0); cbn [negb].
    + exists path, path. auto.
    + destruct (simplifyContour_returns Math_sqrt path (simplify2 * (3 # 10)))
        as (out2 & Hout2 & Hlen).
      exists path, out2. auto.
  - assert (Hpos : 0 < simplify1).
    { apply Qle_lteq in H0. destruct H0 as [H | H]; [exact H|].
      symmetry in H. apply Qeq_bool_iff in H. congruence. }
    assert (E2 : Qeq_bool simplify2 0 = false).
    { destruct (Qeq_bool simplify2 0) eqn:E; [|reflexivity].
      apply Qeq_bool_iff in E. lra. }
    rewrite E2. cbn [negb]. unfold Stages.simplifyContour.
    destruct (length path <=? 2)%nat eqn:Hshort.
    + exists path, path. auto.
    + apply Nat.leb_gt in Hshort.
      set (t1 := Stages.scaledTolerance (simplify1 * (3 # 10))).
      set (t2 := Stages.scaledTolerance (simplify2 * (3 # 10))).
      assert (Ht1 : 0 <= t1).
      { pose proof (scaledTolerance_bounds (simplify1 * (3 # 10))). subst t1. lra. }
      assert (Ht12 : t1 <= t2) by (apply scaledTolerance_monotone; lra).
      destruct (douglasPeucker_returns Math_sqrt t1 Ht1 (length path) path)
        as [out1 Hout1]; [lia | lia |].
      destruct (douglasPeucker_returns Math_sqrt t2 (Qle_trans _ _ _ Ht1 Ht12)
                  (length path) path) as [out2 Hout2]; [lia | lia |].
      exists out1, out2. repeat split; [exact Hout1 | exact Hout2 |].
      exact (douglasPeucker_monotone Math_sqrt t1 t2 Ht1 Ht12 _ _ _ _ Hout1 Hout2).
Qed.

End MonotoneFacts.

Section StageExamples.

Import Num Examples.
Local Open Scope Q_scope.

Lemma simplify_stages_monotone_bump :
  (exists out1 out2,
     RevA.simplifiedPath Runtime.sqrt_sample bump 0 = Ok out1 /\
     RevA.simplifiedPath Runtime.sqrt_sample bump 1 = Ok out2 /\
     (length out2 <= length out1)%nat)
  /\ (length (Stages.adaptivePointReduction bump 1)
      <= length (Stages.adaptivePointReduction bump 0))%nat.
Proof.
  apply (simplify_stages_monotone Runtime.sqrt_sample bump 0 1).
  - discriminate.
  - discriminate.
Defined.

Lemma straighten_adds_one_point_triangle :
  let n := length triangle in
  let outA := RevA.straightenNearOrthogonalLines Runtime.atan2_sample triangle in
  let outC := RevC.straightenNearOrthogonalLines Runtime.atan2_sample triangle in
  length outA = S n /\ length outC = S n /\
  nth 0 outA (0, 0) = at_ triangle 0 /\ nth 0 outC (0, 0) = at_ triangle 0 /\
  (forall i, (i < n)%nat ->
     nth (S i) outA (0, 0)
     = Stages.snapSegment Runtime.atan2_sample (3 # 100) (at_ triangle i)
         (at_ triangle ((i + 1) mod n)) /\
     nth (S i) outC (0, 0)
     = Stages.snapSegment Runtime.atan2_sample (5 # 100) (at_ triangle i)
         (at_ triangle ((i + 1) mod n))) /\
  length (RevA.straightenNearOrthogonalLines Runtime.atan2_sample outA) = S (S n) /\
  length (RevC.straightenNearOrthogonalLines Runtime.atan2_sample outC) = S (S n).
Proof.
  apply (straighten_adds_one_point Runtime.atan2_sample triangle).
  cbn [length triangle]. lia.
Defined.

End StageExamples.

(** * Properties of the rest of the pipeline *)

(** ** From the image buffer to the traced contour *)

Section RasterFacts.

Import Tracer Raster.
Local Open Scope Z_scope.

Variable imageData : list Z.
Variables width height threshold : Z.

Lemma toPixels_wellFormed :
  0 <= width -> 0 <= height ->
  wellFormed (toPixels imageData width height threshold) width height.
Proof.
  intros Hw Hh. unfold wellFormed, toPixels. repeat split; try assumption.
  - rewrite length_map, length_seq. reflexivity.
  - apply Forall_forall. intros row Hrow. apply in_map_iff in Hrow as (y & <- & _).
    rewrite length_map, length_seq. reflexivity.
Qed.

Lemma toPixels_read x y :
  inImage width height x y = true ->
  readPixel (toPixels imageData width height threshold) x y
  = Ok (binarize imageData threshold (y * width + x)).
Proof.
  unfold inImage. rewrite !andb_true_iff, !Z.leb_le, !Z.ltb_lt.
  intros [[[Hx0 Hx1] Hy0] Hy1]. unfold readPixel, toPixels.
  replace (x <? 0) with false by (symmetry; apply Z.ltb_ge; lia).
  replace (y <? 0) with false by (symmetry; apply Z.ltb_ge; lia).
  cbn [orb].
  rewrite nth_error_map, nth_error_seq.
  replace (Z.to_nat y <? Z.to_nat height)%nat with true
    by (symmetry; apply Nat.ltb_lt; lia).
  cbn [option_map]. rewrite nth_error_map, nth_error_seq.
  replace (Z.to_nat x <? Z.to_nat width)%nat with true
    by (symmetry; apply Nat.ltb_lt; lia).
  cbn [option_map Nat.add]. rewrite !Z2Nat.id by lia. reflexivity.
Qed.

Lemma binarize_binary idx :
  binarize imageData threshold idx = 0 \/ binarize imageData threshold idx = 1.
Proof.
  unfold binarize. destruct (nth_error _ _) as [gray|]; [|now left].
  destruct (gray <? threshold); [now right | now left].
Qed.

Lemma toPixels_binary : binary (toPixels imageData width height threshold).
Proof.
  unfold binary, toPixels. apply Forall_forall. intros row Hrow.
  apply in_map_iff in Hrow as (y & <- & _).
  apply Forall_forall. intros v Hv. apply in_map_iff in Hv as (x & <- & _).
  apply binarize_binary.
Qed.

End RasterFacts.

Section TraceFacts.

Import Tracer Raster.
Local Open Scope Z_scope.

Variable pixels : pixelGrid.
Variables width height : Z.
Hypothesis grid : wellFormed pixels width height.

Lemma pixel_eqb_eq p q : pixel_eqb p q = true <-> p = q.
Proof.
  destruct p as [a b], q as [c d]. unfold pixel_eqb. cbn [fst snd].
  rewrite andb_true_iff, !Z.eqb_eq. split; [intros [-> ->]; reflexivity|].
  intros [= -> ->]. auto.
Qed.

Lemma has_In v x y : has v x y = true <-> In (x, y) v.
Proof.
  unfold has. rewrite existsb_exists. split.
  - intros (p & Hin & Heq). apply pixel_eqb_eq in Heq. subst p. exact Hin.
  - intros Hin. exists (x, y). split; [exact Hin | now apply pixel_eqb_eq].
Qed.

Lemma directionAt_step k :
  0 <= k < 8 ->
  Z.abs (fst (directionAt k)) <= 1 /\ Z.abs (snd (directionAt k)) <= 1
  /\ directionAt k <> (0, 0).
Proof.
  intros Hk.
  assert (Hcases : k = 0 \/ k = 1 \/ k = 2 \/ k = 3 \/ k = 4 \/ k = 5 \/ k = 6 \/ k = 7)
    by lia.
  repeat (destruct Hcases as [-> | Hcases]; [cbn; repeat split; try lia; discriminate|]).
  subst k. cbn. repeat split; try lia; discriminate.
Qed.

Lemma neighbourAt_adjacent s i :
  adjacent8 (currentX s, currentY s) (neighbourAt s i) = true.
Proof.
  unfold neighbourAt. cbv zeta.
  destruct (directionAt_step ((direction s + i) mod 8)) as (Hx & Hy & Hne).
  { apply Z.mod_pos_bound. lia. }
  destruct (directionAt ((direction s + i) mod 8)) as [dx dy]. cbn [fst snd] in *.
  unfold adjacent8. cbn [fst snd].
  rewrite !andb_true_iff, !Z.leb_le, negb_true_iff. repeat split; try lia.
  destruct (pixel_eqb _ _) eqn:Heq; [|reflexivity].
  apply pixel_eqb_eq in Heq. injection Heq as Hx' Hy'.
  elim Hne. f_equal; lia.
Qed.

Lemma linked_snoc path q :
  path <> [] -> linked path = true -> adjacent8 (last path (0, 0)) q = true ->
  linked (path ++ [q]) = true.
Proof.
  induction path as [|p [|p' rest] IH]; intros Hne Hl Ha; [congruence | |].
  - cbn [app linked last] in *. rewrite Ha. reflexivity.
  - change (linked ((p :: p' :: rest) ++ [q]))
      with (adjacent8 p p' && linked ((p' :: rest) ++ [q])).
    change (linked (p :: p' :: rest)) with (adjacent8 p p' && linked (p' :: rest)) in Hl.
    apply andb_prop in Hl as [H1 H2]. rewrite H1. cbn [andb].
    apply IH; [discriminate | exact H2 | exact Ha].
Qed.

Lemma cells_length : length (cells width height) = (Z.to_nat width * Z.to_nat height)%nat.
Proof. unfold cells. rewrite length_map, length_prod, !length_seq. reflexivity. Qed.

Lemma cells_In x y : inImage width height x y = true -> In (x, y) (cells width height).
Proof.
  unfold inImage. rewrite !andb_true_iff, !Z.leb_le, !Z.ltb_lt.
  intros [[[Hx0 Hx1] Hy0] Hy1]. unfold cells. apply in_map_iff.
  exists (Z.to_nat x, Z.to_nat y). cbn [fst snd]. split.
  - rewrite !Z2Nat.id by lia. reflexivity.
  - apply in_prod; apply in_seq; lia.
Qed.

(** No more distinct pixels than the image has cells. *)
Lemma distinct_pixels_bound (v : list pixel) :
  NoDup v ->
  Forall (fun p => inImage width height (fst p) (snd p) = true
                   /\ readPixel pixels (fst p) (snd p) = Ok 1) v ->
  Z.of_nat (length v) <= width * height.
Proof.
  intros Hnd Hin. destruct grid as (Hw & Hh & _).
  assert (Hincl : incl v (cells width height)).
  { intros [x y] Hp. rewrite Forall_forall in Hin.
    apply cells_In. apply (Hin (x, y) Hp). }
  pose proof (NoDup_incl_length Hnd Hincl) as Hlen. rewrite cells_length in Hlen.
  unfold pixel in *. nia.
Qed.

Section Pass.

Variable boundaryTest : Z -> Z -> result bool.
Variable test : Z -> Z -> bool.
Hypothesis boundaryTest_reads :
  forall x y, inImage width height x y = true -> boundaryTest x y = Ok (test x y).
Variables startX startY : Z.

Let inv := traced pixels width height test startX startY.

Lemma traced_initial :
  inImage width height startX startY = true ->
  readPixel pixels startX startY = Ok 1 ->
  inv (initialState startX startY).
Proof.
  intros Hin Hfg. subst inv. unfold traced, initialState, add.
  cbn [boundary visited currentX currentY iterations app map hd last tl linked length].
  repeat split; try reflexivity; try discriminate.
  - constructor; [intros [] | constructor].
  - constructor; [|constructor]. cbn [fst snd]. auto.
  - constructor.
Qed.

Lemma candidate_facts v x y :
  candidate pixels width height test v x y = true ->
  inImage width height x y = true /\ readPixel pixels x y = Ok 1
  /\ ~ In (x, y) v /\ test x y = true.
Proof.
  unfold candidate. rewrite !andb_true_iff, negb_true_iff.
  intros [[[Hin Hfg] Hvis] Ht]. repeat split; try assumption.
  - unfold foreground in Hfg. destruct (readPixel pixels x y) as [v0|]; [|discriminate].
    apply Z.eqb_eq in Hfg. subst v0. reflexivity.
  - intros Hc. apply has_In in Hc. congruence.
Qed.

Lemma traced_record s i :
  inv s -> firstCandidate pixels width height test s = Some i -> inv (record s i).
Proof.
  subst inv. intros (Hb & Hhd & [Hne Hlast] & Hnd & Hcells & Htest & Hlink & Hcount) Hpick.
  unfold firstCandidate in Hpick. apply find_some in Hpick as [_ Hc].
  apply candidate_facts in Hc as (Hin & Hfg & Hnew & Ht).
  pose proof (neighbourAt_adjacent s i) as Hadj.
  destruct (neighbourAt s i) as [nx ny] eqn:Hn. cbn [fst snd] in *.
  unfold traced, record, add. rewrite Hn.
  cbn [boundary visited currentX currentY iterations fst snd].
  repeat split.
  - rewrite map_app, <- Hb. reflexivity.
  - destruct (visited s); [congruence | exact Hhd].
  - destruct (visited s); discriminate.
  - apply last_last.
  - apply NoDup_app; [exact Hnd | constructor; [intros [] | constructor] |].
    intros p Hp [<- | []]. exact (Hnew Hp).
  - apply Forall_app. split; [exact Hcells|]. constructor; [|constructor].
    cbn [fst snd]. auto.
  - destruct (visited s) as [|p0 rest]; [congruence|]. cbn [tl app] in *.
    apply Forall_app. split; [exact Htest|]. constructor; [exact Ht | constructor].
  - apply linked_snoc; [exact Hne | exact Hlink |]. rewrite Hlast. exact Hadj.
  - rewrite length_app. cbn [length]. lia.
Qed.

(** The loop keeps [traced], and never leaves through the closing test. *)
Lemma traceLoop_traced maxIterations fuel :
  forall s reason s',
  inv s ->
  traceLoop pixels width height boundaryTest startX startY maxIterations fuel s
  = Ok (reason, s') ->
  inv s' /\ reason <> ClosedLoop.
Proof.
  induction fuel as [|fuel IH]; intros s reason s' Hinv Hrun; [discriminate|].
  cbn [traceLoop] in Hrun.
  destruct (iterations s <? maxIterations); [|injection Hrun as <- <-; split; [exact Hinv | discriminate]].
  assert (Hvis : has (visited s) startX startY = true).
  { apply has_In. destruct Hinv as (_ & Hhd & [Hne _] & _).
    destruct (visited s) as [|p rest]; [congruence|]. cbn [hd] in Hhd. subst p. now left. }
  rewrite (traceStep_start_visited pixels width height grid boundaryTest test
             boundaryTest_reads startX startY s Hvis) in Hrun.
  cbn [bind] in Hrun.
  destruct (firstCandidate pixels width height test s) as [i|] eqn:Hpick.
  - apply (IH _ _ _ (traced_record s i Hinv Hpick) Hrun).
  - injection Hrun as <- <-. split; [exact Hinv | discriminate].
Qed.

End Pass.

(** *** The initial scan finds the first foreground pixel in row-major order *)

Lemma scanRow_first y :
  forall n x r, scanRow pixels y x n = Ok r ->
  match r with
  | Some p =>
      snd p = y /\ x <= fst p < x + Z.of_nat n /\ readPixel pixels (fst p) y = Ok 1
      /\ forall x', x <= x' < fst p -> readPixel pixels x' y <> Ok 1
  | None => forall x', x <= x' < x + Z.of_nat n -> readPixel pixels x' y <> Ok 1
  end.
Proof.
  induction n as [|n IH]; intros x r Hr; cbn [scanRow] in Hr.
  - injection Hr as <-. intros x' Hx'. lia.
  - destruct (readPixel pixels x y) as [v|] eqn:Hv; [|discriminate]. cbn [bind] in Hr.
    destruct (v =? 1) eqn:Hv1.
    + injection Hr as <-. apply Z.eqb_eq in Hv1. subst v. cbn [fst snd].
      repeat split; [lia | lia | exact Hv | intros x' Hx'; lia].
    + apply Z.eqb_neq in Hv1. specialize (IH _ _ Hr).
      destruct r as [p|].
      * destruct IH as (Hy & Hx & Hfg & Hfirst). repeat split; [exact Hy | lia | lia | exact Hfg |].
        intros x' Hx'. destruct (Z.eq_dec x' x) as [-> | Hne].
        -- rewrite Hv. congruence.
        -- apply Hfirst. lia.
      * intros x' Hx'. destruct (Z.eq_dec x' x) as [-> | Hne].
        -- rewrite Hv. congruence.
        -- apply IH. lia.
Qed.

Lemma scanRows_first :
  forall n y r, 0 <= y -> scanRows pixels width y n = Ok r ->
  match r with
  | Some p =>
      inImage width (y + Z.of_nat n) (fst p) (snd p) = true /\ y <= snd p
      /\ readPixel pixels (fst p) (snd p) = Ok 1
      /\ forall x' y', 0 <= x' < width -> y <= y' ->
                       before x' y' (fst p) (snd p) -> readPixel pixels x' y' <> Ok 1
  | None =>
      forall x' y', 0 <= x' < width -> y <= y' < y + Z.of_nat n ->
                    readPixel pixels x' y' <> Ok 1
  end.
Proof.
  destruct grid as (Hw & _).
  induction n as [|n IH]; intros y r Hy Hr; cbn [scanRows] in Hr.
  - injection Hr as <-. intros x' y' _ Hy'. lia.
  - destruct (scanRow pixels y 0 (Z.to_nat width)) as [row|] eqn:Hrow; [|discriminate].
    cbn [bind] in Hr. pose proof (scanRow_first _ _ _ _ Hrow) as Hfirst.
    destruct row as [p|].
    + injection Hr as <-. destruct Hfirst as (Hpy & Hpx & Hfg & Hleft).
      rewrite <- Hpy in Hfg. repeat split.
      * unfold inImage. rewrite !andb_true_iff, !Z.leb_le, !Z.ltb_lt. lia.
      * lia.
      * exact Hfg.
      * intros x' y' Hx' Hy' [Hb | [Hb1 Hb2]]; [lia|].
        rewrite Hb1, Hpy. apply Hleft. lia.
    + specialize (IH (y + 1) r ltac:(lia) Hr). destruct r as [p|].
      * destruct IH as (Hin & Hpy & Hfg & Hprev). repeat split.
        -- unfold inImage in *. rewrite !andb_true_iff, !Z.leb_le, !Z.ltb_lt in *. lia.
        -- lia.
        -- exact Hfg.
        -- intros x' y' Hx' Hy' Hb. destruct (Z.eq_dec y' y) as [-> | Hne].
           ++ apply Hfirst. lia.
           ++ apply Hprev; [lia | lia | exact Hb].
      * intros x' y' Hx' Hy'. destruct (Z.eq_dec y' y) as [-> | Hne].
        -- apply Hfirst. lia.
        -- apply IH; lia.
Qed.

Lemma findStart_first r :
  findStart pixels width height = Ok r ->
  match r with
  | Some p =>
      inImage width height (fst p) (snd p) = true
      /\ readPixel pixels (fst p) (snd p) = Ok 1
      /\ forall x y, inImage width height x y = true ->
                     before x y (fst p) (snd p) -> readPixel pixels x y <> Ok 1
  | None => noForeground pixels width height
  end.
Proof.
  destruct grid as (Hw & Hh & _). unfold findStart. intros Hr.
  pose proof (scanRows_first _ _ _ (Z.le_refl 0) Hr) as Hfirst.
  rewrite Z.add_0_l, Z2Nat.id in Hfirst by exact Hh.
  destruct r as [p|].
  - destruct Hfirst as (Hin & _ & Hfg & Hprev). repeat split; [exact Hin | exact Hfg |].
    intros x y Hxy. unfold inImage in Hxy.
    rewrite !andb_true_iff, !Z.leb_le, !Z.ltb_lt in Hxy. apply Hprev; lia.
  - intros x y Hxy. unfold inImage in Hxy.
    rewrite !andb_true_iff, !Z.leb_le, !Z.ltb_lt in Hxy. apply Hfirst; lia.
Qed.

(** *** The trace of [findSingleOuterBoundary] *)

(** From a foreground start the loop leaves because no neighbour qualifies,
    after fewer passes than the image has cells. *)
Lemma trace_from_start startX startY :
  inImage width height startX startY = true ->
  readPixel pixels startX startY = Ok 1 ->
  exists (n : nat) s',
    Z.of_nat n < width * height
    /\ (forall fuel, (n < fuel)%nat ->
          traceLoop pixels width height (hasWhiteNeighbor pixels width height)
            startX startY (width * height * 2) fuel (initialState startX startY)
          = Ok (NoNeighbour, s'))
    /\ traced pixels width height (onBoundary pixels width height) startX startY s'
    /\ iterations s' = Z.of_nat n
    /\ firstCandidate pixels width height (onBoundary pixels width height) s' = None.
Proof.
  intros Hin Hfg.
  assert (Hreads : forall x y, inImage width height x y = true ->
            hasWhiteNeighbor pixels width height x y
            = Ok (onBoundary pixels width height x y))
    by (intros x y _; apply (hasWhiteNeighbor_reads pixels width height grid)).
  assert (Hcells : 1 <= width * height).
  { unfold inImage in Hin. rewrite !andb_true_iff, !Z.leb_le, !Z.ltb_lt in Hin. nia. }
  destruct (traceLoop_from_start pixels width height grid
              (hasWhiteNeighbor pixels width height) (onBoundary pixels width height)
              Hreads startX startY (width * height * 2))
    as (n & reason & s' & Hn & Hit & Hrun & Hexit); [lia|].
  destruct (traceLoop_traced (hasWhiteNeighbor pixels width height)
              (onBoundary pixels width height) Hreads startX startY
              (width * height * 2) (S n) _ reason s'
              (traced_initial _ startX startY Hin Hfg) (Hrun (S n) (Nat.lt_succ_diag_r n)))
    as [Hinv Hopen].
  pose proof Hinv as (_ & _ & _ & Hnd & Hfgs & _ & _ & Hcount).
  pose proof (distinct_pixels_bound _ Hnd Hfgs) as Hbound.
  exists n, s'. destruct reason.
  - destruct Hexit as [_ Hnone].
    split; [lia|]. split; [exact Hrun|]. split; [exact Hinv|].
    split; [exact Hit | exact Hnone].
  - congruence.
  - cbn [exitCondition] in Hexit. lia.
Qed.

Lemma pixelOf_involutive p : pixelOf (pixelOf p) = p.
Proof. destruct p as [x y]. unfold pixelOf. cbn [fst snd]. f_equal. lia. Qed.

Lemma NoDup_map_pixelOf (l : list pixel) : NoDup l -> NoDup (map pixelOf l).
Proof.
  intros Hnd. induction Hnd as [|p l Hp Hnd IH]; [constructor|].
  cbn [map]. constructor; [|exact IH].
  intros Hin. apply in_map_iff in Hin as (q & Hq & Hin).
  apply (f_equal pixelOf) in Hq. rewrite !pixelOf_involutive in Hq.
  subst q. exact (Hp Hin).
Qed.

Lemma findSingleOuterBoundary_traced :
  exists b,
    findSingleOuterBoundary pixels width height = Ok b
    /\ match b with
       | [] => findStart pixels width height = Ok None
       | point :: _ =>
           findStart pixels width height = Ok (Some (pixelOf point))
           /\ exists s',
                traced pixels width height (onBoundary pixels width height)
                  (fst (pixelOf point)) (snd (pixelOf point)) s'
                /\ boundary s' = b
                /\ Z.of_nat (length b) <= width * height
       end.
Proof.
  destruct grid as (Hw & Hh & _).
  destruct (scanRows_returns pixels width height grid (Z.to_nat height) 0) as [r Hr];
    [lia | lia |].
  unfold findSingleOuterBoundary. fold (findStart pixels width height) in Hr.
  rewrite Hr. cbn [bind].
  pose proof (findStart_first _ Hr) as Hfirst.
  destruct r as [[startX startY]|]; [|exists []; split; reflexivity].
  destruct Hfirst as (Hin & Hfg & _). cbn [fst snd] in *.
  destruct (trace_from_start startX startY Hin Hfg) as (n & s' & Hn & Hrun & Hinv & _ & _).
  rewrite Hrun by lia. cbn [bind snd].
  exists (boundary s'). split; [reflexivity|].
  pose proof Hinv as (Hb & Hhd & [Hne _] & Hnd & Hfgs & _ & _ & Hcount).
  pose proof (distinct_pixels_bound _ Hnd Hfgs) as Hbound.
  rewrite Hb. destruct (visited s') as [|p rest] eqn:Hv; [congruence|].
  cbn [map hd] in *. subst p. rewrite !pixelOf_involutive. cbn [fst snd].
  split; [reflexivity|].
  exists s'. split; [|split].
  - exact Hinv.
  - exact Hb.
  - cbn [length] in *. rewrite length_map. lia.
Qed.

Lemma findSingleOuterBoundary_distinct :
  exists b, findSingleOuterBoundary pixels width height = Ok b /\ NoDup b.
Proof.
  destruct findSingleOuterBoundary_traced as (b & Hb & Hshape).
  exists b. split; [exact Hb|].
  destruct b as [|point rest]; [constructor|].
  destruct Hshape as (_ & s' & Hinv & Hbs & _).
  destruct Hinv as (Hbv & _ & _ & Hnd & _).
  rewrite <- Hbs, Hbv. apply NoDup_map_pixelOf, Hnd.
Qed.

Lemma readPixel_binary x y v :
  binary pixels -> readPixel pixels x y = Ok v -> v = 0 \/ v = 1.
Proof.
  unfold binary, readPixel. intros Hbin.
  destruct ((x <? 0) || (y <? 0)); [discriminate|].
  destruct (nth_error pixels (Z.to_nat y)) as [row|] eqn:Hrow; [|discriminate].
  destruct (nth_error row (Z.to_nat x)) as [w|] eqn:Hw; [|discriminate].
  intros [= <-]. apply nth_error_In in Hrow, Hw.
  rewrite Forall_forall in Hbin. specialize (Hbin _ Hrow).
  rewrite Forall_forall in Hbin. exact (Hbin _ Hw).
Qed.

(** On a binary grid the first foreground pixel has a white or outside cell
    right above it. *)
Lemma first_foreground_onBoundary x0 y0 :
  binary pixels ->
  (forall x y, inImage width height x y = true ->
               before x y x0 y0 -> readPixel pixels x y <> Ok 1) ->
  onBoundary pixels width height x0 y0 = true.
Proof.
  intros Hbin Hfirst. unfold onBoundary. apply existsb_exists.
  exists (x0, y0 - 1). split; [cbn; tauto|]. cbn [fst snd]. unfold white.
  destruct (inImage width height x0 (y0 - 1)) eqn:Hin; [|reflexivity].
  destruct (readPixel_inImage pixels width height grid _ _ Hin) as [v Hv]. rewrite Hv.
  destruct (readPixel_binary _ _ _ Hbin Hv) as [-> | ->]; [reflexivity|].
  elim (Hfirst _ _ Hin); [left; lia | exact Hv].
Qed.

End TraceFacts.

Section TraceTheorems.

Import Tracer Raster.
Local Open Scope Z_scope.

Variable pixels : pixelGrid.
Variables width height : Z.
Hypothesis grid : wellFormed pixels width height.

(** X1. [findSingleOuterBoundary] starts at the first foreground pixel of the
    row-major scan: on a well-formed grid it returns, its result is empty only
    if the grid holds no foreground pixel, and otherwise its first point
    [[x, -y]] is a foreground pixel (x, y) inside the image that no foreground
    pixel precedes in the scan. *)
Theorem findSingleOuterBoundary_starts_at_first_foreground :
  exists b,
    findSingleOuterBoundary pixels width height = Ok b
    /\ match b with
       | [] => noForeground pixels width height
       | point :: _ =>
           let x0 := fst (pixelOf point) in
           let y0 := snd (pixelOf point) in
           inImage width height x0 y0 = true
           /\ readPixel pixels x0 y0 = Ok 1
           /\ forall x y, inImage width height x y = true ->
                          before x y x0 y0 -> readPixel pixels x y <> Ok 1
       end.
Proof.
  destruct (findSingleOuterBoundary_traced pixels width height grid) as (b & Hb & Hshape).
  exists b. split; [exact Hb|].
  destruct b as [|point rest].
  - exact (findStart_first pixels width height grid _ Hshape).
  - destruct Hshape as [Hstart _].
    exact (findStart_first pixels width height grid _ Hstart).
Qed.

(** X2. The trace of [findSingleOuterBoundary] is a simple 8-connected path:
    no pixel is recorded twice, each recorded pixel touches the next by a side
    or a corner, and the polygon has at most width x height points. *)
Theorem findSingleOuterBoundary_simple_path :
  exists b,
    findSingleOuterBoundary pixels width height = Ok b
    /\ NoDup b
    /\ linked (map pixelOf b) = true
    /\ Z.of_nat (length b) <= width * height.
Proof.
  destruct (findSingleOuterBoundary_traced pixels width height grid) as (b & Hb & Hshape).
  exists b. split; [exact Hb|].
  destruct b as [|point rest].
  - destruct grid as (Hw & Hh & _). repeat split; [constructor | cbn; nia].
  - destruct Hshape as (_ & s' & Hinv & Hbs & Hlen).
    destruct Hinv as (Hbv & _ & _ & Hnd & _ & _ & Hlink & _).
    rewrite <- Hbs, Hbv in *. split; [|split].
    + apply NoDup_map_pixelOf, Hnd.
    + rewrite map_map. erewrite map_ext; [rewrite map_id; exact Hlink|].
      intros p. apply pixelOf_involutive.
    + exact Hlen.
Qed.

(** X3. On a binary grid [findSingleOuterBoundary] never enters the interior
    of the shape: every point [[x, -y]] of its result is a foreground pixel
    (x, y) inside the image with a background cell, or a cell outside the
    image, in the 3x3 block around it. *)
Theorem findSingleOuterBoundary_stays_on_boundary :
  binary pixels ->
  exists b,
    findSingleOuterBoundary pixels width height = Ok b
    /\ Forall (fun point =>
                 let x := fst (pixelOf point) in
                 let y := snd (pixelOf point) in
                 inImage width height x y = true
                 /\ readPixel pixels x y = Ok 1
                 /\ onBoundary pixels width height x y = true) b.
Proof.
  intros Hbin.
  destruct (findSingleOuterBoundary_traced pixels width height grid) as (b & Hb & Hshape).
  exists b. split; [exact Hb|].
  destruct b as [|point rest]; [constructor|].
  destruct Hshape as (Hstart & s' & Hinv & Hbs & _).
  pose proof (findStart_first pixels width height grid _ Hstart) as (_ & _ & Hfirst).
  pose proof (first_foreground_onBoundary pixels width height grid _ _ Hbin Hfirst)
    as Hon.
  destruct Hinv as (Hbv & Hhd & _ & _ & Hcells & Htest & _ & _).
  rewrite <- Hbs, Hbv. apply Forall_forall. intros q Hq.
  apply in_map_iff in Hq as (p & <- & Hp). rewrite pixelOf_involutive. cbv zeta.
  rewrite Forall_forall in Hcells. destruct (Hcells _ Hp) as [Hin Hfg].
  split; [exact Hin|]. split; [exact Hfg|].
  destruct (visited s') as [|p0 others]; [destruct Hp|].
  cbn [hd tl] in *. destruct Hp as [<- | Hp].
  - rewrite Hhd. exact Hon.
  - rewrite Forall_forall in Htest. exact (Htest _ Hp).
Qed.

(** X4. The loop of [findSingleOuterBoundary] always leaves through
    [if (!found) break]: started at the pixel the initial scan finds, it stops
    after fewer passes than the image has cells in a state where no neighbour
    qualifies, so neither the loop-closing test nor the cap of
    2 x width x height passes ever ends it. *)
Theorem findSingleOuterBoundary_leaves_without_neighbour startX startY :
  findStart pixels width height = Ok (Some (startX, startY)) ->
  exists (n : nat) s',
    Z.of_nat n < width * height
    /\ (forall fuel, (n < fuel)%nat ->
          traceLoop pixels width height (hasWhiteNeighbor pixels width height)
            startX startY (width * height * 2) fuel (initialState startX startY)
          = Ok (NoNeighbour, s'))
    /\ iterations s' = Z.of_nat n
    /\ firstCandidate pixels width height (onBoundary pixels width height) s' = None.
Proof.
  intros Hstart.
  pose proof (findStart_first pixels width height grid _ Hstart) as (Hin & Hfg & _).
  destruct (trace_from_start pixels width height grid startX startY Hin Hfg)
    as (n & s' & Hn & Hrun & _ & Hit & Hnone).
  exists n, s'. auto.
Qed.

End TraceTheorems.

Section BoundaryPixelFacts.

Import Tracer Raster.
Local Open Scope Z_scope.

Variable pixels : pixelGrid.
Variables width height : Z.
Hypothesis grid : wellFormed pixels width height.

Let ringWhite (x y : Z) : bool :=
  existsb (fun c => white pixels width height (fst c) (snd c)) (ring8 x y).

Lemma boundaryPixelsRow_spec y :
  0 <= y < height ->
  forall n x, 0 <= x -> x + Z.of_nat n <= width ->
  exists l,
    boundaryPixelsRow pixels width height y x n = Ok l
    /\ (forall px py, In (px, py) l <->
          py = y /\ x <= px < x + Z.of_nat n /\ readPixel pixels px py = Ok 1
          /\ ringWhite px py = true)
    /\ rowMajor l.
Proof.
  intros Hy. induction n as [|n IH]; intros x Hx Hn; cbn [boundaryPixelsRow].
  - exists []. split; [reflexivity|]. split; [|constructor].
    intros px py. split; [intros [] | intros (_ & Hpx & _); lia].
  - assert (Hin : inImage width height x y = true).
    { unfold inImage. rewrite !andb_true_iff, !Z.leb_le, !Z.ltb_lt. lia. }
    destruct (readPixel_inImage pixels width height grid _ _ Hin) as [v Hv].
    rewrite Hv. cbn [bind].
    destruct (IH (x + 1)) as (rest & Hrest & Hspec & Hsorted); [lia | lia |].
    rewrite (anyWhite_reads pixels width height grid). fold (ringWhite x y).
    assert (Hhere : exists here,
              (if v =? 1 then
                 w <- Ok (ringWhite x y) ;; Ok (if w then [(x, y)] else [])
               else Ok []) = Ok here
              /\ here = (if (v =? 1) && ringWhite x y then [(x, y)] else [])).
    { destruct (v =? 1); cbn [bind andb]; eauto. }
    destruct Hhere as (here & -> & Hhere). cbn [bind]. rewrite Hrest. cbn [bind].
    exists (here ++ rest). split; [reflexivity|]. split.
    + intros px py. rewrite in_app_iff, Hspec. subst here. split.
      * intros [Hp | (Hpy & Hpx & Hfg & Hw)].
        -- destruct ((v =? 1) && ringWhite x y) eqn:Hc; [|destruct Hp].
           destruct Hp as [[= <- <-] | []]. apply andb_prop in Hc as [Hv1 Hw].
           apply Z.eqb_eq in Hv1. subst v. repeat split; [lia | lia | exact Hv | exact Hw].
        -- repeat split; [exact Hpy | lia | lia | exact Hfg | exact Hw].
      * intros (Hpy & Hpx & Hfg & Hw). destruct (Z.eq_dec px x) as [-> | Hne].
        -- left. subst py. rewrite Hv in Hfg. injection Hfg as ->.
           rewrite Hw. cbn. now left.
        -- right. repeat split; [exact Hpy | lia | lia | exact Hfg | exact Hw].
    + subst here. destruct ((v =? 1) && ringWhite x y); [|exact Hsorted].
      cbn [app]. constructor; [exact Hsorted|].
      apply Forall_forall. intros [px py] Hp. apply Hspec in Hp as (Hpy & Hpx & _).
      cbn [fst snd]. right. lia.
Qed.

Lemma rowMajor_app l1 l2 :
  rowMajor l1 -> rowMajor l2 ->
  (forall p q, In p l1 -> In q l2 -> before (fst p) (snd p) (fst q) (snd q)) ->
  rowMajor (l1 ++ l2).
Proof.
  intros H1 H2 Hcross. induction H1 as [|p l1 Hs IH Hp]; [exact H2|].
  cbn [app]. constructor.
  - apply IH. intros a b Ha Hb. apply Hcross; [now right | exact Hb].
  - apply Forall_app. split; [exact Hp|].
    apply Forall_forall. intros q Hq. apply Hcross; [now left | exact Hq].
Qed.

Lemma boundaryPixelsRows_spec :
  forall n y, 0 <= y -> y + Z.of_nat n <= height ->
  exists l,
    boundaryPixelsRows pixels width height y n = Ok l
    /\ (forall px py, In (px, py) l <->
          y <= py < y + Z.of_nat n /\ 0 <= px < width
          /\ readPixel pixels px py = Ok 1 /\ ringWhite px py = true)
    /\ rowMajor l.
Proof.
  destruct grid as (Hw & _).
  induction n as [|n IH]; intros y Hy Hn; cbn [boundaryPixelsRows].
  - exists []. split; [reflexivity|]. split; [|constructor].
    intros px py. split; [intros [] | intros (Hpy & _); lia].
  - destruct (boundaryPixelsRow_spec y ltac:(lia) (Z.to_nat width) 0)
      as (row & Hrow & Hrspec & Hrsorted); [lia | lia |].
    rewrite Hrow. cbn [bind].
    destruct (IH (y + 1)) as (rest & Hrest & Hspec & Hsorted); [lia | lia |].
    rewrite Hrest. cbn [bind].
    exists (row ++ rest). split; [reflexivity|]. split.
    + intros px py. rewrite in_app_iff, Hrspec, Hspec. split.
      * intros [(Hpy & Hpx & Hfg & Hwh) | (Hpy & Hpx & Hfg & Hwh)];
          (repeat split; [lia | lia | lia | lia | exact Hfg | exact Hwh]).
      * intros (Hpy & Hpx & Hfg & Hwh). destruct (Z.eq_dec py y) as [-> | Hne].
        -- left. repeat split; [lia | lia | exact Hfg | exact Hwh].
        -- right. repeat split; [lia | lia | lia | lia | exact Hfg | exact Hwh].
    + apply rowMajor_app; [exact Hrsorted | exact Hsorted |].
      intros [px py] [qx qy] Hp Hq. apply Hrspec in Hp as (Hpy & _).
      apply Hspec in Hq as (Hqy & _). cbn [fst snd]. left. lia.
Qed.

(** While the list is in scan order the search for the topmost, leftmost
    pixel never leaves its first element. *)
Lemma pickStart_rowMajor first others :
  rowMajor (first :: others) -> pickStart first others = first.
Proof.
  intros Hs. apply StronglySorted_inv in Hs as [_ Hfirst].
  unfold pickStart. induction others as [|p others IH]; [reflexivity|].
  cbn [fold_left]. apply Forall_cons_iff in Hfirst as [Hp Hrest].
  replace ((snd p <? snd first) || ((snd p =? snd first) && (fst p <? fst first)))
    with false; [exact (IH Hrest)|].
  symmetry. apply orb_false_iff. split.
  - apply Z.ltb_ge. destruct Hp as [Hp | [Hp _]]; lia.
  - destruct (snd p =? snd first) eqn:Heq; [|reflexivity]. cbn [andb].
    apply Z.ltb_ge. apply Z.eqb_eq in Heq. destruct Hp as [Hp | [_ Hp]]; lia.
Qed.

(** X5. [findBoundaryPixels] returns exactly the foreground pixels of the
    image that have a background cell, or a cell outside the image, among
    their 8 neighbours; it lists them in the order of the row-major scan,
    none twice. *)
Theorem findBoundaryPixels_lists_boundary :
  exists l,
    findBoundaryPixels pixels width height = Ok l
    /\ (forall x y,
          In (x, y) l <->
          inImage width height x y = true /\ readPixel pixels x y = Ok 1
          /\ existsb (fun c => white pixels width height (fst c) (snd c)) (ring8 x y)
             = true)
    /\ rowMajor l.
Proof.
  destruct grid as (Hw & Hh & _).
  destruct (boundaryPixelsRows_spec (Z.to_nat height) 0) as (l & Hl & Hspec & Hsorted);
    [lia | lia |].
  exists l. split; [exact Hl|]. split; [|exact Hsorted].
  intros x y. rewrite Hspec. unfold inImage, ringWhite.
  rewrite !andb_true_iff, !Z.leb_le, !Z.ltb_lt. split.
  - intros (Hy & Hx & Hfg & Hwh). repeat split; [lia | lia | lia | lia | exact Hfg | exact Hwh].
  - intros ([[[Hx0 Hx1] Hy0] Hy1] & Hfg & Hwh).
    repeat split; [lia | lia | lia | lia | exact Hfg | exact Hwh].
Qed.

(** X6. [findPerfectContour] of revision B returns, and its search for the
    topmost, leftmost boundary pixel is idle: the trace starts at the first
    pixel [findBoundaryPixels] lists.  The result is a simple 8-connected path
    of foreground pixels of at most 2 x boundaryPixels.length + 1 points. *)
Theorem findPerfectContour_starts_at_first_boundary_pixel :
  exists boundaryPixels b,
    findBoundaryPixels pixels width height = Ok boundaryPixels
    /\ findPerfectContour pixels width height = Ok b
    /\ match boundaryPixels with
       | [] => b = []
       | first :: others =>
           pickStart first others = first
           /\ hd (0, 0) b = pixelOf first
           /\ NoDup b
           /\ linked (map pixelOf b) = true
           /\ Forall (fun point =>
                        readPixel pixels (fst (pixelOf point)) (snd (pixelOf point))
                        = Ok 1) b
           /\ (length b <= 2 * length boundaryPixels + 1)%nat
       end.
Proof.
  destruct grid as (Hw & Hh & _).
  destruct (boundaryPixelsRows_spec (Z.to_nat height) 0) as (l & Hl & Hspec & Hsorted);
    [lia | lia |].
  fold (findBoundaryPixels pixels width height) in Hl.
  unfold findPerfectContour. rewrite Hl. cbn [bind].
  destruct l as [|first others]; [exists [], []; auto|].
  pose proof (pickStart_rowMajor _ _ Hsorted) as Hpick. rewrite Hpick.
  destruct first as [startX startY].
  destruct (proj1 (Hspec startX startY) (or_introl eq_refl)) as (Hsy & Hsx & Hfg & _).
  assert (Hin : inImage width height startX startY = true).
  { unfold inImage. rewrite !andb_true_iff, !Z.leb_le, !Z.ltb_lt. lia. }
  cbv zeta. unfold pixel in *.
  remember (Z.of_nat (length ((startX, startY) :: others)) * 2) as maxIterations
    eqn:Hmax.
  destruct (traceLoop_from_start pixels width height grid (fun _ _ => Ok true)
              (fun _ _ => true) (fun _ _ _ => eq_refl) startX startY maxIterations)
    as (n & reason & s' & Hn & Hit & Hrun & _); [lia|].
  destruct (traceLoop_traced pixels width height grid (fun _ _ => Ok true)
              (fun _ _ => true) (fun _ _ _ => eq_refl) startX startY
              maxIterations (S n) _ reason s'
              (traced_initial pixels width height _ startX startY Hin Hfg)
              (Hrun (S n) (Nat.lt_succ_diag_r n)))
    as [(Hbv & Hhd & [Hne _] & Hnd & Hcells & _ & Hlink & Hcount) _].
  exists ((startX, startY) :: others), (boundary s'). split; [reflexivity|].
  split; [rewrite Hrun by lia; reflexivity|].
  split; [exact Hpick|]. rewrite Hbv.
  split; [|split; [|split; [|split]]].
  - destruct (visited s') as [|p rest]; [congruence|]. cbn [map hd] in *. now subst p.
  - apply NoDup_map_pixelOf, Hnd.
  - rewrite map_map. erewrite map_ext; [rewrite map_id; exact Hlink|].
    intros p. apply pixelOf_involutive.
  - apply Forall_forall. intros q Hq. apply in_map_iff in Hq as (p & <- & Hp).
    rewrite pixelOf_involutive. rewrite Forall_forall in Hcells.
    apply (Hcells _ Hp).
  - rewrite length_map. lia.
Qed.

End BoundaryPixelFacts.

Section ContourTheorems.

Import Tracer Raster.
Local Open Scope Z_scope.

Variable imageData : list Z.
Variables width height threshold : Z.

(** X7. The grid [findContours] builds from the image buffer has [height] rows
    of [width] cells, each 0 or 1; cell (x, y) is 1 exactly when byte
    y x width + x exists in the buffer and is below the threshold, so the
    bytes a short buffer lacks read as background. *)
Theorem findContours_grid :
  0 <= width -> 0 <= height ->
  let pixels := toPixels imageData width height threshold in
  wellFormed pixels width height
  /\ binary pixels
  /\ forall x y,
       inImage width height x y = true ->
       readPixel pixels x y
       = Ok (match nth_error imageData (Z.to_nat (y * width + x)) with
             | Some gray => if gray <? threshold then 1 else 0
             | None => 0
             end).
Proof.
  intros Hw Hh pixels. split; [apply toPixels_wellFormed; assumption|].
  split; [apply toPixels_binary|].
  intros x y Hin. subst pixels. rewrite toPixels_read by exact Hin. reflexivity.
Qed.

(** X8. [findContours] of revision A returns on every buffer, also one shorter
    than width x height, and yields no contour or exactly one: a polygon of
    more than 2 points, none twice, each [[x, -y]] a pixel of the image whose
    byte is below the threshold. *)
Theorem findContours_sound :
  0 <= width -> 0 <= height ->
  exists contours,
    findContours imageData width height threshold = Ok contours
    /\ (contours = []
        \/ exists b,
             contours = [b] /\ (2 < length b)%nat /\ NoDup b
             /\ Forall (fun point =>
                          let x := fst point in
                          let y := - snd point in
                          0 <= x < width /\ 0 <= y < height
                          /\ exists gray,
                               nth_error imageData (Z.to_nat (y * width + x)) = Some gray
                               /\ gray < threshold) b).
Proof.
  intros Hw Hh. unfold findContours. cbv zeta.
  set (pixels := toPixels imageData width height threshold).
  pose proof (toPixels_wellFormed imageData width height threshold Hw Hh) as grid.
  fold pixels in grid.
  destruct (findSingleOuterBoundary_traced pixels width height grid) as (b & Hb & Hshape).
  rewrite Hb. cbn [bind]. eexists. split; [reflexivity|].
  destruct (2 <? length b)%nat eqn:Hlen; [|now left].
  right. exists b. split; [reflexivity|]. apply Nat.ltb_lt in Hlen. split; [exact Hlen|].
  destruct b as [|point rest]; [cbn in Hlen; lia|].
  destruct Hshape as (_ & s' & Hinv & Hbs & _).
  destruct Hinv as (Hbv & _ & _ & Hnd & Hcells & _).
  rewrite <- Hbs, Hbv. split.
  - apply NoDup_map_pixelOf, Hnd.
  - apply Forall_forall. intros q Hq. apply in_map_iff in Hq as (p & <- & Hp).
    rewrite Forall_forall in Hcells. destruct (Hcells _ Hp) as [Hin Hfg].
    destruct p as [x y]. unfold pixelOf. cbn [fst snd] in *. rewrite Z.opp_involutive.
    subst pixels. rewrite toPixels_read in Hfg by exact Hin.
    unfold inImage in Hin. rewrite !andb_true_iff, !Z.leb_le, !Z.ltb_lt in Hin.
    split; [lia|]. split; [lia|].
    unfold binarize in Hfg.
    destruct (nth_error imageData (Z.to_nat (y * width + x))) as [gray|]; [|discriminate].
    exists gray. split; [reflexivity|].
    destruct (gray <? threshold) eqn:Hlt; [apply Z.ltb_lt in Hlt; exact Hlt | discriminate].
Qed.

End ContourTheorems.

Section TraceExamples.

Import Tracer Raster Examples Samples.
Local Open Scope Z_scope.

Lemma block5_binary : binary block5.
Proof.
  unfold binary, block5.
  repeat (apply Forall_cons || apply Forall_nil);
    first [left; reflexivity | right; reflexivity].
Qed.

Lemma findSingleOuterBoundary_starts_at_first_foreground_block5 :
  exists b,
    findSingleOuterBoundary block5 5 5 = Ok b
    /\ match b with
       | [] => noForeground block5 5 5
       | point :: _ =>
           let x0 := fst (pixelOf point) in
           let y0 := snd (pixelOf point) in
           inImage 5 5 x0 y0 = true
           /\ readPixel block5 x0 y0 = Ok 1
           /\ forall x y, inImage 5 5 x y = true ->
                          before x y x0 y0 -> readPixel block5 x y <> Ok 1
       end.
Proof.
  exact (findSingleOuterBoundary_starts_at_first_foreground block5 5 5 block5_wellFormed).
Defined.

Lemma findSingleOuterBoundary_simple_path_block5 :
  exists b,
    findSingleOuterBoundary block5 5 5 = Ok b
    /\ NoDup b
    /\ linked (map pixelOf b) = true
    /\ Z.of_nat (length b) <= 5 * 5.
Proof.
  exact (findSingleOuterBoundary_simple_path block5 5 5 block5_wellFormed).
Defined.

Lemma findSingleOuterBoundary_stays_on_boundary_block5 :
  exists b,
    findSingleOuterBoundary block5 5 5 = Ok b
    /\ Forall (fun point =>
                 let x := fst (pixelOf point) in
                 let y := snd (pixelOf point) in
                 inImage 5 5 x y = true
                 /\ readPixel block5 x y = Ok 1
                 /\ onBoundary block5 5 5 x y = true) b.
Proof.
  exact (findSingleOuterBoundary_stays_on_boundary block5 5 5 block5_wellFormed
           block5_binary).
Defined.

Lemma findSingleOuterBoundary_leaves_without_neighbour_block5 :
  exists (n : nat) s',
    Z.of_nat n < 5 * 5
    /\ (forall fuel, (n < fuel)%nat ->
          traceLoop block5 5 5 (hasWhiteNeighbor block5 5 5) 1 1 (5 * 5 * 2) fuel
            (initialState 1 1)
          = Ok (NoNeighbour, s'))
    /\ iterations s' = Z.of_nat n
    /\ firstCandidate block5 5 5 (onBoundary block5 5 5) s' = None.
Proof.
  apply (findSingleOuterBoundary_leaves_without_neighbour block5 5 5 block5_wellFormed
           1 1).
  reflexivity.
Defined.

Lemma findBoundaryPixels_lists_boundary_block5 :
  exists l,
    findBoundaryPixels block5 5 5 = Ok l
    /\ (forall x y,
          In (x, y) l <->
          inImage 5 5 x y = true /\ readPixel block5 x y = Ok 1
          /\ existsb (fun c => white block5 5 5 (fst c) (snd c)) (ring8 x y) = true)
    /\ rowMajor l.
Proof.
  exact (findBoundaryPixels_lists_boundary block5 5 5 block5_wellFormed).
Defined.

Lemma findPerfectContour_starts_at_first_boundary_pixel_block5 :
  exists boundaryPixels b,
    findBoundaryPixels block5 5 5 = Ok boundaryPixels
    /\ findPerfectContour block5 5 5 = Ok b
    /\ match boundaryPixels with
       | [] => b = []
       | first :: others =>
           pickStart first others = first
           /\ hd (0, 0) b = pixelOf first
           /\ NoDup b
           /\ linked (map pixelOf b) = true
           /\ Forall (fun point =>
                        readPixel block5 (fst (pixelOf point)) (snd (pixelOf point))
                        = Ok 1) b
           /\ (length b <= 2 * length boundaryPixels + 1)%nat
       end.
Proof.
  exact (findPerfectContour_starts_at_first_boundary_pixel block5 5 5 block5_wellFormed).
Defined.

Lemma findContours_grid_bytes3x2 :
  let pixels := toPixels bytes3x2 3 2 128 in
  wellFormed pixels 3 2
  /\ binary pixels
  /\ forall x y,
       inImage 3 2 x y = true ->
       readPixel pixels x y
       = Ok (match nth_error bytes3x2 (Z.to_nat (y * 3 + x)) with
             | Some gray => if gray <? 128 then 1 else 0
             | None => 0
             end).
Proof.
  apply (findContours_grid bytes3x2 3 2 128); lia.
Defined.

Lemma findContours_sound_bytes3x2 :
  exists contours,
    findContours bytes3x2 3 2 128 = Ok contours
    /\ (contours = []
        \/ exists b,
             contours = [b] /\ (2 < length b)%nat /\ NoDup b
             /\ Forall (fun point =>
                          let x := fst point in
                          let y := - snd point in
                          0 <= x < 3 /\ 0 <= y < 2
                          /\ exists gray,
                               nth_error bytes3x2 (Z.to_nat (y * 3 + x)) = Some gray
                               /\ gray < 128) b).
Proof.
  apply (findContours_sound bytes3x2 3 2 128); lia.
Defined.

End TraceExamples.

(** ** Cleaning and smoothing of the traced path *)

Section SumFacts.

Import Num Paths Smooth.
Local Open Scope Q_scope.

Context {A : Type}.

Lemma sumOf_from (f : A -> Q) (l : list A) :
  forall acc, fold_left (fun sum item => sum + f item) l acc == acc + sumOf f l.
Proof.
  unfold sumOf. induction l as [|a l IH]; intros acc; cbn [fold_left].
  - ring.
  - rewrite (IH (acc + f a)), (IH (0 + f a)). ring.
Qed.

Lemma sumOf_cons (f : A -> Q) a l : sumOf f (a :: l) == f a + sumOf f l.
Proof. unfold sumOf at 1. cbn [fold_left]. rewrite sumOf_from. ring. Qed.

Lemma sumOf_nil (f : A -> Q) : sumOf f [] = 0.
Proof. reflexivity. Qed.

Lemma sumOf_app (f : A -> Q) l1 l2 : sumOf f (l1 ++ l2) == sumOf f l1 + sumOf f l2.
Proof.
  induction l1 as [|a l1 IH]; cbn [app].
  - rewrite sumOf_nil. ring.
  - rewrite !sumOf_cons, IH. ring.
Qed.

Lemma sumOf_ext (f g : A -> Q) l :
  (forall a, In a l -> f a == g a) -> sumOf f l == sumOf g l.
Proof.
  induction l as [|a l IH]; intros Hfg; [reflexivity|].
  rewrite !sumOf_cons, IH, (Hfg a) by (intros; try apply Hfg; cbn; auto).
  reflexivity.
Qed.

Lemma sumOf_add (f g : A -> Q) l :
  sumOf (fun a => f a + g a) l == sumOf f l + sumOf g l.
Proof.
  induction l as [|a l IH]; [reflexivity|]. rewrite !sumOf_cons, IH. ring.
Qed.

Lemma sumOf_scale (f : A -> Q) c l : sumOf (fun a => f a * c) l == sumOf f l * c.
Proof.
  induction l as [|a l IH]; [reflexivity|]. rewrite !sumOf_cons, IH. ring.
Qed.

Lemma sumOf_const c (l : list A) :
  sumOf (fun _ => c) l == inject_Z (Z.of_nat (length l)) * c.
Proof.
  induction l as [|a l IH]; [reflexivity|].
  rewrite sumOf_cons, IH. cbn [length]. rewrite Nat2Z.inj_succ, <- Z.add_1_r, inject_Z_plus.
  ring.
Qed.

Lemma sumOf_perm (f : A -> Q) l l' : Permutation l l' -> sumOf f l == sumOf f l'.
Proof.
  induction 1 as [|a l l' _ IH|a b l|l l' l'' _ IH1 _ IH2].
  - reflexivity.
  - rewrite !sumOf_cons, IH. reflexivity.
  - rewrite !sumOf_cons. ring.
  - rewrite IH1. exact IH2.
Qed.

Lemma sumOf_bounds (f : A -> Q) lo hi l :
  (forall a, In a l -> lo <= f a <= hi) ->
  inject_Z (Z.of_nat (length l)) * lo <= sumOf f l <= inject_Z (Z.of_nat (length l)) * hi.
Proof.
  induction l as [|a l IH]; intros Hb.
  - rewrite sumOf_nil. cbn [length]. change (inject_Z (Z.of_nat 0)) with 0. lra.
  - rewrite sumOf_cons. cbn [length].
    rewrite Nat2Z.inj_succ, <- Z.add_1_r, inject_Z_plus.
    destruct (Hb a (or_introl eq_refl)) as [H1 H2].
    destruct IH as [H3 H4]; [intros b Hin; apply Hb; now right|].
    change (inject_Z 1) with 1. lra.
Qed.

End SumFacts.

Section SumFacts2.

Import Num Paths Smooth.
Local Open Scope Q_scope.

Lemma sumOf_map {A B : Type} (f : B -> Q) (g : A -> B) l :
  sumOf f (map g l) = sumOf (fun a => f (g a)) l.
Proof.
  unfold sumOf. generalize 0. induction l as [|a l IH]; intros acc; [reflexivity|].
  cbn [map fold_left]. apply IH.
Qed.

Lemma sumOf_swap {A B : Type} (h : A -> B -> Q) la lb :
  sumOf (fun a => sumOf (h a) lb) la == sumOf (fun b => sumOf (fun a => h a b) la) lb.
Proof.
  induction la as [|a la IH].
  - rewrite sumOf_nil. symmetry.
    rewrite (sumOf_ext _ (fun _ => 0)) by (intros; reflexivity).
    rewrite sumOf_const. ring.
  - rewrite sumOf_cons, IH. symmetry.
    etransitivity.
    + apply (sumOf_ext _ (fun b => h a b + sumOf (fun a0 => h a0 b) la)).
      intros b _. apply (sumOf_cons (fun a0 => h a0 b)).
    + apply (sumOf_add (h a) (fun b => sumOf (fun a0 => h a0 b) la)).
Qed.

End SumFacts2.

Section WrapFacts.

Import Num Paths Smooth.
Local Open Scope Z_scope.

Lemma wrap_range (len i : nat) (j : Z) :
  (i < len)%nat -> - Z.of_nat len <= j -> (wrap len i j < len)%nat.
Proof.
  intros Hi Hj. unfold wrap.
  rewrite Z.rem_mod_nonneg by lia.
  pose proof (Z.mod_pos_bound (Z.of_nat i + j + Z.of_nat len) (Z.of_nat len)). lia.
Qed.

Lemma wrap_injective (len i1 i2 : nat) (j : Z) :
  (i1 < len)%nat -> (i2 < len)%nat -> - Z.of_nat len <= j ->
  wrap len i1 j = wrap len i2 j -> i1 = i2.
Proof.
  intros H1 H2 Hj Heq. unfold wrap in Heq.
  rewrite !Z.rem_mod_nonneg in Heq by lia.
  set (n := Z.of_nat len) in *.
  pose proof (Z.mod_pos_bound (Z.of_nat i1 + j + n) n ltac:(lia)) as B1.
  pose proof (Z.mod_pos_bound (Z.of_nat i2 + j + n) n ltac:(lia)) as B2.
  apply Z2Nat.inj in Heq; [|lia|lia].
  pose proof (Z.div_mod (Z.of_nat i1 + j + n) n ltac:(lia)) as D1.
  pose proof (Z.div_mod (Z.of_nat i2 + j + n) n ltac:(lia)) as D2.
  rewrite Heq in D1.
  assert (Hq : (Z.of_nat i1 + j + n) / n = (Z.of_nat i2 + j + n) / n) by nia.
  rewrite Hq in D1. lia.
Qed.

(** Reading a contour at a fixed offset visits every index once. *)
Lemma wrap_permutation (len : nat) (j : Z) :
  - Z.of_nat len <= j ->
  Permutation (map (fun i => wrap len i j) (seq 0 len)) (seq 0 len).
Proof.
  intros Hj. apply NoDup_Permutation_bis.
  - apply NoDup_map_NoDup_ForallPairs; [|apply seq_NoDup].
    intros i1 i2 H1 H2 Heq. apply in_seq in H1, H2.
    apply (wrap_injective len i1 i2 j); [lia | lia | exact Hj | exact Heq].
  - rewrite length_map. lia.
  - intros k Hk. apply in_map_iff in Hk as (i & <- & Hi). apply in_seq in Hi.
    apply in_seq. pose proof (wrap_range len i j ltac:(lia) Hj). lia.
Qed.

End WrapFacts.

Section SmoothFacts.

Import Num Paths Smooth.
Local Open Scope Q_scope.

Lemma contour_indexed (c : contour) : map (at_ c) (seq 0 (length c)) = c.
Proof.
  induction c as [|p c IH]; [reflexivity|].
  cbn [length seq map]. unfold at_ at 1. cbn [nth]. f_equal.
  rewrite <- seq_shift, map_map. exact IH.
Qed.

Lemma at_In (c : contour) i : (i < length c)%nat -> In (at_ c i) c.
Proof. intros Hi. unfold at_. apply nth_In, Hi. Qed.

Lemma windowOffsets_length w : length (windowOffsets w) = (2 * (w / 2) + 1)%nat.
Proof. unfold windowOffsets. rewrite length_map, length_seq. reflexivity. Qed.

Lemma windowOffsets_range w j :
  In j (windowOffsets w) -> (- Z.of_nat w <= j)%Z.
Proof.
  unfold windowOffsets. intros Hj. apply in_map_iff in Hj as (k & <- & Hk).
  pose proof (Nat.Div0.div_le_upper_bound w 2 w ltac:(lia)). lia.
Qed.

(** The sum of a coordinate over one read of the contour at offset [j]. *)
Lemma sumOf_wrapped (g : point -> Q) (c : contour) (j : Z) :
  (- Z.of_nat (length c) <= j)%Z ->
  sumOf (fun i => g (at_ c (wrap (length c) i j))) (seq 0 (length c)) == sumOf g c.
Proof.
  intros Hj.
  rewrite <- (sumOf_map (fun k => g (at_ c k)) (fun i => wrap (length c) i j)).
  rewrite (sumOf_perm _ _ _ (wrap_permutation (length c) j Hj)).
  rewrite <- (sumOf_map g (at_ c)), contour_indexed. reflexivity.
Qed.

Lemma Qdiv_sumOf {A : Type} (f : A -> Q) (d : Q) (l : list A) :
  sumOf (fun a => f a / d) l == sumOf f l / d.
Proof. unfold Qdiv. apply sumOf_scale. Qed.

Lemma sumOf_le {A : Type} (f g : A -> Q) (l : list A) :
  (forall a, In a l -> f a <= g a) -> sumOf f l <= sumOf g l.
Proof.
  induction l as [|a l IH]; intros Hfg; [apply Qle_refl|].
  rewrite !sumOf_cons.
  apply Qplus_le_compat; [apply Hfg; now left | apply IH; intros; apply Hfg; now right].
Qed.

(** *** The moving average *)

Section Coordinate.

(** [g] reads one coordinate: [fst] or [snd]. *)
Variable g : point -> Q.

Lemma count_positive (c : contour) (windowSize i : nat) :
  0 < inject_Z (Z.of_nat (length (map (fun j => at_ c (wrap (length c) i j))
                                      (windowOffsets windowSize)))).
Proof.
  rewrite length_map, windowOffsets_length.
  change 0 with (inject_Z 0). rewrite <- Zlt_Qlt. lia.
Qed.

Lemma averaged_sum (c : contour) (windowSize : nat) :
  (windowSize <= length c)%nat ->
  sumOf (averaged g c windowSize) (seq 0 (length c)) == sumOf g c.
Proof.
  intros Hw. unfold averaged. cbv zeta.
  set (count := inject_Z (Z.of_nat (2 * (windowSize / 2) + 1))).
  assert (Hcount : 0 < count).
  { subst count. change 0 with (inject_Z 0). rewrite <- Zlt_Qlt. lia. }
  rewrite (sumOf_ext _ (fun i =>
             sumOf (fun j => g (at_ c (wrap (length c) i j))) (windowOffsets windowSize)
             / count)).
  2:{ intros i _. rewrite length_map, windowOffsets_length, sumOf_map. reflexivity. }
  rewrite Qdiv_sumOf, sumOf_swap.
  rewrite (sumOf_ext _ (fun _ => sumOf g c)).
  2:{ intros j Hj. apply sumOf_wrapped.
      pose proof (windowOffsets_range _ _ Hj). lia. }
  rewrite sumOf_const, windowOffsets_length. fold count.
  field. intros H0. rewrite H0 in Hcount. apply (Qlt_irrefl 0), Hcount.
Qed.

Lemma averaged_bounds (c : contour) (windowSize i : nat) lo hi :
  (windowSize <= length c)%nat -> (i < length c)%nat ->
  (forall p, In p c -> lo <= g p <= hi) ->
  lo <= averaged g c windowSize i <= hi.
Proof.
  intros Hw Hi Hb. unfold averaged. cbv zeta.
  pose proof (count_positive c windowSize i) as Hcount.
  set (window := map (fun j => at_ c (wrap (length c) i j)) (windowOffsets windowSize))
    in *.
  destruct (sumOf_bounds g lo hi window) as [Hlo Hhi].
  { intros p Hp. subst window. apply in_map_iff in Hp as (j & <- & Hj).
    apply Hb, at_In, wrap_range; [exact Hi|].
    pose proof (windowOffsets_range _ _ Hj). lia. }
  split.
  - apply Qle_shift_div_l; [exact Hcount|]. rewrite Qmult_comm. exact Hlo.
  - apply Qle_shift_div_r; [exact Hcount|]. rewrite Qmult_comm. exact Hhi.
Qed.

(** *** The weighted average *)

Lemma totalWeight_one (c : contour) (i : nat) :
  sumOf snd
    (map (fun k => (at_ c (wrap (length c) i (Z.of_nat k - 2)), nth k weights 0))
         (seq 0 5)) == 1.
Proof. rewrite sumOf_map. cbn [snd]. reflexivity. Qed.

Lemma weighted_sum (c : contour) :
  (5 <= length c)%nat ->
  sumOf (weighted g c) (seq 0 (length c)) == sumOf g c.
Proof.
  intros Hlen. unfold weighted. cbv zeta.
  rewrite (sumOf_ext _ (fun i =>
             sumOf (fun k => g (at_ c (wrap (length c) i (Z.of_nat k - 2)))
                             * nth k weights 0) (seq 0 5))).
  2:{ intros i _. rewrite totalWeight_one, sumOf_map. cbn [fst snd]. field. }
  rewrite sumOf_swap.
  rewrite (sumOf_ext _ (fun k => sumOf g c * nth k weights 0)).
  2:{ intros k Hk. rewrite sumOf_scale. apply Qmult_comp; [|reflexivity].
      apply sumOf_wrapped. lia. }
  cbn [seq]. rewrite !sumOf_cons, sumOf_nil. cbn [nth weights]. field.
Qed.

Lemma weighted_bounds (c : contour) (i : nat) lo hi :
  (5 <= length c)%nat -> (i < length c)%nat ->
  (forall p, In p c -> lo <= g p <= hi) ->
  lo <= weighted g c i <= hi.
Proof.
  intros Hlen Hi Hb. unfold weighted. cbv zeta. rewrite totalWeight_one, sumOf_map.
  cbn [fst snd seq]. rewrite !sumOf_cons, sumOf_nil. cbn [nth weights].
  assert (Hin : forall k, (k < 5)%nat ->
            lo <= g (at_ c (wrap (length c) i (Z.of_nat k - 2))) <= hi).
  { intros k Hk. apply Hb, at_In, wrap_range; [exact Hi | lia]. }
  pose proof (Hin 0%nat ltac:(lia)) as H0. pose proof (Hin 1%nat ltac:(lia)) as H1.
  pose proof (Hin 2%nat ltac:(lia)) as H2. pose proof (Hin 3%nat ltac:(lia)) as H3.
  pose proof (Hin 4%nat ltac:(lia)) as H4.
  split; field_simplify; lra.
Qed.

End Coordinate.

Lemma applyMovingAverage_points (c : contour) (windowSize : nat) :
  (windowSize <= length c)%nat ->
  applyMovingAverage c windowSize
  = map (fun i => (averaged fst c windowSize i, averaged snd c windowSize i))
        (seq 0 (length c)).
Proof.
  intros Hw. unfold applyMovingAverage.
  apply Nat.ltb_ge in Hw. rewrite Hw. reflexivity.
Qed.

Lemma applyGaussianSmoothing_points (c : contour) :
  (5 <= length c)%nat ->
  applyGaussianSmoothing c
  = map (fun i => (weighted fst c i, weighted snd c i)) (seq 0 (length c)).
Proof.
  intros Hlen. unfold applyGaussianSmoothing.
  apply Nat.ltb_ge in Hlen. rewrite Hlen. reflexivity.
Qed.

Lemma applyMovingAverage_length (c : contour) windowSize :
  length (applyMovingAverage c windowSize) = length c.
Proof.
  unfold applyMovingAverage. destruct (length c <? windowSize)%nat; [reflexivity|].
  rewrite length_map, length_seq. reflexivity.
Qed.

Lemma applyGaussianSmoothing_length (c : contour) :
  length (applyGaussianSmoothing c) = length c.
Proof.
  unfold applyGaussianSmoothing. destruct (length c <? 5)%nat; [reflexivity|].
  rewrite length_map, length_seq. reflexivity.
Qed.

Lemma applyMovingAverage_sums (c : contour) windowSize :
  sameSums c (applyMovingAverage c windowSize).
Proof.
  destruct (Nat.lt_ge_cases (length c) windowSize) as [Hshort | Hw].
  - unfold applyMovingAverage. apply Nat.ltb_lt in Hshort. rewrite Hshort.
    split; reflexivity.
  - rewrite applyMovingAverage_points by exact Hw. unfold sameSums.
    rewrite !sumOf_map. cbn [fst snd]. split; apply averaged_sum; exact Hw.
Qed.

Lemma applyGaussianSmoothing_sums (c : contour) :
  sameSums c (applyGaussianSmoothing c).
Proof.
  destruct (Nat.lt_ge_cases (length c) 5) as [Hshort | Hlen].
  - unfold applyGaussianSmoothing. apply Nat.ltb_lt in Hshort. rewrite Hshort.
    split; reflexivity.
  - rewrite applyGaussianSmoothing_points by exact Hlen. unfold sameSums.
    rewrite !sumOf_map. cbn [fst snd]. split; apply weighted_sum; exact Hlen.
Qed.

Section Box.

Variables minX maxX minY maxY : Q.

Let inBox := Paths.inBox minX maxX minY maxY.

Lemma applyMovingAverage_box (c : contour) windowSize :
  Forall inBox c -> Forall inBox (applyMovingAverage c windowSize).
Proof.
  intros Hc. destruct (Nat.lt_ge_cases (length c) windowSize) as [Hshort | Hw].
  - unfold applyMovingAverage. apply Nat.ltb_lt in Hshort. rewrite Hshort. exact Hc.
  - rewrite applyMovingAverage_points by exact Hw. rewrite Forall_forall in Hc.
    apply Forall_forall. intros q Hq. apply in_map_iff in Hq as (i & <- & Hi).
    apply in_seq in Hi. subst inBox. unfold Paths.inBox. cbn [fst snd].
    split; apply averaged_bounds; try lia; intros p Hp; apply (Hc p Hp).
Qed.

Lemma applyGaussianSmoothing_box (c : contour) :
  Forall inBox c -> Forall inBox (applyGaussianSmoothing c).
Proof.
  intros Hc. destruct (Nat.lt_ge_cases (length c) 5) as [Hshort | Hlen].
  - unfold applyGaussianSmoothing. apply Nat.ltb_lt in Hshort. rewrite Hshort. exact Hc.
  - rewrite applyGaussianSmoothing_points by exact Hlen. rewrite Forall_forall in Hc.
    apply Forall_forall. intros q Hq. apply in_map_iff in Hq as (i & <- & Hi).
    apply in_seq in Hi. subst inBox. unfold Paths.inBox. cbn [fst snd].
    split; apply weighted_bounds; try lia; intros p Hp; apply (Hc p Hp).
Qed.

Lemma smoothContour_length (c : contour) : length (smoothContour c) = length c.
Proof.
  unfold smoothContour. destruct (length c <? 3)%nat; [reflexivity|].
  rewrite applyGaussianSmoothing_length, !applyMovingAverage_length. reflexivity.
Qed.

Lemma smoothContour_stays_in_box_core (c : contour) :
  Forall (Paths.inBox minX maxX minY maxY) c ->
  length (smoothContour c) = length c
  /\ Forall (Paths.inBox minX maxX minY maxY) (smoothContour c).
Proof.
  intros Hc. unfold smoothContour. destruct (length c <? 3)%nat; [auto|]. split.
  - rewrite applyGaussianSmoothing_length, !applyMovingAverage_length. reflexivity.
  - apply applyGaussianSmoothing_box, applyMovingAverage_box, applyMovingAverage_box, Hc.
Qed.

(** X11. [smoothContour] keeps the number of points, and in exact arithmetic it
    never leaves the bounding box of its input: the two moving averages and
    the weighted average that follow each other read only points of the
    contour, with non-negative weights that add up to 1. *)
Theorem smoothContour_stays_in_box (c : contour) :
  Forall (Paths.inBox minX maxX minY maxY) c ->
  length (smoothContour c) = length c
  /\ Forall (Paths.inBox minX maxX minY maxY) (smoothContour c).
Proof.
  intros Hc. unfold smoothContour. destruct (length c <? 3)%nat; [auto|]. split.
  - rewrite applyGaussianSmoothing_length, !applyMovingAverage_length. reflexivity.
  - apply applyGaussianSmoothing_box, applyMovingAverage_box, applyMovingAverage_box, Hc.
Qed.

End Box.

(** X12. [smoothContour] keeps the centroid: the sum of the X coordinates and
    the sum of the Y coordinates of its result are those of its input, since
    every window wraps around the contour and reads each point equally often. *)
Theorem smoothContour_keeps_centroid (c : contour) :
  sumOf fst (smoothContour c) == sumOf fst c
  /\ sumOf snd (smoothContour c) == sumOf snd c.
Proof.
  unfold smoothContour. destruct (length c <? 3)%nat; [split; reflexivity|].
  destruct (applyMovingAverage_sums c 3) as [Hx1 Hy1].
  destruct (applyMovingAverage_sums (applyMovingAverage c 3) 5) as [Hx2 Hy2].
  destruct (applyGaussianSmoothing_sums (applyMovingAverage (applyMovingAverage c 3) 5))
    as [Hx3 Hy3].
  split; [rewrite Hx3, Hx2, Hx1 | rewrite Hy3, Hy2, Hy1]; reflexivity.
Qed.

End SmoothFacts.

Section CleanPathFacts.

Import Num Paths Smooth.
Local Open Scope Q_scope.

Variable Math_sqrt : Q -> Q.

Lemma lastOf_snoc (c : contour) p : lastOf (c ++ [p]) = p.
Proof. unfold lastOf. apply last_last. Qed.

Lemma apart_snoc (distance : point -> point -> Q) tolerance (path : contour) q :
  path <> [] -> apart distance tolerance path = true ->
  Qltb tolerance (distance q (lastOf path)) = true ->
  apart distance tolerance (path ++ [q]) = true.
Proof.
  induction path as [|p [|p' rest] IH]; intros Hne Ha Hq; [congruence | |].
  - cbn [app apart]. unfold lastOf in Hq. cbn [last] in Hq. rewrite Hq. reflexivity.
  - change (apart distance tolerance ((p :: p' :: rest) ++ [q]))
      with (Qltb tolerance (distance p' p)
            && apart distance tolerance ((p' :: rest) ++ [q])).
    change (apart distance tolerance (p :: p' :: rest))
      with (Qltb tolerance (distance p' p) && apart distance tolerance (p' :: rest))
      in Ha.
    apply andb_prop in Ha as [H1 H2]. rewrite H1. cbn [andb].
    apply IH; [discriminate | exact H2 | exact Hq].
Qed.

Lemma apart_removelast (distance : point -> point -> Q) tolerance (path : contour) :
  apart distance tolerance path = true ->
  apart distance tolerance (removelast path) = true.
Proof.
  induction path as [|p [|p' [|p'' rest]] IH]; intros Ha; try reflexivity.
  change (removelast (p :: p' :: p'' :: rest))
    with (p :: removelast (p' :: p'' :: rest)).
  change (removelast (p' :: p'' :: rest)) with (p' :: removelast (p'' :: rest)) in *.
  change (apart distance tolerance (p :: p' :: removelast (p'' :: rest)))
    with (Qltb tolerance (distance p' p)
          && apart distance tolerance (p' :: removelast (p'' :: rest))).
  change (apart distance tolerance (p :: p' :: p'' :: rest))
    with (Qltb tolerance (distance p' p)
          && apart distance tolerance (p' :: p'' :: rest)) in Ha.
  apply andb_prop in Ha as [H1 H2]. rewrite H1. cbn [andb]. apply IH, H2.
Qed.

Lemma keepApart_facts tolerance (all : contour) :
  forall rest cleaned,
  cleaned <> [] -> apart (separation Math_sqrt) tolerance cleaned = true ->
  incl cleaned all -> incl rest all ->
  let out := keepApart Math_sqrt tolerance cleaned rest in
  apart (separation Math_sqrt) tolerance out = true /\ incl out all
  /\ at_ out 0 = at_ cleaned 0 /\ out <> []
  /\ (length out <= length cleaned + length rest)%nat.
Proof.
  induction rest as [|current rest IH]; intros cleaned Hne Ha Hc Hr; cbn [keepApart].
  - cbv zeta. repeat split; try assumption. cbn [length]. lia.
  - destruct (Qltb tolerance (separation Math_sqrt current (lastOf cleaned))) eqn:Hfar.
    + destruct (IH (cleaned ++ [current])) as (H1 & H2 & H3 & H4 & H5).
      * destruct cleaned; discriminate.
      * apply apart_snoc; assumption.
      * apply incl_app; [exact Hc|]. intros p [<- | []]. apply Hr. now left.
      * intros p Hp. apply Hr. now right.
      * cbv zeta. repeat split; try assumption.
        -- rewrite H3. destruct cleaned; [congruence | reflexivity].
        -- rewrite length_app in H5. cbn [length] in *. lia.
    + destruct (IH cleaned Hne Ha Hc) as (H1 & H2 & H3 & H4 & H5).
      * intros p Hp. apply Hr. now right.
      * cbv zeta. repeat split; try assumption. cbn [length]. lia.
Qed.

(** X9. On a path of at least 3 points [cleanPath] keeps the first point,
    returns only points of the path, at most one more than it was given, and
    leaves every point more than 0.5 away from the one before it, by the
    distance it computes itself.  When more than 2 points remain the result is
    closed: it ends in a copy of its first point, or its last point is within
    0.5 of the first. *)
Theorem cleanPath_separates (path : contour) :
  (3 <= length path)%nat ->
  let out := cleanPath Math_sqrt path in
  at_ out 0 = at_ path 0
  /\ incl out path
  /\ (length out <= length path + 1)%nat
  /\ apart (separation Math_sqrt) (1 # 2) out = true
  /\ ((2 < length out)%nat ->
      lastOf out = at_ out 0
      \/ Qltb (1 # 2) (separation Math_sqrt (at_ out 0) (lastOf out)) = false).
Proof.
  intros Hlen. unfold cleanPath. apply Nat.ltb_ge in Hlen as Hb. rewrite Hb. cbv zeta.
  destruct path as [|first rest]; [cbn in Hlen; lia|]. cbn [tl].
  change (at_ (first :: rest) 0) with first.
  destruct (keepApart_facts (1 # 2) (first :: rest) rest [first])
    as (Ha & Hincl & Hfirst & Hne & Hcount).
  { discriminate. }
  { reflexivity. }
  { intros p [<- | []]. now left. }
  { intros p Hp. now right. }
  cbv zeta in *. set (cleaned := keepApart Math_sqrt (1 # 2) [first] rest) in *.
  change (at_ [first] 0) with first in Hfirst. cbn [length] in *.
  destruct (2 <? length cleaned)%nat eqn:Hmany.
  - destruct (Qltb (1 # 2) (separation Math_sqrt (at_ cleaned 0) (lastOf cleaned)))
      eqn:Hopen.
    + assert (Hat : at_ (cleaned ++ [at_ cleaned 0]) 0 = at_ cleaned 0).
      { destruct cleaned; [congruence | reflexivity]. }
      rewrite Hat, lastOf_snoc. repeat split.
      * exact Hfirst.
      * apply incl_app; [exact Hincl|]. intros p [<- | []]. rewrite Hfirst. now left.
      * rewrite length_app. cbn [length]. lia.
      * apply apart_snoc; assumption.
      * intros _. now left.
    + repeat split; try assumption; [lia|]. intros _. now right.
  - repeat split; try assumption; [lia|].
    apply Nat.ltb_ge in Hmany. intros Hc. lia.
Qed.

End CleanPathFacts.

Section CleanPathOnTrace.

Import Num Paths Smooth.
Local Open Scope Q_scope.

Variable Math_sqrt : Q -> Q.
Variable Math_atan2 : Q -> Q -> Q.
Hypothesis runtime : Runtime.facts Math_sqrt Math_atan2.

(** Two different pixels are at least one unit apart. *)
Lemma pixels_apart (p q : Tracer.pixel) :
  p <> q ->
  Qltb (1 # 2)
    (separation Math_sqrt (inject_Z (fst p), inject_Z (snd p))
                          (inject_Z (fst q), inject_Z (snd q))) = true.
Proof.
  intros Hne. apply Qltb_lt. unfold separation, square. cbn [fst snd].
  apply (Runtime.sqrt_above _ _ runtime); [discriminate|].
  destruct p as [a b], q as [c d]. cbn [fst snd].
  assert (Hd : (a - c <> 0 \/ b - d <> 0)%Z).
  { destruct (Z.eq_dec a c) as [-> | Hac]; [|left; lia].
    right. intros Hbd. apply Hne. f_equal. lia. }
  assert (Hsq : (1 <= (a - c) * (a - c) + (b - d) * (b - d))%Z).
  { pose proof (Z.square_nonneg (a - c)). pose proof (Z.square_nonneg (b - d)).
    destruct Hd as [Hd | Hd].
    - assert (1 <= (a - c) * (a - c))%Z by nia. lia.
    - assert (1 <= (b - d) * (b - d))%Z by nia. lia. }
  rewrite Zle_Qle in Hsq.
  rewrite inject_Z_plus, !inject_Z_mult in Hsq.
  unfold Zminus in Hsq. rewrite !inject_Z_plus, !inject_Z_opp in Hsq.
  change (inject_Z 1) with 1 in Hsq.
  eapply Qlt_le_trans; [|exact Hsq]. reflexivity.
Qed.

Lemma keepApart_distinct (rest : list Tracer.pixel) :
  forall (cleaned : list Tracer.pixel),
  cleaned <> [] -> NoDup (cleaned ++ rest) ->
  keepApart Math_sqrt (1 # 2) (toContour cleaned) (toContour rest)
  = toContour (cleaned ++ rest).
Proof.
  induction rest as [|current rest IH]; intros cleaned Hne Hnd.
  - rewrite app_nil_r. reflexivity.
  - cbn [toContour map keepApart].
    assert (Hlast : lastOf (toContour cleaned)
                    = (inject_Z (fst (last cleaned (0, 0)%Z)),
                       inject_Z (snd (last cleaned (0, 0)%Z)))).
    { destruct (exists_last Hne) as (l & a & ->).
      unfold toContour. rewrite map_app. cbn [map].
      rewrite lastOf_snoc, last_last. reflexivity. }
    rewrite Hlast, pixels_apart.
    + change [(inject_Z (fst current), inject_Z (snd current))]
        with (toContour [current]).
      unfold toContour at 1 2. rewrite <- map_app. fold (toContour (cleaned ++ [current])).
      rewrite IH.
      * rewrite <- app_assoc. reflexivity.
      * destruct cleaned; discriminate.
      * rewrite <- app_assoc. exact Hnd.
    + intros Heq. apply NoDup_remove_2 in Hnd. apply Hnd.
      apply in_or_app. left. rewrite Heq.
      destruct (exists_last Hne) as (l & a & ->). rewrite last_last.
      apply in_or_app. right. now left.
Qed.

(** X10. In revision A [cleanPath] never drops a traced point: on the polygon
    [findSingleOuterBoundary] returns, of 3 points or more, it only appends a
    copy of the first point.  Traced points are different pixels, hence at
    least one unit apart, and the tolerance is 0.5. *)
Theorem cleanPath_keeps_traced_points (pixels : Tracer.pixelGrid) (width height : Z) :
  Tracer.wellFormed pixels width height ->
  exists b,
    Tracer.findSingleOuterBoundary pixels width height = Ok b
    /\ ((3 <= length b)%nat ->
        cleanPath Math_sqrt (toContour b) = toContour b ++ [at_ (toContour b) 0]).
Proof.
  intros grid.
  destruct (findSingleOuterBoundary_distinct pixels width height grid) as (b & Hb & Hnd).
  exists b. split; [exact Hb|]. intros Hlen.
  unfold cleanPath.
  assert (Hc : length (toContour b) = length b) by (unfold toContour; apply length_map).
  rewrite Hc. apply Nat.ltb_ge in Hlen as Hlong. rewrite Hlong. cbv zeta.
  destruct b as [|first rest]; [cbn in Hlen; lia|].
  change (tl (toContour (first :: rest))) with (toContour rest).
  change [at_ (toContour (first :: rest)) 0] with (toContour [first]).
  rewrite keepApart_distinct by (try discriminate; exact Hnd).
  cbn [app]. rewrite Hc.
  replace (2 <? length (first :: rest))%nat with true
    by (symmetry; apply Nat.ltb_lt; lia).
  destruct (@exists_last _ (first :: rest) ltac:(discriminate)) as (l & a & Hla).
  assert (Hlast : lastOf (toContour (first :: rest))
                  = (inject_Z (fst a), inject_Z (snd a))).
  { rewrite Hla. unfold toContour. rewrite map_app. cbn [map]. apply lastOf_snoc. }
  rewrite Hlast.
  change (at_ (toContour (first :: rest)) 0)
    with (inject_Z (fst first), inject_Z (snd first)).
  rewrite pixels_apart; [reflexivity|].
  intros Heq. subst a. destruct l as [|p l].
  - cbn [app] in Hla. apply (f_equal (@length _)) in Hla. cbn [length] in *. lia.
  - cbn [app] in Hla. injection Hla as -> ->.
    apply NoDup_cons_iff in Hnd as [Hnot _]. apply Hnot.
    apply in_or_app. right. now left.
Qed.

End CleanPathOnTrace.

(** ** What the stages of revision A keep *)

Section StageInvariants.

Import Num Paths Smooth.
Local Open Scope Q_scope.

Variable Math_sqrt : Q -> Q.

Lemma keepDistinct_keepApart tolerance (rest : contour) :
  forall cleaned,
  Stages.keepDistinct Math_sqrt tolerance cleaned rest
  = keepApart Math_sqrt tolerance cleaned rest.
Proof.
  induction rest as [|current rest IH]; intros cleaned; [reflexivity|].
  cbn [Stages.keepDistinct keepApart].
  change (Stages.distance Math_sqrt current (lastOf cleaned))
    with (separation Math_sqrt current (lastOf cleaned)).
  destruct (Qltb tolerance (separation Math_sqrt current (lastOf cleaned))); apply IH.
Qed.

Lemma incl_removelast {A : Type} (l : list A) : incl (removelast l) l.
Proof.
  induction l as [|a [|b l] IH]; [intros x [] | intros x [] |].
  change (removelast (a :: b :: l)) with (a :: removelast (b :: l)).
  intros x [<- | Hx]; [now left | right; apply IH, Hx].
Qed.

Lemma at_removelast (c : contour) : (2 <= length c)%nat -> at_ (removelast c) 0 = at_ c 0.
Proof. destruct c as [|a [|b c]]; cbn [length]; intros; try lia; reflexivity. Qed.

(** X13. [removeDuplicatePoints] keeps the first point, returns only points of
    the contour, never more than it was given and at least one if there was
    one, and leaves every point more than [tolerance] away from the one before
    it, by the distance it computes itself. *)
Theorem removeDuplicatePoints_separates (c : contour) (tolerance : Q) :
  let out := Stages.removeDuplicatePoints Math_sqrt c tolerance in
  at_ out 0 = at_ c 0
  /\ incl out c
  /\ (length out <= length c)%nat
  /\ (c <> [] -> out <> [])
  /\ ((2 <= length c)%nat ->
      apart (Stages.distance Math_sqrt) tolerance out = true).
Proof.
  unfold Stages.removeDuplicatePoints.
  destruct c as [|first [|second rest]].
  - cbv zeta. repeat split; auto using incl_refl.
  - cbv zeta. repeat split; auto using incl_refl.
  - rewrite keepDistinct_keepApart.
    destruct (keepApart_facts Math_sqrt tolerance (first :: second :: rest)
                (second :: rest) [first])
      as (Ha & Hincl & Hfirst & Hne & Hcount).
    { discriminate. }
    { reflexivity. }
    { intros p [<- | []]. now left. }
    { intros p Hp. now right. }
    cbv zeta in *.
    set (cleaned := keepApart Math_sqrt tolerance [first] (second :: rest)) in *.
    change (at_ [first] 0) with first in Hfirst.
    change (at_ (first :: second :: rest) 0) with first.
    assert (Ha' : apart (Stages.distance Math_sqrt) tolerance cleaned = true)
      by exact Ha.
    cbn [length] in *.
    destruct (2 <? length cleaned)%nat eqn:Hmany.
    + apply Nat.ltb_lt in Hmany.
      destruct (Qltb (Stages.distance Math_sqrt (lastOf cleaned) (at_ cleaned 0))
                  tolerance).
      * repeat split.
        -- rewrite at_removelast by lia. exact Hfirst.
        -- intros p Hp. apply Hincl, incl_removelast, Hp.
        -- rewrite removelast_length. lia.
        -- intros _ Hnil. apply (f_equal (@length _)) in Hnil.
           rewrite removelast_length in Hnil. cbn [length] in Hnil. lia.
        -- intros _. apply apart_removelast, Ha'.
      * repeat split; auto; lia.
    + repeat split; auto; lia.
Qed.

(** *** Douglas-Peucker keeps the end points *)

Lemma lastOf_at (c : contour) : lastOf c = at_ c (length c - 1).
Proof.
  unfold lastOf, at_. induction c as [|a [|b c] IH]; [reflexivity | reflexivity |].
  change (last (a :: b :: c) (0, 0)) with (last (b :: c) (0, 0)). rewrite IH.
  cbn [length]. replace (S (S (length c)) - 1)%nat with (S (S (length c) - 1)) by lia.
  reflexivity.
Qed.

Lemma lastOf_skipn (c : contour) n : (n < length c)%nat -> lastOf (skipn n c) = lastOf c.
Proof.
  intros Hn. rewrite !lastOf_at, length_skipn. unfold at_.
  rewrite nth_skipn. f_equal. lia.
Qed.

Lemma at_firstn (c : contour) n : (1 <= n)%nat -> at_ (firstn n c) 0 = at_ c 0.
Proof.
  intros Hn. unfold at_. rewrite nth_firstn.
  replace (0 <? n)%nat with true by (symmetry; apply Nat.ltb_lt; lia). reflexivity.
Qed.

Lemma lastOf_app (c c' : contour) : c' <> [] -> lastOf (c ++ c') = lastOf c'.
Proof.
  intros Hne. destruct (exists_last Hne) as (l & a & ->).
  rewrite app_assoc, !lastOf_snoc. reflexivity.
Qed.

Lemma incl_firstn {A : Type} n (l : list A) : incl (firstn n l) l.
Proof.
  intros x Hx. rewrite <- (firstn_skipn n l). apply in_or_app. now left.
Qed.

Lemma incl_skipn {A : Type} n (l : list A) : incl (skipn n l) l.
Proof.
  intros x Hx. rewrite <- (firstn_skipn n l). apply in_or_app. now right.
Qed.

Lemma douglasPeucker_ends tolerance :
  0 <= tolerance ->
  forall fuel points out,
  Stages.douglasPeucker Math_sqrt fuel points tolerance = Ok out ->
  incl out points /\ at_ out 0 = at_ points 0 /\ lastOf out = lastOf points.
Proof.
  intros Htol. induction fuel as [|fuel IH]; intros points out Hout; [discriminate|].
  cbn [Stages.douglasPeucker] in Hout.
  destruct (length points <=? 2)%nat eqn:Hshort.
  - injection Hout as <-. auto using incl_refl.
  - apply Nat.leb_gt in Hshort.
    destruct (Stages.farthest Math_sqrt points (seq 1 (length points - 2)) (0, O))
      as [[maxDistance maxIndex]|] eqn:Hm; [|discriminate].
    cbn [bind] in Hout.
    destruct (Qltb tolerance maxDistance) eqn:Hfar.
    + apply Qltb_lt in Hfar.
      assert (Hidx : (1 <= maxIndex <= length points - 2)%nat).
      { apply (farthest_index Math_sqrt points (maxDistance, maxIndex) Hm).
        cbn [fst]. eapply Qle_lt_trans; eauto. }
      destruct (Stages.douglasPeucker Math_sqrt fuel (firstn (maxIndex + 1) points)
                  tolerance) as [left|] eqn:Hleft; [|discriminate].
      destruct (Stages.douglasPeucker Math_sqrt fuel (skipn maxIndex points)
                  tolerance) as [right|] eqn:Hright; [|discriminate].
      cbn [bind] in Hout. injection Hout as <-.
      destruct (IH _ _ Hleft) as (Hl1 & Hl2 & _).
      destruct (IH _ _ Hright) as (Hr1 & _ & Hr3).
      destruct (douglasPeucker_length Math_sqrt tolerance Htol _ _ _ Hleft) as [_ Hll].
      destruct (douglasPeucker_length Math_sqrt tolerance Htol _ _ _ Hright) as [_ Hrl].
      rewrite length_firstn in Hll. rewrite length_skipn in Hrl.
      specialize (Hll ltac:(lia)). specialize (Hrl ltac:(lia)).
      split; [|split].
      * apply incl_app.
        -- intros p Hp. apply incl_removelast, Hl1, incl_firstn in Hp. exact Hp.
        -- intros p Hp. apply Hr1, incl_skipn in Hp. exact Hp.
      * destruct left as [|a [|b left]]; cbn [length] in Hll; try lia.
        change (removelast (a :: b :: left)) with (a :: removelast (b :: left)).
        cbn [app]. unfold at_ at 1. cbn [nth].
        change a with (at_ (a :: b :: left) 0). rewrite Hl2. apply at_firstn. lia.
      * rewrite lastOf_app by (destruct right; [cbn in Hrl; lia | discriminate]).
        rewrite Hr3. apply lastOf_skipn. lia.
    + injection Hout as <-. split; [|split].
      * intros p [<- | [<- | []]]; apply at_In; lia.
      * reflexivity.
      * rewrite (lastOf_at points). reflexivity.
Qed.

(** X14. [simplifyContour] returns on every contour and every tolerance; its
    result keeps the first and the last point, consists of points of the
    contour only, and has at least 2 points if the contour has. *)
Theorem simplifyContour_keeps_ends (c : contour) (tolerance : Q) :
  exists out,
    Stages.simplifyContour Math_sqrt c tolerance = Ok out
    /\ at_ out 0 = at_ c 0
    /\ lastOf out = lastOf c
    /\ incl out c
    /\ (length out <= length c)%nat
    /\ ((2 <= length c)%nat -> (2 <= length out)%nat).
Proof.
  destruct (simplifyContour_returns Math_sqrt c tolerance) as (out & Hout & Hlen).
  exists out. split; [exact Hout|].
  unfold Stages.simplifyContour in Hout.
  destruct (length c <=? 2)%nat eqn:Hshort.
  - injection Hout as <-. auto 6 using incl_refl.
  - assert (Htol : 0 <= Stages.scaledTolerance tolerance).
    { pose proof (scaledTolerance_bounds tolerance). lra. }
    destruct (douglasPeucker_ends _ Htol _ _ _ Hout) as (Hincl & Hfirst & Hlast).
    destruct (douglasPeucker_length Math_sqrt _ Htol _ _ _ Hout) as [_ Htwo].
    auto 6.
Qed.

End StageInvariants.

Section NormaliseFacts.

Import Num.
Local Open Scope Q_scope.

Variable fl : Q -> Q.
Hypothesis rounding : Rounding.sound fl.

Let twoPi := RoundedAngle.twoPi fl.

Lemma rounding_respects x y : x == y -> fl x == fl y.
Proof.
  intros Hxy. apply Qle_antisym; apply (Rounding.monotone fl rounding); lra.
Qed.

Lemma twoPi_rounded : 1 <= twoPi /\ fl twoPi == twoPi.
Proof.
  subst twoPi. unfold RoundedAngle.twoPi. split.
  - pose proof (Rounding.one fl rounding) as Hone.
    assert (H : fl 1 <= fl (2 * Math_PI)).
    { apply (Rounding.monotone fl rounding). pose proof Math_PI_positive.
      unfold Math_PI in *. lra. }
    lra.
  - apply (Rounding.idempotent fl rounding).
Qed.

(** With the exact arithmetic for [fl] the loops are those of [Stages]. *)
Lemma raiseAngle_exact fuel :
  forall a, RoundedAngle.raiseAngle Rounding.exact fuel a = Stages.raiseAngle fuel a.
Proof.
  induction fuel as [|fuel IH]; intros a; [reflexivity|].
  cbn [RoundedAngle.raiseAngle Stages.raiseAngle].
  destruct (Qltb a 0); [apply IH | reflexivity].
Qed.

Lemma lowerAngle_exact fuel :
  forall a, RoundedAngle.lowerAngle Rounding.exact fuel a = Stages.lowerAngle fuel a.
Proof.
  induction fuel as [|fuel IH]; intros a; [reflexivity|].
  cbn [RoundedAngle.lowerAngle Stages.lowerAngle].
  change (RoundedAngle.twoPi Rounding.exact) with Stages.twoPi.
  destruct (Qle_bool Stages.twoPi a); [apply IH | reflexivity].
Qed.

(** X15. On an angle between - 2 * Math.PI and 2 * Math.PI -- [Math.atan2]
    returns angles between - Math.PI and Math.PI -- each of the two
    normalisation loops of [straightenNearOrthogonalLines] ends after at most
    one pass, and the angle they leave is in [0, 2 * Math.PI), whatever the
    rounding of the two additions. *)
Theorem normalizeAngle_one_pass_each (angle : Q) :
  - twoPi <= angle <= twoPi ->
  let raised := RoundedAngle.raiseAngle fl 1 angle in
  let normalized := RoundedAngle.lowerAngle fl 1 raised in
  Qltb raised 0 = false
  /\ Qle_bool twoPi normalized = false
  /\ (forall more1 more2 : nat,
        RoundedAngle.lowerAngle fl (1 + more2)
          (RoundedAngle.raiseAngle fl (1 + more1) angle)
        = normalized)
  /\ 0 <= normalized < twoPi.
Proof.
  intros [Hlow Hhigh] raised normalized.
  destruct twoPi_rounded as [Hpos Hfix].
  pose proof (rounding_zero fl rounding) as Hzero.
  assert (Hraised : 0 <= raised <= twoPi).
  { subst raised. cbn [RoundedAngle.raiseAngle]. fold twoPi.
    destruct (Qltb angle 0) eqn:Hneg.
    - apply Qltb_lt in Hneg.
      assert (H1 : fl 0 <= fl (angle + twoPi))
        by (apply (Rounding.monotone fl rounding); lra).
      assert (H2 : fl (angle + twoPi) <= fl twoPi)
        by (apply (Rounding.monotone fl rounding); lra).
      lra.
    - apply Qltb_ge in Hneg. lra. }
  assert (Hended : Qltb raised 0 = false) by (apply Qltb_ge; lra).
  assert (Hmore1 : forall more1,
             RoundedAngle.raiseAngle fl (1 + more1) angle = raised).
  { intros more1. subst raised. cbn [Nat.add RoundedAngle.raiseAngle]. fold twoPi.
    destruct (Qltb angle 0) eqn:Hneg; [|reflexivity].
    cbn [RoundedAngle.raiseAngle] in Hended. fold twoPi in Hended.
    rewrite Hneg in Hended.
    destruct more1 as [|more1]; [reflexivity|].
    cbn [RoundedAngle.raiseAngle]. rewrite Hended. reflexivity. }
  assert (Hnormalized : 0 <= normalized < twoPi).
  { subst normalized. cbn [RoundedAngle.lowerAngle]. fold twoPi.
    destruct (Qle_bool twoPi raised) eqn:Hfull.
    - apply Qle_bool_iff in Hfull.
      assert (H : fl (raised - twoPi) == fl 0) by (apply rounding_respects; lra).
      lra.
    - assert (Hlt : raised < twoPi).
      { apply Qnot_le_lt. intros Hle. apply Qle_bool_iff in Hle. congruence. }
      lra. }
  assert (Hended2 : Qle_bool twoPi normalized = false).
  { destruct (Qle_bool twoPi normalized) eqn:E; [|reflexivity].
    apply Qle_bool_iff in E. lra. }
  split; [exact Hended|]. split; [exact Hended2|]. split; [|exact Hnormalized].
  intros more1 more2. rewrite Hmore1.
  subst normalized. cbn [Nat.add RoundedAngle.lowerAngle]. fold twoPi.
  destruct (Qle_bool twoPi raised) eqn:Hfull; [|reflexivity].
  cbn [RoundedAngle.lowerAngle] in Hended2. fold twoPi in Hended2.
  rewrite Hfull in Hended2.
  destruct more2 as [|more2]; [reflexivity|].
  cbn [RoundedAngle.lowerAngle]. fold twoPi. rewrite Hended2. reflexivity.
Qed.

End NormaliseFacts.

Section BoxFacts.

Import Num Paths Smooth.
Local Open Scope Q_scope.

Variable Math_sqrt : Q -> Q.
Variable Math_atan2 : Q -> Q -> Q.
Variables minX maxX minY maxY : Q.

Let box := inBox minX maxX minY maxY.

Lemma box_incl (c c' : contour) : incl c' c -> Forall box c -> Forall box c'.
Proof.
  intros Hincl Hc. rewrite Forall_forall in *. intros p Hp. apply Hc, Hincl, Hp.
Qed.

Lemma cleanPath_incl (path : contour) : incl (cleanPath Math_sqrt path) path.
Proof.
  destruct (Nat.lt_ge_cases (length path) 3) as [Hshort | Hlen].
  - unfold cleanPath. apply Nat.ltb_lt in Hshort. rewrite Hshort. apply incl_refl.
  - unfold cleanPath. apply Nat.ltb_ge in Hlen as Hb. rewrite Hb. cbv zeta.
    destruct path as [|first rest]; [cbn in Hlen; lia|]. cbn [tl].
    change (at_ (first :: rest) 0) with first.
    destruct (keepApart_facts Math_sqrt (1 # 2) (first :: rest) rest [first])
      as (_ & Hincl & Hfirst & _).
    { discriminate. }
    { reflexivity. }
    { intros p [<- | []]. now left. }
    { intros p Hp. now right. }
    cbv zeta in *. change (at_ [first] 0) with first in Hfirst.
    destruct (2 <? _)%nat; [|exact Hincl].
    destruct (Qltb _ _); [|exact Hincl].
    apply incl_app; [exact Hincl|]. intros p [<- | []]. rewrite Hfirst. now left.
Qed.

Lemma cleanPath_length (path : contour) :
  (length (cleanPath Math_sqrt path) <= length path + 1)%nat
  /\ (path <> [] -> cleanPath Math_sqrt path <> []).
Proof.
  destruct (Nat.lt_ge_cases (length path) 3) as [Hshort | Hlen].
  - unfold cleanPath. apply Nat.ltb_lt in Hshort. rewrite Hshort. split; [lia | auto].
  - unfold cleanPath. apply Nat.ltb_ge in Hlen as Hb. rewrite Hb. cbv zeta.
    destruct path as [|first rest]; [cbn in Hlen; lia|]. cbn [tl].
    destruct (keepApart_facts Math_sqrt (1 # 2) (first :: rest) rest
                [at_ (first :: rest) 0])
      as (_ & _ & _ & Hne & Hcount).
    { discriminate. }
    { reflexivity. }
    { intros p [<- | []]. now left. }
    { intros p Hp. now right. }
    cbv zeta in *. cbn [length] in *.
    destruct (2 <? _)%nat; [|split; [lia | auto]].
    destruct (Qltb _ _); [|split; [lia | auto]].
    split; [rewrite length_app; cbn [length]; lia|].
    intros _ Hnil. apply app_eq_nil in Hnil as [_ Hnil]. discriminate.
Qed.

Lemma simplifiedPath_facts (path : contour) (simplify : Q) :
  exists out,
    RevA.simplifiedPath Math_sqrt path simplify = Ok out
    /\ incl out path /\ (length out <= length path)%nat
    /\ (path <> [] -> out <> []).
Proof.
  unfold RevA.simplifiedPath. destruct (truthy simplify).
  - destruct (simplifyContour_returns Math_sqrt path (simplify * (3 # 10)))
      as (out & Hout & Hlen).
    exists out. split; [exact Hout|].
    unfold Stages.simplifyContour in Hout.
    destruct (length path <=? 2)%nat eqn:Hshort.
    + injection Hout as <-. auto using incl_refl.
    + assert (Htol : 0 <= Stages.scaledTolerance (simplify * (3 # 10))).
      { pose proof (scaledTolerance_bounds (simplify * (3 # 10))). lra. }
      destruct (douglasPeucker_ends Math_sqrt _ Htol _ _ _ Hout) as (Hincl & _).
      destruct (douglasPeucker_length Math_sqrt _ Htol _ _ _ Hout) as [_ Htwo].
      apply Nat.leb_gt in Hshort. repeat split; try assumption.
      intros _ Hnil. subst out. cbn [length] in Htwo. lia.
  - exists path. auto using incl_refl.
Qed.

Lemma snapSegment_box tolerance (current next : point) :
  box current -> box next -> box (Stages.snapSegment Math_atan2 tolerance current next).
Proof.
  subst box. unfold inBox, Stages.snapSegment. cbv zeta. intros [Hcx Hcy] [Hnx Hny].
  destruct (_ || _ || _); [cbn [fst snd]; auto|].
  destruct (_ || _); cbn [fst snd]; auto.
Qed.

Lemma straightenWith_box tolerance (c : contour) :
  Forall box c -> Forall box (Stages.straightenWith Math_atan2 tolerance c).
Proof.
  intros Hc. unfold Stages.straightenWith.
  destruct (length c <? 2)%nat eqn:Hshort; [exact Hc|].
  apply Nat.ltb_ge in Hshort. rewrite Forall_forall in Hc.
  constructor; [apply Hc, at_In; lia|].
  apply Forall_forall. intros q Hq. apply in_map_iff in Hq as (i & <- & Hi).
  apply in_seq in Hi.
  apply snapSegment_box; apply Hc, at_In; [lia|].
  apply Nat.mod_upper_bound. lia.
Qed.

Lemma straightenWith_count tolerance (c : contour) :
  (length (Stages.straightenWith Math_atan2 tolerance c) <= length c + 1)%nat
  /\ (c <> [] -> Stages.straightenWith Math_atan2 tolerance c <> []).
Proof.
  unfold Stages.straightenWith. destruct (length c <? 2)%nat.
  - split; [lia | auto].
  - cbn [length]. rewrite length_map, length_seq. split; [lia | discriminate].
Qed.

Lemma removeDuplicatePoints_facts (c : contour) tolerance :
  incl (Stages.removeDuplicatePoints Math_sqrt c tolerance) c
  /\ (length (Stages.removeDuplicatePoints Math_sqrt c tolerance) <= length c)%nat
  /\ (c <> [] -> Stages.removeDuplicatePoints Math_sqrt c tolerance <> []).
Proof.
  unfold Stages.removeDuplicatePoints.
  destruct c as [|first [|second rest]]; [auto using incl_refl | auto using incl_refl |].
  rewrite keepDistinct_keepApart.
  destruct (keepApart_facts Math_sqrt tolerance (first :: second :: rest)
              (second :: rest) [first])
    as (_ & Hincl & _ & Hne & Hcount).
  { discriminate. }
  { reflexivity. }
  { intros p [<- | []]. now left. }
  { intros p Hp. now right. }
  cbv zeta in *.
  set (cleaned := keepApart Math_sqrt tolerance [first] (second :: rest)) in *.
  cbn [length] in *.
  destruct (2 <? length cleaned)%nat eqn:Hmany; [|repeat split; auto; lia].
  apply Nat.ltb_lt in Hmany.
  destruct (Qltb _ tolerance); [|repeat split; auto; lia].
  repeat split.
  - intros p Hp. apply Hincl, incl_removelast, Hp.
  - rewrite removelast_length. lia.
  - intros _ Hnil. apply (f_equal (@length _)) in Hnil.
    rewrite removelast_length in Hnil. cbn [length] in Hnil. lia.
Qed.

Lemma refinedPath_box (boundary : contour) (simplify : Q) :
  Forall (inBox minX maxX minY maxY) boundary ->
  exists out,
    PipelineA.refinedPath Math_sqrt Math_atan2 boundary simplify = Ok out
    /\ Forall (inBox minX maxX minY maxY) out.
Proof.
  intros Hb. unfold PipelineA.refinedPath. cbv zeta.
  set (cleaned := cleanPath Math_sqrt boundary).
  assert (Hcb : Forall box cleaned) by (apply (box_incl boundary), Hb; apply cleanPath_incl).
  destruct (smoothContour_stays_in_box_core minX maxX minY maxY cleaned Hcb) as [_ Hs2].
  destruct (simplifiedPath_facts (smoothContour cleaned) simplify)
    as (simplified & Hsimp & Hincl & _).
  rewrite Hsimp. cbn [bind]. eexists. split; [reflexivity|].
  unfold RevA.straightenNearOrthogonalLines.
  set (straightened := Stages.straightenWith Math_atan2 (3 # 100) simplified).
  destruct (removeDuplicatePoints_facts straightened (1 # 1000)) as (Hd1 & _).
  apply (box_incl straightened); [exact Hd1|].
  apply straightenWith_box. apply (box_incl (smoothContour cleaned)); assumption.
Qed.

Lemma refinedPath_count (boundary out : contour) (simplify : Q) :
  PipelineA.refinedPath Math_sqrt Math_atan2 boundary simplify = Ok out ->
  (length out <= length boundary + 2)%nat /\ (boundary <> [] -> out <> []).
Proof.
  unfold PipelineA.refinedPath. cbv zeta.
  set (cleaned := cleanPath Math_sqrt boundary).
  destruct (cleanPath_length boundary) as [Hc1 Hc2]. fold cleaned in Hc1, Hc2.
  pose proof (smoothContour_length cleaned) as Hs1.
  destruct (simplifiedPath_facts (smoothContour cleaned) simplify)
    as (simplified & Hsimp & _ & Hlen & Hne).
  rewrite Hsimp. cbn [bind]. intros [= <-].
  unfold RevA.straightenNearOrthogonalLines.
  set (straightened := Stages.straightenWith Math_atan2 (3 # 100) simplified).
  destruct (straightenWith_count (3 # 100) simplified) as [Ht1 Ht2].
  fold straightened in Ht1, Ht2.
  destruct (removeDuplicatePoints_facts straightened (1 # 1000)) as (_ & Hd2 & Hd3).
  split; [lia|].
  intros Hnonempty. apply Hd3, Ht2, Hne.
  intros Hnil. apply (f_equal (@length _)) in Hnil. rewrite Hs1 in Hnil.
  destruct cleaned; [exact (Hc2 Hnonempty eq_refl) | discriminate].
Qed.

(** X16. The refinement chain of revision A -- [cleanPath], [smoothContour],
    the simplification, [straightenNearOrthogonalLines] and
    [removeDuplicatePoints] -- returns on every boundary and every setting; its
    polygon is not empty unless the boundary is and has at most 2 points more
    than the boundary; in exact arithmetic it stays inside every box that
    holds the boundary. *)
Theorem refinedPath_stays_in_box (boundary : contour) (simplify : Q) :
  Forall (inBox minX maxX minY maxY) boundary ->
  exists out,
    PipelineA.refinedPath Math_sqrt Math_atan2 boundary simplify = Ok out
    /\ Forall (inBox minX maxX minY maxY) out
    /\ (length out <= length boundary + 2)%nat
    /\ (boundary <> [] -> out <> []).
Proof.
  intros Hb. destruct (refinedPath_box boundary simplify Hb) as (out & Hrun & Hbox).
  destruct (refinedPath_count boundary out simplify Hrun) as [Hlen Hne].
  exists out. auto.
Qed.

End BoxFacts.

(** ** The DXF writer of revision A *)

Section WriterFacts.

Import Num Paths.
Local Open Scope string_scope.
Local Open Scope list_scope.

Variable Math_sqrt : Q -> Q.
Variable numberToString : Q -> string.

Let lineEntity := RevA.lineEntity numberToString.

(** The groups of one LINE entity. *)
Let entityGroups (layer : string) (segment : point * point) : list (string * string) :=
  [ ("0", "LINE"); ("8", layer);
    ("10", numberToString (fst (fst segment)));
    ("20", numberToString (snd (fst segment)));
    ("30", "0.0");
    ("11", numberToString (fst (snd segment)));
    ("21", numberToString (snd (snd segment)));
    ("31", "0.0") ].

Lemma groups_app (a : list string) :
  forall ga, RevA.groups a = Some ga ->
  forall b, RevA.groups (a ++ b)
            = match RevA.groups b with
              | Some gb => Some (ga ++ gb)
              | None => None
              end.
Proof.
  intros ga. revert a. induction ga as [|g ga IH]; intros a Ha b.
  - destruct a as [|code [|value rest]]; cbn [RevA.groups] in Ha; try discriminate.
    + cbn [app]. destruct (RevA.groups b); reflexivity.
    + destruct (RevA.groups rest); discriminate.
  - destruct a as [|code [|value rest]]; cbn [RevA.groups] in Ha; try discriminate.
    destruct (RevA.groups rest) as [gs|] eqn:Hrest; [|discriminate].
    injection Ha as <- <-. cbn [app RevA.groups].
    rewrite (IH rest Hrest b). destruct (RevA.groups b); reflexivity.
Qed.

Lemma groups_entities layer (segments : list (point * point)) :
  RevA.groups (flat_map (fun s => lineEntity layer (fst s) (snd s)) segments)
  = Some (flat_map (entityGroups layer) segments).
Proof.
  induction segments as [|s segments IH]; [reflexivity|].
  cbn [flat_map].
  rewrite (groups_app (lineEntity layer (fst s) (snd s)) (entityGroups layer s) eq_refl),
    IH.
  reflexivity.
Qed.

Lemma validGroups_entities layer (segments : list (point * point)) rest :
  RevA.validGroups true (flat_map (entityGroups layer) segments ++ rest)
  = RevA.validGroups true rest.
Proof.
  induction segments as [|s segments IH]; [reflexivity|].
  cbn [flat_map]. rewrite <- app_assoc. subst entityGroups. cbv beta.
  cbn [app RevA.validGroups RevA.isGroup fst snd String.eqb Ascii.eqb Bool.eqb andb negb].
  exact IH.
Qed.

Lemma count_entities layer (segments : list (point * point)) :
  length (filter (RevA.isGroup "0" "LINE") (flat_map (entityGroups layer) segments))
  = length segments.
Proof.
  induction segments as [|s segments IH]; [reflexivity|].
  cbn [flat_map]. rewrite filter_app, length_app, IH. subst entityGroups. cbv beta.
  cbn [filter RevA.isGroup fst snd String.eqb Ascii.eqb Bool.eqb andb length].
  reflexivity.
Qed.

Lemma flat_map_unless {A B : Type} (skip : A -> bool) (f : A -> list B) (l : list A) :
  flat_map (fun a => if skip a then [] else f a) l
  = flat_map f (filter (fun a => negb (skip a)) l).
Proof.
  induction l as [|a l IH]; [reflexivity|].
  cbn [flat_map filter]. destruct (skip a); cbn [negb flat_map]; rewrite IH; reflexivity.
Qed.

(** A document with the LINE entities of [segments] between the header and
    the closing records. *)
Lemma document_valid layer (segments : list (point * point)) :
  let content :=
    RevA.SimpleDxfWriter
    ++ flat_map (fun s => lineEntity layer (fst s) (snd s)) segments
    ++ [ "0"; "ENDSEC"; "0"; "EOF" ] in
  RevA.structurallyValid content = true
  /\ RevA.lineEntities content = length segments
  /\ last content "" = "EOF".
Proof.
  cbv zeta.
  assert (Hgroups :
            RevA.groups (RevA.SimpleDxfWriter
                         ++ flat_map (fun s => lineEntity layer (fst s) (snd s)) segments
                         ++ [ "0"; "ENDSEC"; "0"; "EOF" ])
            = Some ([ ("0", "SECTION"); ("2", "HEADER"); ("0", "ENDSEC");
                      ("0", "SECTION"); ("2", "ENTITIES") ]
                    ++ flat_map (entityGroups layer) segments
                    ++ [ ("0", "ENDSEC"); ("0", "EOF") ])).
  { rewrite (groups_app RevA.SimpleDxfWriter _ eq_refl).
    rewrite (groups_app _ _ (groups_entities layer segments)). reflexivity. }
  split; [|split].
  - unfold RevA.structurallyValid. rewrite Hgroups.
    cbn [app RevA.validGroups RevA.isGroup fst snd String.eqb Ascii.eqb Bool.eqb andb negb].
    rewrite validGroups_entities. reflexivity.
  - unfold RevA.lineEntities. rewrite Hgroups.
    rewrite !filter_app, !length_app, count_entities.
    cbn [filter RevA.isGroup fst snd String.eqb Ascii.eqb Bool.eqb andb length]. lia.
  - rewrite app_assoc.
    change [ "0"; "ENDSEC"; "0"; "EOF" ] with ([ "0"; "ENDSEC"; "0" ] ++ [ "EOF" ]).
    rewrite app_assoc. apply last_last.
Qed.

Lemma keepSeparated_length minDistance (rest : contour) :
  forall cleaned,
  (length (RevA.keepSeparated Math_sqrt minDistance cleaned rest)
   <= length cleaned + length rest)%nat.
Proof.
  induction rest as [|current rest IH]; intros cleaned; cbn [RevA.keepSeparated length].
  - lia.
  - destruct (Qle_bool _ _).
    + specialize (IH (cleaned ++ [current])). rewrite length_app in IH.
      cbn [length] in IH. lia.
    + specialize (IH cleaned). lia.
Qed.

Lemma cleanPoints_length (points : contour) :
  (length (RevA.cleanPoints Math_sqrt points) <= length points + 1)%nat.
Proof.
  unfold RevA.cleanPoints.
  destruct points as [|first [|second rest]]; cbn [length]; try lia.
  pose proof (keepSeparated_length (1 # 100) (second :: rest) [first]) as Hlen.
  cbv zeta. cbn [length] in Hlen.
  destruct (2 <? _)%nat; [|lia].
  destruct (Qle_bool _ _); [|lia].
  rewrite length_app. cbn [length]. lia.
Qed.

(** What [addPolyline] appends: the LINE entities of some segments, no more
    than the cleaned polygon has points. *)
Lemma addPolyline_segments (w : RevA.writer) (points : contour) (layer : string) :
  exists segments : list (point * point),
    RevA.addPolyline Math_sqrt numberToString w points layer
    = w ++ flat_map (fun s => lineEntity layer (fst s) (snd s)) segments
    /\ (length segments <= length points + 1)%nat.
Proof.
  unfold RevA.addPolyline. destruct (length points <? 2)%nat.
  - exists []. cbn [flat_map length]. rewrite app_nil_r. split; [reflexivity | lia].
  - cbv zeta. set (cleanedPoints := RevA.cleanPoints Math_sqrt points).
    rewrite flat_map_unless.
    set (kept := filter _ (seq 0 (length cleanedPoints))).
    exists (map (fun i => (at_ cleanedPoints i,
                           at_ cleanedPoints ((i + 1) mod length cleanedPoints))) kept).
    split.
    + f_equal. rewrite flat_map_concat_map, flat_map_concat_map, map_map. reflexivity.
    + rewrite length_map. subst kept.
      pose proof (filter_length_le
                    (fun a => negb (Qltb (Stages.distance Math_sqrt
                                            (at_ cleanedPoints
                                               ((a + 1) mod length cleanedPoints))
                                            (at_ cleanedPoints a)) (1 # 1000)))
                    (seq 0 (length cleanedPoints))) as Hle.
      rewrite length_seq in Hle.
      pose proof (cleanPoints_length points) as Hclean. fold cleanedPoints in Hclean.
      eapply Nat.le_trans; [exact Hle | exact Hclean].
Qed.

(** X17. Whatever polygon and layer name [addPolyline] is given, and whatever
    text the numbers print as, the document [toString] returns is well formed:
    the text is the lines joined by newlines, the lines pair up into complete
    sections, each opened by [0 SECTION] with its name and closed by
    [0 ENDSEC], the last pair is the end-of-file marker, and there are at most
    as many LINE entities as the polygon has points, plus one. *)
Theorem every_document_is_valid (points : contour) (layer : string) :
  let document :=
    RevA.toString
      (RevA.addPolyline Math_sqrt numberToString RevA.SimpleDxfWriter points layer) in
  fst document = RevA.join (snd document)
  /\ RevA.structurallyValid (snd document) = true
  /\ last (snd document) "" = "EOF"
  /\ (RevA.lineEntities (snd document) <= length points + 1)%nat.
Proof.
  cbv zeta. unfold RevA.toString. cbn [fst snd]. split; [reflexivity|].
  destruct (addPolyline_segments RevA.SimpleDxfWriter points layer)
    as (segments & -> & Hcount).
  rewrite <- app_assoc.
  destruct (document_valid layer segments) as (Hvalid & Hlines & Hlast).
  split; [exact Hvalid|]. split; [exact Hlast|]. rewrite Hlines. exact Hcount.
Qed.

End WriterFacts.

Section ClosedPolygon.

Import Num Paths Runtime.
Local Open Scope Q_scope.

Variable Math_sqrt : Q -> Q.
Variable Math_atan2 : Q -> Q -> Q.
Variable numberToString : Q -> string.
Hypothesis runtime : Runtime.facts Math_sqrt Math_atan2.

Lemma squaredDistance_sym p q : squaredDistance p q == squaredDistance q p.
Proof. unfold squaredDistance. cbv zeta. ring. Qed.

Lemma far_kept tolerance p q :
  0 <= tolerance -> farApart tolerance p q = true ->
  Qle_bool tolerance (Stages.distance Math_sqrt p q) = true
  /\ Qle_bool tolerance (Stages.distance Math_sqrt q p) = true.
Proof.
  intros Htol Hfar. apply Qltb_lt in Hfar.
  split; apply Qle_bool_iff, Qlt_le_weak;
    apply (Runtime.sqrt_above _ _ runtime); try assumption.
  fold (squaredDistance q p). rewrite squaredDistance_sym. exact Hfar.
Qed.

Lemma far_not_skipped p q :
  farApart (1 # 100) p q = true ->
  Qltb (Stages.distance Math_sqrt p q) (1 # 1000) = false.
Proof.
  intros Hfar. destruct (far_kept (1 # 100) p q ltac:(discriminate) Hfar) as [H _].
  apply Qle_bool_iff in H. apply Qltb_ge. lra.
Qed.

Lemma same_point_skipped p :
  Qltb (Stages.distance Math_sqrt p p) (1 # 1000) = true.
Proof.
  apply Qltb_lt. apply (Runtime.sqrt_below _ _ runtime).
  - apply squaredDistance_nonneg.
  - reflexivity.
  - assert (H0 : (fst p - fst p) * (fst p - fst p) + (snd p - snd p) * (snd p - snd p) == 0)
      by ring.
    rewrite H0. reflexivity.
Qed.

Lemma keepSeparated_all tolerance (rest : contour) :
  0 <= tolerance ->
  forall cleaned,
  separatedFrom tolerance (lastOf cleaned) rest = true ->
  RevA.keepSeparated Math_sqrt tolerance cleaned rest = cleaned ++ rest.
Proof.
  intros Htol. induction rest as [|current rest IH]; intros cleaned Hsep;
    cbn [RevA.keepSeparated].
  - symmetry. apply app_nil_r.
  - cbn [separatedFrom] in Hsep. apply andb_prop in Hsep as [Hfar Hrest].
    destruct (far_kept tolerance _ _ Htol Hfar) as [Hkeep _]. rewrite Hkeep.
    rewrite IH by (rewrite lastOf_snoc; exact Hrest).
    rewrite <- app_assoc. reflexivity.
Qed.

Lemma flat_map_same {A B : Type} (f g : A -> list B) (items : list A) :
  (forall a, In a items -> f a = g a) -> flat_map f items = flat_map g items.
Proof.
  induction items as [|a items IH]; intros Hsame; [reflexivity|].
  cbn [flat_map]. rewrite (Hsame a (or_introl eq_refl)), IH; [reflexivity|].
  intros b Hb. apply Hsame. right. exact Hb.
Qed.

Lemma separatedFrom_at tolerance (rest : contour) :
  forall previous i,
  separatedFrom tolerance previous rest = true -> (i < length rest)%nat ->
  farApart tolerance (at_ (previous :: rest) (S i)) (at_ (previous :: rest) i) = true.
Proof.
  induction rest as [|next rest IH]; intros previous i Hsep Hi; [cbn in Hi; lia|].
  cbn [separatedFrom] in Hsep. apply andb_prop in Hsep as [Hfar Hrest].
  destruct i as [|i]; [exact Hfar|].
  cbn [length] in Hi. apply (IH next i Hrest). lia.
Qed.

(** X18. A polygon of 3 or more points, each clearly more than 0.01 away from
    the one before it all around, is written as its sides in order: one LINE
    entity from every point to the next and one from the last point back to
    the first.  [cleanPoints] appends a copy of the first point, and the
    zero-length segment that copy would start is skipped. *)
Theorem addPolyline_writes_closed_polygon (w : RevA.writer) (points : contour)
  (layer : string) :
  (3 <= length points)%nat ->
  separatedCycle (1 # 100) points = true ->
  RevA.addPolyline Math_sqrt numberToString w points layer
  = w ++ flat_map
           (fun i => RevA.lineEntity numberToString layer (at_ points i)
                       (at_ points ((i + 1) mod length points)))
           (seq 0 (length points)).
Proof.
  intros Hlen Hcycle.
  destruct points as [|first rest]; [cbn in Hlen; lia|].
  cbn [separatedCycle] in Hcycle. apply andb_prop in Hcycle as [Hsep Hclose].
  set (points := first :: rest) in *.
  assert (Hclean : RevA.cleanPoints Math_sqrt points = points ++ [first]).
  { subst points. unfold RevA.cleanPoints.
    destruct rest as [|second rest]; [cbn in Hlen; lia|]. cbv zeta.
    rewrite keepSeparated_all by (try discriminate; exact Hsep).
    cbn [app]. 
    replace (2 <? length (first :: second :: rest))%nat with true
      by (symmetry; apply Nat.ltb_lt; exact Hlen).
    change (at_ (first :: second :: rest) 0) with first.
    destruct (far_kept (1 # 100) _ _ ltac:(discriminate) Hclose) as [_ Hback].
    rewrite Hback. reflexivity. }
  unfold RevA.addPolyline.
  replace (length points <? 2)%nat with false by (symmetry; apply Nat.ltb_ge; lia).
  cbv zeta. rewrite Hclean. f_equal.
  rewrite length_app. cbn [length]. rewrite Nat.add_1_r.
  rewrite seq_S, flat_map_app. cbn [flat_map Nat.add].
  assert (Hlast : at_ (points ++ [first]) (length points) = first).
  { unfold at_. rewrite app_nth2 by lia. rewrite Nat.sub_diag. reflexivity. }
  replace ((length points + 1) mod S (length points))%nat with 0%nat
    by (rewrite Nat.add_1_r, Nat.Div0.mod_same; reflexivity).
  rewrite Hlast. change (at_ (points ++ [first]) 0) with first.
  rewrite same_point_skipped, !app_nil_r.
  apply flat_map_same. intros i Hi. apply in_seq in Hi.
  assert (Hcur : at_ (points ++ [first]) i = at_ points i)
    by (unfold at_; apply app_nth1; lia).
  assert (Hnext : at_ (points ++ [first]) ((i + 1) mod S (length points))
                  = at_ points ((i + 1) mod length points)).
  { rewrite Nat.mod_small by lia.
    destruct (Nat.eq_dec (i + 1) (length points)) as [Heq | Hne].
    - rewrite Heq, Nat.Div0.mod_same, Hlast. reflexivity.
    - rewrite Nat.mod_small by lia. unfold at_. apply app_nth1. lia. }
  rewrite Hcur, Hnext.
  rewrite far_not_skipped; [reflexivity|].
  destruct (Nat.eq_dec (i + 1) (length points)) as [Heq | Hne].
  - rewrite Heq, Nat.Div0.mod_same. change (at_ points 0) with first.
    replace (at_ points i) with (lastOf points); [exact Hclose|].
    rewrite lastOf_at. f_equal. lia.
  - rewrite Nat.mod_small by lia. rewrite Nat.add_1_r.
    apply separatedFrom_at; [exact Hsep|]. subst points. cbn [length] in *. lia.
Qed.

End ClosedPolygon.


Section PipelineFacts.

Import Num Paths Smooth Raster.
Local Open Scope Q_scope.

Variable Math_sqrt : Q -> Q.
Variable Math_atan2 : Q -> Q -> Q.
Variable numberToString : Q -> string.

Variable imageData : list Z.
Variables imageWidth imageHeight threshold : Z.
Variables simplify width height : Q.
Variable dimensionControl : dimension.

Let target : Q := match dimensionControl with WIDTH => width | HEIGHT => height end.
Let size : Z :=
  match dimensionControl with WIDTH => imageWidth | HEIGHT => imageHeight end.

Lemma toContour_box (b : list Tracer.pixel) :
  Forall (fun point =>
            (0 <= fst point < imageWidth /\ 0 <= - snd point < imageHeight)%Z) b ->
  Forall (inBox 0 (inject_Z (imageWidth - 1)) (- inject_Z (imageHeight - 1)) 0)
         (toContour b).
Proof.
  intros Hb. unfold toContour. apply Forall_map. revert Hb. apply Forall_impl.
  intros [x y] [Hx Hy]. unfold inBox. cbn [fst snd] in *.
  assert (H1 : inject_Z 0 <= inject_Z x) by (rewrite <- Zle_Qle; lia).
  assert (H2 : inject_Z x <= inject_Z (imageWidth - 1)) by (rewrite <- Zle_Qle; lia).
  assert (H3 : inject_Z (- (imageHeight - 1)) <= inject_Z y) by (rewrite <- Zle_Qle; lia).
  assert (H4 : inject_Z y <= inject_Z 0) by (rewrite <- Zle_Qle; lia).
  rewrite inject_Z_opp in H3. change (inject_Z 0) with 0 in *. lra.
Qed.

(** What [convertRasterToDxf] returns: the document of the refined boundary,
    scaled by the quotient of the requested dimension by the matching image
    dimension; without a contour the refined boundary is empty. *)
Lemma convertRasterToDxf_shape :
  (0 <= imageWidth)%Z -> (0 <= imageHeight)%Z ->
  exists refined,
    Forall (inBox 0 (inject_Z (imageWidth - 1)) (- inject_Z (imageHeight - 1)) 0) refined
    /\ PipelineA.convertRasterToDxf Math_sqrt Math_atan2 numberToString imageData
         imageWidth imageHeight threshold simplify width height dimensionControl
       = Ok (RevA.toString
               (RevA.addPolyline Math_sqrt numberToString RevA.SimpleDxfWriter
                  (map (fun p => (fst p * (target / inject_Z size),
                                  snd p * (target / inject_Z size))) refined)
                  "0")).
Proof.
  intros Hw Hh. unfold PipelineA.convertRasterToDxf, findContours. cbv zeta.
  set (pixels := toPixels imageData imageWidth imageHeight threshold).
  pose proof (toPixels_wellFormed imageData imageWidth imageHeight threshold Hw Hh)
    as grid.
  fold pixels in grid.
  destruct (findSingleOuterBoundary_traced pixels imageWidth imageHeight grid)
    as (b & Hb & Hshape).
  rewrite Hb. cbn [bind].
  destruct (2 <? length b)%nat eqn:Hlen;
    [|exists []; split; [constructor | reflexivity]].
  rewrite Hlen.
  destruct b as [|point rest]; [discriminate|].
  destruct Hshape as (_ & s' & Hinv & Hbs & _).
  destruct Hinv as (Hbv & _ & _ & _ & Hcells & _).
  assert (Hin : Forall (fun point =>
                          (0 <= fst point < imageWidth
                           /\ 0 <= - snd point < imageHeight)%Z) (point :: rest)).
  { rewrite <- Hbs, Hbv. apply Forall_map. revert Hcells. apply Forall_impl.
    intros [x y] [Hxy _]. unfold pixelOf, Tracer.inImage in *. cbn [fst snd] in *.
    rewrite !andb_true_iff, !Z.leb_le, !Z.ltb_lt in Hxy. lia. }
  assert (Hsize : (1 <= size)%Z).
  { inversion Hin as [|? ? [Hx Hy] _]. subst size. destruct dimensionControl; lia. }
  destruct (refinedPath_box Math_sqrt Math_atan2 _ _ _ _ _ simplify
              (toContour_box _ Hin)) as (refined & Hrefined & Hbox).
  rewrite Hrefined. cbn [bind]. exists refined. split; [exact Hbox|].
  unfold RevA.scaledPath, RevA.scaleContour.
  destruct (length refined =? 0)%nat eqn:Hempty.
  - apply Nat.eqb_eq, length_zero_iff_nil in Hempty. subst refined. reflexivity.
  - unfold divide. fold target.
    replace (match dimensionControl with
             | WIDTH => inject_Z imageWidth
             | HEIGHT => inject_Z imageHeight
             end) with (inject_Z size) by (subst size; destruct dimensionControl; reflexivity).
    assert (Hnz : Qeq_bool (inject_Z size) 0 = false).
    { destruct (Qeq_bool (inject_Z size) 0) eqn:E; [|reflexivity].
      apply Qeq_bool_iff in E. 
      assert (H1 : inject_Z 1 <= inject_Z size) by (rewrite <- Zle_Qle; exact Hsize).
      change (inject_Z 1) with 1 in H1. lra. }
    rewrite Hnz. reflexivity.
Qed.

(** X19. On every image buffer, every threshold and every setting
    [convertRasterToDxf] of revision A returns a document, and the document is
    well formed: its text is its lines joined, the lines pair up into complete
    sections, and the last pair is the end-of-file marker.  No division by zero
    is met: a contour is only found in an image of at least one pixel. *)
Theorem convertRasterToDxf_returns_valid_document :
  (0 <= imageWidth)%Z -> (0 <= imageHeight)%Z ->
  exists text lines,
    PipelineA.convertRasterToDxf Math_sqrt Math_atan2 numberToString imageData
      imageWidth imageHeight threshold simplify width height dimensionControl
    = Ok (text, lines)
    /\ text = RevA.join lines
    /\ RevA.structurallyValid lines = true
    /\ last lines ""%string = "EOF"%string.
Proof.
  intros Hw Hh. destruct (convertRasterToDxf_shape Hw Hh) as (refined & _ & Hrun).
  rewrite Hrun. unfold RevA.toString.
  match goal with
  | |- context [RevA.addPolyline _ _ _ ?points ?layer] =>
      destruct (addPolyline_segments Math_sqrt numberToString RevA.SimpleDxfWriter
                  points layer) as (segments & -> & _)
  end.
  rewrite <- app_assoc.
  destruct (document_valid numberToString "0" segments) as (Hvalid & _ & Hlast).
  eexists _, _. split; [reflexivity|]. split; [reflexivity|]. split; assumption.
Qed.

(** X20. The polygon [convertRasterToDxf] of revision A draws fits the image
    scaled by the quotient of the requested dimension by the matching image
    dimension: with a requested dimension that is not negative every x lies
    between 0 and scale (imageWidth - 1), every y between
    - scale (imageHeight - 1) and 0. *)
Theorem convertRasterToDxf_fits_scaled_image :
  (0 <= imageWidth)%Z -> (0 <= imageHeight)%Z -> 0 <= target ->
  let scale := target / inject_Z size in
  exists drawn,
    PipelineA.convertRasterToDxf Math_sqrt Math_atan2 numberToString imageData
      imageWidth imageHeight threshold simplify width height dimensionControl
    = Ok (RevA.toString
            (RevA.addPolyline Math_sqrt numberToString RevA.SimpleDxfWriter drawn "0"))
    /\ Forall (inBox 0 (scale * inject_Z (imageWidth - 1))
                 (- (scale * inject_Z (imageHeight - 1))) 0) drawn.
Proof.
  intros Hw Hh Htarget scale.
  destruct (convertRasterToDxf_shape Hw Hh) as (refined & Hbox & Hrun).
  eexists. split; [exact Hrun|]. fold scale.
  assert (Hscale : 0 <= scale).
  { subst scale. unfold Qdiv. apply Qmult_le_0_compat; [exact Htarget|].
    apply Qinv_le_0_compat. change 0 with (inject_Z 0). rewrite <- Zle_Qle.
    subst size. destruct dimensionControl; assumption. }
  apply Forall_map. revert Hbox. apply Forall_impl.
  intros [x y]. unfold inBox. cbn [fst snd]. intros [[Hx1 Hx2] [Hy1 Hy2]].
  repeat split; nra.
Qed.

End PipelineFacts.


Section HandlerFacts.

Import Num Handler.
Local Open Scope Q_scope.

Variable Math_sqrt : Q -> Q.

Lemma orFallback_truthy parsed fallback :
  truthy fallback = true -> truthy (orFallback parsed fallback) = true.
Proof.
  intros Hf. unfold orFallback. destruct parsed as [value|]; [|exact Hf].
  destruct (truthy value) eqn:Hv; [exact Hv | exact Hf].
Qed.

(** X21. The options the POST handler of revision A passes on are never 0,
    whatever the form fields hold: a threshold, simplify, width or height that
    is missing, not a number or 0 is replaced by 128, 0.1, 2.25 or 0.75.  So
    the simplification cannot be switched off through the handler: the branch
    of [convertRasterToDxf] that keeps the smoothed path is never taken, and
    [simplifyContour] always runs. *)
Theorem POST_always_simplifies (parsedThreshold : option Z)
  (parsedSimplify parsedWidth parsedHeight : option Q) (smoothedPath : contour) :
  let options := readOptions parsedThreshold parsedSimplify parsedWidth parsedHeight in
  threshold options <> 0%Z
  /\ ~ simplify options == 0
  /\ ~ width options == 0
  /\ ~ height options == 0
  /\ RevA.simplifiedPath Math_sqrt smoothedPath (simplify options)
     = Stages.simplifyContour Math_sqrt smoothedPath (simplify options * (3 # 10)).
Proof.
  intros options.
  assert (Hnonzero : forall parsed fallback,
             truthy fallback = true -> ~ orFallback parsed fallback == 0).
  { intros parsed fallback Hf Hzero.
    pose proof (orFallback_truthy parsed fallback Hf) as Ht.
    unfold truthy in Ht. apply Qeq_bool_iff in Hzero. rewrite Hzero in Ht.
    discriminate. }
  split; [|split; [|split; [|split]]].
  - subst options. cbn [threshold readOptions]. unfold orFallbackInt.
    destruct parsedThreshold as [value|]; [|discriminate].
    destruct (value =? 0)%Z eqn:Hv; [discriminate|]. apply Z.eqb_neq, Hv.
  - apply Hnonzero. reflexivity.
  - apply Hnonzero. reflexivity.
  - apply Hnonzero. reflexivity.
  - unfold RevA.simplifiedPath. subst options. cbn [simplify readOptions].
    rewrite orFallback_truthy by reflexivity. reflexivity.
Qed.

Local Open Scope string_scope.




End HandlerFacts.


Section SelectionFacts.

Import Num Paths.

Lemma StronglySorted_app {A : Type} (R : A -> A -> Prop) (l1 l2 : list A) :
  StronglySorted R l1 -> StronglySorted R l2 ->
  (forall a b, In a l1 -> In b l2 -> R a b) ->
  StronglySorted R (l1 ++ l2).
Proof.
  intros H1 H2 Hcross. induction H1 as [|a l1 H1 IH Ha]; [exact H2|].
  cbn [app]. constructor.
  - apply IH. intros x y Hx Hy. apply Hcross; [right; exact Hx | exact Hy].
  - apply Forall_app. split; [exact Ha|].
    apply Forall_forall. intros b Hb. apply Hcross; [left; reflexivity | exact Hb].
Qed.

Lemma StronglySorted_map_seq (f : nat -> nat) (n a : nat) :
  (forall i j, (a <= i)%nat -> (i < j)%nat -> (j < a + n)%nat -> (f i < f j)%nat) ->
  StronglySorted lt (map f (seq a n)).
Proof.
  revert a. induction n as [|n IH]; intros a Hmono; [constructor|].
  cbn [seq map]. constructor.
  - apply IH. intros i j Hi Hij Hj. apply Hmono; lia.
  - apply Forall_forall. intros k Hk. apply in_map_iff in Hk as (j & <- & Hj).
    apply in_seq in Hj. apply Hmono; lia.
Qed.

Lemma flat_map_singletons {A B : Type} (f : A -> list B) (g : A -> B) (items : list A) :
  (forall a, In a items -> f a = [g a]) -> flat_map f items = map g items.
Proof.
  induction items as [|a items IH]; intros Hsingle; [reflexivity|].
  cbn [flat_map map]. rewrite (Hsingle a (or_introl eq_refl)), IH; [reflexivity|].
  intros b Hb. apply Hsingle. right. exact Hb.
Qed.

Lemma increasing_all (c : contour) :
  selection c (seq 0 (length c)) = c /\ increasing (length c) (seq 0 (length c)).
Proof.
  split; [apply contour_indexed|]. split.
  - rewrite <- (map_id (seq 0 (length c))). apply StronglySorted_map_seq. intros; lia.
  - apply Forall_forall. intros i Hi. apply in_seq in Hi. lia.
Qed.

Lemma selection_incl (c : contour) indices :
  Forall (fun i => (i < length c)%nat) indices -> incl (selection c indices) c.
Proof.
  intros Hin p Hp. apply in_map_iff in Hp as (i & <- & Hi).
  rewrite Forall_forall in Hin. apply at_In, Hin, Hi.
Qed.

Lemma increasing_length len indices : increasing len indices -> (length indices <= len)%nat.
Proof.
  intros [Hsorted Hin].
  assert (Hnd : NoDup indices).
  { clear Hin. induction Hsorted as [|i l _ IH Hi]; constructor; [|exact IH].
    intros Hmem. rewrite Forall_forall in Hi. specialize (Hi _ Hmem). lia. }
  rewrite <- (length_seq len 0). apply NoDup_incl_length; [exact Hnd|].
  intros i Hi. rewrite Forall_forall in Hin. apply in_seq. specialize (Hin _ Hi). lia.
Qed.

End SelectionFacts.

Section ReductionFacts.

Import Num Paths.
Local Open Scope Q_scope.

Lemma floor_step (a b : Q) : a + 1 <= b -> (Qfloor a < Qfloor b)%Z.
Proof.
  intros Hab. pose proof (Qfloor_le a) as Ha. pose proof (Qlt_floor b) as Hb.
  rewrite inject_Z_plus in Hb. change (inject_Z 1) with 1 in Hb.
  apply Z.lt_nge. intros Hle. rewrite Zle_Qle in Hle. lra.
Qed.

(** The positions [adaptivePointReduction] keeps when it resamples. *)
Lemma adaptivePointReduction_picks (c : contour) (reductionFactor : Q) :
  exists indices,
    Stages.adaptivePointReduction c reductionFactor = selection c indices
    /\ increasing (length c) indices
    /\ (c <> [] -> (exists rest, indices = O :: rest)
                   /\ last indices O = (length c - 1)%nat).
Proof.
  unfold Stages.adaptivePointReduction.
  assert (Hall : exists indices,
             c = selection c indices /\ increasing (length c) indices
             /\ (c <> [] -> (exists rest, indices = O :: rest)
                   /\ last indices O = (length c - 1)%nat)).
  { exists (seq 0 (length c)). destruct (increasing_all c) as [Hsel Hinc].
    split; [symmetry; exact Hsel|]. split; [exact Hinc|].
    intros Hne. destruct c as [|p c]; [congruence|]. cbn [length].
    split; [eexists; reflexivity|].
    rewrite seq_S. rewrite last_last. cbn. lia. }
  destruct (length c <=? 3)%nat eqn:Hshort; [exact Hall|].
  pose proof (targetPoints_range (length c) reductionFactor) as Hrange.
  set (target := Stages.targetPoints (length c) reductionFactor) in *.
  destruct (Z.of_nat (length c) <=? target)%Z eqn:Hbig; [exact Hall|].
  clear Hall. apply Z.leb_gt in Hbig. apply Nat.leb_gt in Hshort. cbv zeta.
  set (step := inject_Z (Z.of_nat (length c)) / inject_Z target).
  set (indexOf := fun i : nat => Z.to_nat (Math_floor (inject_Z (Z.of_nat i) * step))).
  assert (Hinside : forall i, (1 <= i <= Z.to_nat target - 2)%nat ->
                      (0 < Math_floor (inject_Z (Z.of_nat i) * step)
                       < Z.of_nat (length c) - 1)%Z).
  { intros i Hi.
    exact (resample_index_inside (Z.of_nat (length c)) target i
             ltac:(lia) Hbig Hi). }
  assert (Hstep : 1 <= step).
  { subst step. apply Qle_shift_div_l.
    - change 0 with (inject_Z 0). rewrite <- Zlt_Qlt. lia.
    - rewrite Qmult_1_l. rewrite <- Zle_Qle. lia. }
  assert (Hmiddle : forall i, In i (seq 1 (Z.to_nat target - 2)) ->
                      (0 < indexOf i < length c - 1)%nat).
  { intros i Hi. apply in_seq in Hi. specialize (Hinside i ltac:(lia)).
    subst indexOf. cbv beta. lia. }
  exists ([O] ++ map indexOf (seq 1 (Z.to_nat target - 2)) ++ [(length c - 1)%nat]).
  split; [|split].
  - unfold selection. rewrite !map_app. cbn [map]. f_equal. f_equal.
    rewrite map_map. apply flat_map_singletons. intros i Hi.
    apply in_seq in Hi. specialize (Hinside i ltac:(lia)).
    replace (0 <? _)%Z with true by (symmetry; apply Z.ltb_lt; lia).
    replace (_ <? _)%Z with true by (symmetry; apply Z.ltb_lt; lia).
    reflexivity.
  - split.
    + apply StronglySorted_app; [repeat constructor | |].
      * apply StronglySorted_app; [|repeat constructor|].
        -- apply StronglySorted_map_seq. intros i j Hi Hij Hj.
           pose proof (Hinside i ltac:(lia)) as Hi'.
           pose proof (Hinside j ltac:(lia)) as Hj'.
           subst indexOf. cbv beta. apply Z2Nat.inj_lt; [lia | lia |].
           apply floor_step.
           assert (Hnext : inject_Z (Z.of_nat i) + 1 <= inject_Z (Z.of_nat j)).
           { change 1 with (inject_Z 1). rewrite <- inject_Z_plus, <- Zle_Qle. lia. }
           nra.
        -- intros a b Ha [<- | []]. apply in_map_iff in Ha as (i & <- & Hi).
           apply (Hmiddle i Hi).
      * intros a b [<- | []] Hb. apply in_app_iff in Hb as [Hb | [<- | []]]; [|lia].
        apply in_map_iff in Hb as (i & <- & Hi). apply (Hmiddle i Hi).
    + apply Forall_app. split; [repeat constructor; lia|].
      apply Forall_app. split; [|repeat constructor; lia].
      apply Forall_forall. intros a Ha. apply in_map_iff in Ha as (i & <- & Hi).
      pose proof (Hmiddle i Hi). lia.
  - intros _. split; [eexists; reflexivity|]. rewrite app_assoc. apply last_last.
Qed.

(** X23. [adaptivePointReduction] only thins the contour out: what it returns
    are points of the contour at growing positions, starting with the first
    point and ending with the last.  A contour of up to 50 points comes back
    unchanged whatever the reduction factor, and no result has more than 200
    points or more points than the contour. *)
Theorem adaptivePointReduction_thins_out (c : contour) (reductionFactor : Q) :
  let out := Stages.adaptivePointReduction c reductionFactor in
  (exists indices,
     out = selection c indices /\ increasing (length c) indices
     /\ (c <> [] -> (exists rest, indices = O :: rest)
                   /\ last indices O = (length c - 1)%nat))
  /\ ((length c <= 50)%nat -> out = c)
  /\ (length out <= Nat.min (length c) 200)%nat.
Proof.
  intros out. split; [apply adaptivePointReduction_picks|].
  pose proof (adaptivePointReduction_length c reductionFactor) as Hlen. fold out in Hlen.
  pose proof (targetPoints_range (length c) reductionFactor) as Hrange.
  subst out. unfold Stages.adaptivePointReduction in *.
  destruct (length c <=? 3)%nat eqn:Hshort.
  - apply Nat.leb_le in Hshort. repeat split; intros; lia || reflexivity.
  - destruct (Z.of_nat (length c) <=? _)%Z eqn:Hbig.
    + apply Z.leb_le in Hbig. repeat split; intros; lia || reflexivity.
    + apply Z.leb_gt in Hbig. repeat split; intros; lia.
Qed.

End ReductionFacts.

Section MergeFacts.

Import Num Paths.
Local Open Scope Q_scope.

Variable Math_atan2 : Q -> Q -> Q.
Variable c : contour.
Variable angleTolerance : Q.

Lemma extendRun_enough startPoint fuel1 :
  forall fuel2 j lastGoodPoint,
  (length c <= j + fuel1)%nat -> (length c <= j + fuel2)%nat ->
  Stages.extendRun Math_atan2 c angleTolerance startPoint fuel1 j lastGoodPoint
  = Stages.extendRun Math_atan2 c angleTolerance startPoint fuel2 j lastGoodPoint.
Proof.
  induction fuel1 as [|fuel1 IH]; intros fuel2 j lastGoodPoint H1 H2.
  - destruct fuel2 as [|fuel2]; [reflexivity|]. cbn [Stages.extendRun].
    replace (j <? length c)%nat with false by (symmetry; apply Nat.ltb_ge; lia).
    reflexivity.
  - destruct fuel2 as [|fuel2]; cbn [Stages.extendRun].
    + replace (j <? length c)%nat with false by (symmetry; apply Nat.ltb_ge; lia).
      reflexivity.
    + destruct (j <? length c)%nat; [|reflexivity].
      destruct (Stages.turnsAt _ _ _ _ _); [reflexivity|]. apply IH; lia.
Qed.

Lemma extendRun_range startPoint fuel :
  forall j lastGoodPoint,
  (lastGoodPoint < j)%nat -> (lastGoodPoint < length c)%nat ->
  let r := Stages.extendRun Math_atan2 c angleTolerance startPoint fuel j lastGoodPoint in
  (lastGoodPoint <= r < length c)%nat.
Proof.
  induction fuel as [|fuel IH]; intros j lastGoodPoint Hj Hlast; cbn [Stages.extendRun];
    [cbv zeta; lia|].
  destruct (j <? length c)%nat eqn:Hin; [|cbv zeta; lia].
  destruct (Stages.turnsAt _ _ _ _ _); [cbv zeta; lia|].
  apply Nat.ltb_lt in Hin. specialize (IH (j + 1)%nat j ltac:(lia) Hin).
  cbv zeta in *. lia.
Qed.

Lemma mergeRuns_enough fuel1 :
  forall fuel2 i acc,
  (length c <= i + fuel1)%nat -> (length c <= i + fuel2)%nat ->
  Stages.mergeRuns Math_atan2 c angleTolerance fuel1 i acc
  = Stages.mergeRuns Math_atan2 c angleTolerance fuel2 i acc.
Proof.
  induction fuel1 as [|fuel1 IH]; intros fuel2 i acc H1 H2.
  - destruct fuel2 as [|fuel2]; [reflexivity|]. cbn [Stages.mergeRuns].
    replace (i <? length c)%nat with false by (symmetry; apply Nat.ltb_ge; lia).
    reflexivity.
  - destruct fuel2 as [|fuel2]; cbn [Stages.mergeRuns].
    + replace (i <? length c)%nat with false by (symmetry; apply Nat.ltb_ge; lia).
      reflexivity.
    + destruct (i <? length c)%nat; [|reflexivity]. cbv zeta. apply IH; lia.
Qed.

Lemma mergeRuns_picks fuel :
  forall i acc,
  exists indices,
    Stages.mergeRuns Math_atan2 c angleTolerance fuel i acc = acc ++ selection c indices
    /\ StronglySorted lt indices
    /\ Forall (fun k => (i <= k < length c)%nat) indices
    /\ ((0 < fuel)%nat -> (i < length c)%nat -> exists rest, indices = i :: rest).
Proof.
  induction fuel as [|fuel IH]; intros i acc; cbn [Stages.mergeRuns].
  - exists []. rewrite app_nil_r. repeat split; try constructor. lia.
  - destruct (i <? length c)%nat eqn:Hin.
    + apply Nat.ltb_lt in Hin. cbv zeta.
      pose proof (extendRun_range (at_ c i) (length c) (i + 1)%nat i ltac:(lia) Hin)
        as Hrange.
      cbv zeta in Hrange.
      set (lastGoodPoint := Stages.extendRun _ _ _ _ _ _ _) in *.
      destruct (IH (Nat.max (lastGoodPoint + 1) (i + 1)) (acc ++ [at_ c i]))
        as (indices & Hrun & Hsorted & Hrange' & _).
      exists (i :: indices). rewrite Hrun, <- app_assoc. split; [reflexivity|].
      split; [|split].
      * constructor; [exact Hsorted|]. revert Hrange'. apply Forall_impl. intros; lia.
      * constructor; [lia|]. revert Hrange'. apply Forall_impl. intros; lia.
      * intros _ _. eexists. reflexivity.
    + apply Nat.ltb_ge in Hin. exists []. rewrite app_nil_r.
      repeat split; try constructor. lia.
Qed.

Lemma mergeStraightLineSegments_picks :
  exists indices,
    Stages.mergeStraightLineSegments Math_atan2 c angleTolerance = selection c indices
    /\ increasing (length c) indices
    /\ (c <> [] -> exists rest, indices = O :: rest).
Proof.
  unfold Stages.mergeStraightLineSegments.
  destruct (length c <=? 2)%nat eqn:Hshort.
  - exists (seq 0 (length c)). destruct (increasing_all c) as [Hsel Hinc].
    split; [symmetry; exact Hsel|]. split; [exact Hinc|].
    intros Hne. destruct c; [congruence | eexists; reflexivity].
  - apply Nat.leb_gt in Hshort.
    destruct (mergeRuns_picks (length c) 0 []) as (indices & Hrun & Hsorted & Hin & Hhd).
    exists indices. split; [exact Hrun|]. split; [split; [exact Hsorted|]|].
    + revert Hin. apply Forall_impl. intros; lia.
    + intros _. apply Hhd; lia.
Qed.

(** X24. [mergeStraightLineSegments] only drops points: what it returns are
    points of the contour at growing positions, beginning with the first
    point.  Both of its loops end by their own conditions: the position [i]
    grows on every pass of the outer loop and [j] on every pass of the inner
    one, so a larger bound on the number of passes changes nothing. *)
Theorem mergeStraightLineSegments_drops_points :
  (exists indices,
     Stages.mergeStraightLineSegments Math_atan2 c angleTolerance = selection c indices
     /\ increasing (length c) indices
     /\ (c <> [] -> exists rest, indices = O :: rest))
  /\ (forall more : nat,
        (2 < length c)%nat ->
        Stages.mergeRuns Math_atan2 c angleTolerance (length c + more) 0 []
        = Stages.mergeStraightLineSegments Math_atan2 c angleTolerance)
  /\ (forall (more i : nat),
        Stages.extendRun Math_atan2 c angleTolerance (at_ c i) (length c + more) (i + 1) i
        = Stages.extendRun Math_atan2 c angleTolerance (at_ c i) (length c) (i + 1) i).
Proof.
  split; [exact mergeStraightLineSegments_picks | split].
  - intros more Hlen. unfold Stages.mergeStraightLineSegments.
    replace (length c <=? 2)%nat with false by (symmetry; apply Nat.leb_gt; lia).
    apply mergeRuns_enough; lia.
  - intros more i. apply extendRun_enough; lia.
Qed.

End MergeFacts.

Section FinalPathFacts.

Import Num Paths.
Local Open Scope Q_scope.

Variable Math_sqrt : Q -> Q.
Variable Math_atan2 : Q -> Q -> Q.
Variables minX maxX minY maxY : Q.

Lemma selection_facts (c out : contour) indices :
  out = selection c indices -> increasing (length c) indices ->
  (c <> [] -> exists rest, indices = O :: rest) ->
  incl out c /\ (length out <= length c)%nat /\ (c <> [] -> out <> []).
Proof.
  intros -> Hinc Hfirst. split; [apply selection_incl, Hinc|]. split.
  - unfold selection. rewrite length_map. apply increasing_length, Hinc.
  - intros Hne. destruct (Hfirst Hne) as [rest ->]. discriminate.
Qed.

Lemma finalPath_box (boundary : contour) (simplify : Q) :
  Forall (inBox minX maxX minY maxY) boundary ->
  Forall (inBox minX maxX minY maxY)
         (RevC.finalPath Math_sqrt Math_atan2 boundary simplify).
Proof.
  intros Hbox. unfold RevC.finalPath. cbv zeta.
  set (cleanedPath := Stages.removeDuplicatePoints Math_sqrt boundary (1 # 100)).
  destruct (removeDuplicatePoints_facts Math_sqrt boundary (1 # 100)) as (Hc1 & _).
  fold cleanedPath in Hc1.
  set (reducedPath := Stages.adaptivePointReduction cleanedPath simplify).
  destruct (adaptivePointReduction_picks cleanedPath simplify)
    as (indices & Hsel & Hinc & Hfirst).
  fold reducedPath in Hsel.
  destruct (selection_facts cleanedPath reducedPath indices Hsel Hinc
              (fun Hne => proj1 (Hfirst Hne))) as (Hr1 & _).
  set (mergedStraightLines :=
         Stages.mergeStraightLineSegments Math_atan2 reducedPath (2 # 100)).
  destruct (mergeStraightLineSegments_picks Math_atan2 reducedPath (2 # 100))
    as (indices' & Hsel' & Hinc' & Hfirst').
  fold mergedStraightLines in Hsel'.
  destruct (selection_facts reducedPath mergedStraightLines indices' Hsel' Hinc' Hfirst')
    as (Hm1 & _).
  unfold RevC.straightenNearOrthogonalLines.
  set (straightenedPath := Stages.straightenWith Math_atan2 (5 # 100) mergedStraightLines).
  destruct (removeDuplicatePoints_facts Math_sqrt straightenedPath (5 # 1000))
    as (Hd1 & _).
  apply (box_incl minX maxX minY maxY straightenedPath); [exact Hd1|].
  apply straightenWith_box.
  apply (box_incl minX maxX minY maxY boundary); [|exact Hbox].
  intros p Hp. apply Hc1, Hr1, Hm1, Hp.
Qed.

Lemma finalPath_count (boundary : contour) (simplify : Q) :
  let out := RevC.finalPath Math_sqrt Math_atan2 boundary simplify in
  (length out <= length boundary + 1)%nat /\ (boundary <> [] -> out <> []).
Proof.
  unfold RevC.finalPath. cbv zeta.
  set (cleanedPath := Stages.removeDuplicatePoints Math_sqrt boundary (1 # 100)).
  destruct (removeDuplicatePoints_facts Math_sqrt boundary (1 # 100)) as (_ & Hc2 & Hc3).
  fold cleanedPath in Hc2, Hc3.
  set (reducedPath := Stages.adaptivePointReduction cleanedPath simplify).
  destruct (adaptivePointReduction_picks cleanedPath simplify)
    as (indices & Hsel & Hinc & Hfirst).
  fold reducedPath in Hsel.
  destruct (selection_facts cleanedPath reducedPath indices Hsel Hinc
              (fun Hne => proj1 (Hfirst Hne))) as (_ & Hr2 & Hr3).
  set (mergedStraightLines :=
         Stages.mergeStraightLineSegments Math_atan2 reducedPath (2 # 100)).
  destruct (mergeStraightLineSegments_picks Math_atan2 reducedPath (2 # 100))
    as (indices' & Hsel' & Hinc' & Hfirst').
  fold mergedStraightLines in Hsel'.
  destruct (selection_facts reducedPath mergedStraightLines indices' Hsel' Hinc' Hfirst')
    as (_ & Hm2 & Hm3).
  unfold RevC.straightenNearOrthogonalLines.
  set (straightenedPath := Stages.straightenWith Math_atan2 (5 # 100) mergedStraightLines).
  destruct (straightenWith_count Math_atan2 (5 # 100) mergedStraightLines) as [Ht1 Ht2].
  fold straightenedPath in Ht1, Ht2.
  destruct (removeDuplicatePoints_facts Math_sqrt straightenedPath (5 # 1000))
    as (_ & Hd2 & Hd3).
  split; [lia|]. intros Hne. apply Hd3, Ht2, Hm3, Hr3, Hc3, Hne.
Qed.

(** X25. The refinement chain of revision C -- [removeDuplicatePoints],
    [adaptivePointReduction], [mergeStraightLineSegments],
    [straightenNearOrthogonalLines] and [removeDuplicatePoints] again -- keeps
    the polygon inside every box that holds the boundary, adds at most one
    point to it and returns an empty polygon only for an empty boundary. *)
Theorem finalPath_stays_in_box (boundary : contour) (simplify : Q) :
  Forall (inBox minX maxX minY maxY) boundary ->
  let out := RevC.finalPath Math_sqrt Math_atan2 boundary simplify in
  Forall (inBox minX maxX minY maxY) out
  /\ (length out <= length boundary + 1)%nat
  /\ (boundary <> [] -> out <> []).
Proof.
  intros Hbox out. split; [exact (finalPath_box boundary simplify Hbox)|].
  exact (finalPath_count boundary simplify).
Qed.

End FinalPathFacts.


Section BoundingBoxFacts.

Import Tracer Raster TracerC.
Local Open Scope Z_scope.

Variable pixels : pixelGrid.
Variables width height : Z.
Hypothesis grid : wellFormed pixels width height.

Let shape := shapePixel pixels width height.

(** The state of the bounding-box scan before the cell [(x, y)]. *)
Let scanned (x y : Z) (b : bounds) : Prop :=
  if foundBlack b then
    (forall x' y', shape x' y' -> before x' y' x y ->
                   minX b <= x' <= maxX b /\ minY b <= y' <= maxY b)
    /\ (exists y', shape (minX b) y')
    /\ (exists y', shape (maxX b) y')
    /\ (exists x', shape x' (minY b))
    /\ (exists x', shape x' (maxY b))
  else
    b = noBounds width height
    /\ forall x' y', shape x' y' -> ~ before x' y' x y.

Lemma scanned_cell x y b v :
  inImage width height x y = true -> readPixel pixels x y = Ok v ->
  scanned x y b -> scanned (x + 1) y (if v =? 1 then grow b x y else b).
Proof.
  intros Hin Hv Hb.
  assert (Hstep : forall x' y', before x' y' (x + 1) y ->
                                before x' y' x y \/ (x' = x /\ y' = y))
    by (unfold before; intros; lia).
  destruct (v =? 1) eqn:Hv1.
  - apply Z.eqb_eq in Hv1. subst v.
    assert (Hhere : shape x y) by (split; assumption).
    unfold scanned in *. cbn [grow foundBlack minX maxX minY maxY].
    destruct (foundBlack b).
    + destruct Hb as (Hbox & [y1 H1] & [y2 H2] & [x3 H3] & [x4 H4]).
      split; [|split; [|split; [|split]]].
      * intros x' y' Hs Hbefore. destruct (Hstep _ _ Hbefore) as [Hold | [-> ->]]; [|lia].
        specialize (Hbox _ _ Hs Hold). lia.
      * destruct (Z.min_spec (minX b) x) as [[_ ->] | [_ ->]]; eauto.
      * destruct (Z.max_spec (maxX b) x) as [[_ ->] | [_ ->]]; eauto.
      * destruct (Z.min_spec (minY b) y) as [[_ ->] | [_ ->]]; eauto.
      * destruct (Z.max_spec (maxY b) y) as [[_ ->] | [_ ->]]; eauto.
    + destruct Hb as [-> Hnone]. cbn [noBounds minX maxX minY maxY].
      unfold inImage in Hin. rewrite !andb_true_iff, !Z.leb_le, !Z.ltb_lt in Hin.
      replace (Z.min width x) with x by lia. replace (Z.max (-1) x) with x by lia.
      replace (Z.min height y) with y by lia. replace (Z.max (-1) y) with y by lia.
      split; [|repeat split; eexists; exact Hhere].
      intros x' y' Hs Hbefore. destruct (Hstep _ _ Hbefore) as [Hold | [-> ->]]; [|lia].
      elim (Hnone _ _ Hs Hold).
  - apply Z.eqb_neq in Hv1. unfold scanned in *. destruct (foundBlack b).
    + destruct Hb as (Hbox & Hsides). split; [|exact Hsides].
      intros x' y' Hs Hbefore. destruct (Hstep _ _ Hbefore) as [Hold | [-> ->]].
      * apply Hbox; assumption.
      * destruct Hs as [_ Hs]. congruence.
    + destruct Hb as [-> Hnone]. split; [reflexivity|].
      intros x' y' Hs Hbefore. destruct (Hstep _ _ Hbefore) as [Hold | [-> ->]].
      * exact (Hnone _ _ Hs Hold).
      * destruct Hs as [_ Hs]. congruence.
Qed.

Lemma scanned_same x y x0 y0 b :
  (forall x' y', inImage width height x' y' = true ->
                 before x' y' x0 y0 -> before x' y' x y) ->
  scanned x y b -> scanned x0 y0 b.
Proof.
  intros Hsame. unfold scanned. destruct (foundBlack b).
  - intros (Hbox & Hsides). split; [|exact Hsides].
    intros x' y' Hs Hbefore. apply Hbox; [exact Hs|]. apply Hsame; [apply Hs | exact Hbefore].
  - intros [-> Hnone]. split; [reflexivity|].
    intros x' y' Hs Hbefore. apply (Hnone _ _ Hs). apply Hsame; [apply Hs | exact Hbefore].
Qed.

Lemma boundsRow_scanned y :
  0 <= y < height ->
  forall n x b, 0 <= x -> x + Z.of_nat n <= width -> scanned x y b ->
  exists b', boundsRow pixels y x n b = Ok b' /\ scanned (x + Z.of_nat n) y b'.
Proof.
  intros Hy. induction n as [|n IH]; intros x b Hx Hn Hb; cbn [boundsRow].
  - exists b. split; [reflexivity|]. replace (x + Z.of_nat 0) with x by lia. exact Hb.
  - assert (Hin : inImage width height x y = true).
    { unfold inImage. rewrite !andb_true_iff, !Z.leb_le, !Z.ltb_lt. lia. }
    destruct (readPixel_inImage pixels width height grid _ _ Hin) as [v Hv].
    rewrite Hv. cbn [bind].
    destruct (IH (x + 1) (if v =? 1 then grow b x y else b)) as (b' & Hrun & Hb');
      [lia | lia | apply scanned_cell; assumption |].
    exists b'. split; [exact Hrun|].
    replace (x + Z.of_nat (S n)) with (x + 1 + Z.of_nat n) by lia. exact Hb'.
Qed.

Lemma boundsRows_scanned :
  forall n y b, 0 <= y -> y + Z.of_nat n <= height -> scanned 0 y b ->
  exists b', boundsRows pixels width y n b = Ok b' /\ scanned 0 (y + Z.of_nat n) b'.
Proof.
  destruct grid as (Hw & _).
  induction n as [|n IH]; intros y b Hy Hn Hb; cbn [boundsRows].
  - exists b. split; [reflexivity|]. replace (y + Z.of_nat 0) with y by lia. exact Hb.
  - destruct (boundsRow_scanned y ltac:(lia) (Z.to_nat width) 0 b) as (b1 & Hrow & Hb1);
      [lia | lia | exact Hb |].
    rewrite Hrow. cbn [bind].
    destruct (IH (y + 1) b1) as (b' & Hrun & Hb'); [lia | lia | |].
    { revert Hb1. apply scanned_same. intros x' y' Hin.
      unfold inImage in Hin. rewrite !andb_true_iff, !Z.leb_le, !Z.ltb_lt in Hin.
      unfold before. lia. }
    exists b'. split; [exact Hrun|].
    replace (y + Z.of_nat (S n)) with (y + 1 + Z.of_nat n) by lia. exact Hb'.
Qed.

(** The box the first loops of [findSingleLineBoundary] compute. *)
Lemma shapeBounds_facts :
  exists b,
    shapeBounds pixels width height = Ok b
    /\ if foundBlack b then isBoundingBox pixels width height b
       else noForeground pixels width height.
Proof.
  destruct grid as (Hw & Hh & _).
  destruct (boundsRows_scanned (Z.to_nat height) 0 (noBounds width height))
    as (b & Hrun & Hb); [lia | lia | |].
  { split; [reflexivity|]. unfold before. intros x' y' [Hin _].
    unfold inImage in Hin. rewrite !andb_true_iff, !Z.leb_le, !Z.ltb_lt in Hin. lia. }
  exists b. split; [exact Hrun|].
  assert (Hall : forall x y, inImage width height x y = true ->
                             before x y 0 (0 + Z.of_nat (Z.to_nat height))).
  { intros x y Hin. unfold inImage in Hin.
    rewrite !andb_true_iff, !Z.leb_le, !Z.ltb_lt in Hin. unfold before. lia. }
  unfold scanned in Hb. destruct (foundBlack b).
  - destruct Hb as (Hbox & Hsides). split; [|exact Hsides].
    intros x y Hs. apply Hbox; [exact Hs | apply Hall, Hs].
  - destruct Hb as [_ Hnone]. intros x y Hin Hfg.
    apply (Hnone x y); [split; assumption | apply Hall, Hin].
Qed.

End BoundingBoxFacts.

Section LineBoundaryFacts.

Import Tracer Raster TracerC.
Local Open Scope Z_scope.

Variable pixels : pixelGrid.
Variables width height : Z.
Hypothesis grid : wellFormed pixels width height.

Let shape := shapePixel pixels width height.

Lemma shapePixel_inside x y : shape x y -> 0 <= x < width /\ 0 <= y < height.
Proof.
  intros [Hin _]. unfold inImage in Hin.
  rewrite !andb_true_iff, !Z.leb_le, !Z.ltb_lt in Hin. lia.
Qed.

(** The start search ends in the first row of the box, at the first foreground
    pixel of the row-major scan. *)
Lemma findStartC_first b :
  isBoundingBox pixels width height b ->
  exists x0,
    TracerC.findStart pixels b = Ok (x0, minY b)
    /\ shape x0 (minY b)
    /\ forall x y, inImage width height x y = true -> before x y x0 (minY b) ->
                   readPixel pixels x y <> Ok 1.
Proof.
  intros (Hbox & [y1 H1] & [y2 H2] & [x3 H3] & [x4 H4]).
  pose proof (shapePixel_inside _ _ H1) as I1. pose proof (shapePixel_inside _ _ H2) as I2.
  pose proof (shapePixel_inside _ _ H3) as I3. pose proof (shapePixel_inside _ _ H4) as I4.
  pose proof (Hbox _ _ H3) as B3. pose proof (Hbox _ _ H4) as B4.
  unfold TracerC.findStart.
  destruct (Z.to_nat (maxY b - minY b + 1)) as [|n] eqn:Hn; [lia|].
  cbn [startRows].
  destruct (scanRow_returns pixels width height grid (minY b) ltac:(lia)
              (Z.to_nat (maxX b - minX b + 1)) (minX b)) as [r Hr]; [lia | lia |].
  rewrite Hr. cbn [bind].
  pose proof (scanRow_first pixels _ _ _ _ Hr) as Hfirst.
  destruct r as [[x0 y0]|].
  - cbn [fst snd] in Hfirst. destruct Hfirst as (-> & Hx0 & Hfg & Hnone).
    cbv zeta. cbn [fst snd]. rewrite Hfg. cbn [bind Z.eqb Pos.eqb].
    exists x0. split; [reflexivity|].
    assert (Hin0 : inImage width height x0 (minY b) = true).
    { unfold inImage. rewrite !andb_true_iff, !Z.leb_le, !Z.ltb_lt. lia. }
    split; [split; assumption|].
    intros x y Hin [Hy | [-> Hx]] Hfg'.
    + pose proof (Hbox x y (conj Hin Hfg')). lia.
    + destruct (Z_lt_le_dec x (minX b)) as [Hleft | Hright].
      * pose proof (Hbox x (minY b) (conj Hin Hfg')). lia.
      * apply (Hnone x); [lia | exact Hfg'].
  - elim (Hfirst x3); [lia | apply H3].
Qed.

(** Both scans of a pass, the second one taken when the first finds nothing. *)
Lemma scans_pick (s : traceState) :
  exists f,
    (unvisited <- scanNeighbours pixels width height (fun _ _ => Ok true)
                    (visited s) (currentX s) (currentY s) (direction s) scanOffsets ;;
     match unvisited with
     | Some n => Ok (Some n)
     | None =>
         scanNeighbours pixels width height (fun _ _ => Ok true)
           [] (currentX s) (currentY s) (direction s) scanOffsets
     end) = Ok f
    /\ match f with
       | Some n =>
           shape (nextX n) (nextY n)
           /\ adjacent8 (currentX s, currentY s) (nextX n, nextY n) = true
       | None => True
       end.
Proof.
  assert (Hpick : forall t : traceState,
             currentX t = currentX s -> currentY t = currentY s ->
             direction t = direction s ->
             exists f,
               scanNeighbours pixels width height (fun _ _ => Ok true)
                 (visited t) (currentX s) (currentY s) (direction s) scanOffsets = Ok f
               /\ match f with
                  | Some n =>
                      shape (nextX n) (nextY n)
                      /\ adjacent8 (currentX s, currentY s) (nextX n, nextY n) = true
                  | None => True
                  end).
  { intros t Hx Hy Hd.
    pose proof (scanNeighbours_find pixels width height grid (fun _ _ => Ok true)
                  (fun _ _ => true) (fun _ _ _ => eq_refl) t scanOffsets) as Hscan.
    rewrite Hx, Hy, Hd in Hscan. rewrite Hscan. eexists. split; [reflexivity|].
    destruct (find _ scanOffsets) as [i|] eqn:Hfind; [|exact I].
    apply find_some in Hfind as [_ Hcand]. cbn [nextX nextY].
    unfold candidate in Hcand. rewrite !andb_true_iff in Hcand.
    destruct Hcand as [[[Hin Hfg] _] _]. split.
    - split; [exact Hin|]. unfold foreground in Hfg.
      destruct (readPixel pixels _ _) as [v|]; [|discriminate].
      apply Z.eqb_eq in Hfg. subst v. reflexivity.
    - pose proof (neighbourAt_adjacent t i) as Hadj. rewrite Hx, Hy in Hadj.
      destruct (neighbourAt t i). exact Hadj. }
  destruct (Hpick s eq_refl eq_refl eq_refl) as (f & Hf & Hfacts).
  rewrite Hf. cbn [bind]. destruct f as [n|].
  - exists (Some n). split; [reflexivity | exact Hfacts].
  - exact (Hpick {| boundary := boundary s; visited := [];
                    currentX := currentX s; currentY := currentY s;
                    direction := direction s; iterations := iterations s |}
                 eq_refl eq_refl eq_refl).
Qed.

Section Loop.

Variables startX startY maxIterations : Z.

Let inv := traced pixels width height startX startY maxIterations.

Lemma traceStepC_traced s :
  inv s -> iterations s < maxIterations ->
  exists r,
    TracerC.traceStep pixels width height startX startY s = Ok r
    /\ match r with
       | Advance s' => inv s' /\ iterations s' = iterations s + 1
       | _ => True
       end.
Proof.
  intros (Hhd & [Hne Hlast] & Hshape & Hlinked & Hcount & Hcap) Hlt.
  unfold TracerC.traceStep.
  destruct (scans_pick s) as (f & Hf & Hfacts).
  destruct (scanNeighbours pixels width height (fun _ _ => Ok true)
              (visited s) (currentX s) (currentY s) (direction s) scanOffsets)
    as [unvisited|e]; [|discriminate].
  cbn [bind] in Hf |- *. rewrite Hf. cbn [bind].
  destruct f as [n|]; [|eexists; split; [reflexivity | exact I]].
  destruct (_ && _); [eexists; split; [reflexivity | exact I]|].
  eexists. split; [reflexivity|]. destruct Hfacts as [Hs Hadj].
  split; [|reflexivity]. unfold inv, traced. cbn [boundary currentX currentY iterations].
  split; [|split; [|split; [|split; [|split]]]].
  - destruct (boundary s); [congruence | exact Hhd].
  - split; [|apply last_last]. intros Hnil. apply app_eq_nil in Hnil as [_ Hnil].
    discriminate.
  - apply Forall_app. split; [exact Hshape|]. constructor; [exact Hs | constructor].
  - apply linked_snoc; [exact Hne | exact Hlinked |]. rewrite Hlast. exact Hadj.
  - rewrite length_app. cbn [length]. lia.
  - lia.
Qed.

Lemma traceLoopC_traced fuel :
  forall s, inv s -> (Z.to_nat (maxIterations - iterations s) < fuel)%nat ->
  exists reason s',
    TracerC.traceLoop pixels width height startX startY maxIterations fuel s
    = Ok (reason, s')
    /\ inv s'.
Proof.
  induction fuel as [|fuel IH]; intros s Hs Hfuel; [lia|]. cbn [TracerC.traceLoop].
  destruct (iterations s <? maxIterations) eqn:Hlt; [|eauto].
  apply Z.ltb_lt in Hlt.
  destruct (traceStepC_traced s Hs Hlt) as (r & Hr & Hfacts). rewrite Hr. cbn [bind].
  destruct r as [| |s']; [eauto | eauto |].
  destruct Hfacts as [Hs' Hnext]. apply IH; [exact Hs' | lia].
Qed.

End Loop.

(** What [findSingleLineBoundary] returns, with the box it computed. *)
Lemma findSingleLineBoundary_traced :
  exists box path,
    shapeBounds pixels width height = Ok box
    /\ findSingleLineBoundary pixels width height = Ok path
    /\ if foundBlack box then
         isBoundingBox pixels width height box
         /\ exists x0 s',
              TracerC.findStart pixels box = Ok (x0, minY box)
              /\ (forall x y, inImage width height x y = true ->
                              before x y x0 (minY box) -> readPixel pixels x y <> Ok 1)
              /\ traced pixels width height x0 (minY box)
                   ((maxX box - minX box + maxY box - minY box) * 4) s'
              /\ path = boundary s'
       else noForeground pixels width height /\ path = [].
Proof.
  destruct (shapeBounds_facts pixels width height grid) as (box & Hbounds & Hbox).
  exists box. unfold findSingleLineBoundary. rewrite Hbounds. cbn [bind].
  destruct (foundBlack box); cbn [negb]; [|exists []; auto].
  destruct (findStartC_first box Hbox) as (x0 & Hstart & Hshape & Hfirst).
  rewrite Hstart. cbn [bind]. cbv zeta.
  set (maxIterations := (maxX box - minX box + maxY box - minY box) * 4).
  assert (Hcap : 0 <= maxIterations).
  { destruct Hbox as (Hin & [y1 H1] & _ & [x3 H3] & _).
    pose proof (Hin _ _ H1). pose proof (Hin _ _ H3). subst maxIterations. lia. }
  destruct (traceLoopC_traced x0 (minY box) maxIterations (S (Z.to_nat maxIterations))
              (TracerC.initialState x0 (minY box))) as (reason & s' & Hrun & Hinv).
  { unfold traced, TracerC.initialState.
    cbn [boundary currentX currentY iterations hd last length linked].
    repeat split; try reflexivity; try lia.
    - discriminate.
    - constructor; [exact Hshape | constructor]. }
  { cbn [TracerC.initialState iterations]. lia. }
  rewrite Hrun. cbn [bind snd]. exists (boundary s').
  split; [reflexivity|]. split; [reflexivity|]. split; [exact Hbox|].
  exists x0, s'. split; [reflexivity|]. split; [exact Hfirst|].
  split; [exact Hinv | reflexivity].
Qed.

End LineBoundaryFacts.

Section LineBoundaryTheorems.

Import Tracer Raster TracerC.
Local Open Scope Z_scope.

Variable pixels : pixelGrid.
Variables width height : Z.
Hypothesis grid : wellFormed pixels width height.

(** X26. [findSingleLineBoundary] of revision C returns on every well-formed
    grid; its result is empty exactly when the grid holds no foreground pixel,
    and otherwise starts with [[x, y]] for the first foreground pixel (x, y)
    of the row-major scan: the search inside the bounding box, with its two
    [break]s, ends in the first row of the box at the first foreground pixel.
    The y coordinate is not negated. *)
Theorem findSingleLineBoundary_starts_at_first_foreground :
  exists path,
    findSingleLineBoundary pixels width height = Ok path
    /\ match path with
       | [] => noForeground pixels width height
       | point :: _ =>
           shapePixel pixels width height (fst point) (snd point)
           /\ forall x y, inImage width height x y = true ->
                          before x y (fst point) (snd point) ->
                          readPixel pixels x y <> Ok 1
       end.
Proof.
  destruct (findSingleLineBoundary_traced pixels width height grid)
    as (box & path & _ & Hrun & Hfacts).
  exists path. split; [exact Hrun|].
  destruct (foundBlack box).
  - destruct Hfacts as (_ & x0 & s' & _ & Hfirst & Hinv & ->).
    destruct Hinv as (Hhd & [Hne _] & Hshape & _).
    destruct (boundary s') as [|point rest]; [congruence|].
    cbn [hd] in Hhd. subst point. cbn [fst snd].
    split; [|exact Hfirst]. inversion Hshape as [|? ? Hp _]. exact Hp.
  - destruct Hfacts as [Hnone ->]. exact Hnone.
Qed.

(** X27. The polygon [findSingleLineBoundary] returns walks over the shape:
    every point is a foreground pixel of the image, every point's pixel
    touches the next one's by a side or a corner, and the walk has at most
    4 x (box width + box height) + 1 points for the bounding box the function
    computed, the tightest box around the foreground.  A pixel may occur more
    than once. *)
Theorem findSingleLineBoundary_walks_the_shape :
  exists box path,
    shapeBounds pixels width height = Ok box
    /\ findSingleLineBoundary pixels width height = Ok path
    /\ Forall (fun point => shapePixel pixels width height (fst point) (snd point)) path
    /\ linked path = true
    /\ (path <> [] ->
        isBoundingBox pixels width height box
        /\ Z.of_nat (length path)
           <= (maxX box - minX box + maxY box - minY box) * 4 + 1
        /\ Z.of_nat (length path) <= (width + height - 2) * 4 + 1).
Proof.
  destruct (findSingleLineBoundary_traced pixels width height grid)
    as (box & path & Hbounds & Hrun & Hfacts).
  exists box, path. split; [exact Hbounds|]. split; [exact Hrun|].
  destruct (foundBlack box).
  - destruct Hfacts as (Hbox & x0 & s' & _ & _ & Hinv & ->).
    destruct Hinv as (_ & _ & Hshape & Hlinked & Hcount & Hcap).
    split; [exact Hshape|]. split; [exact Hlinked|]. intros _.
    split; [exact Hbox|]. split; [lia|].
    destruct Hbox as (Hin & [y1 H1] & [y2 H2] & [x3 H3] & [x4 H4]).
    pose proof (shapePixel_inside pixels width height _ _ H1).
    pose proof (shapePixel_inside pixels width height _ _ H2).
    pose proof (shapePixel_inside pixels width height _ _ H3).
    pose proof (shapePixel_inside pixels width height _ _ H4).
    lia.
  - destruct Hfacts as [_ ->]. split; [constructor|]. split; [reflexivity|]. congruence.
Qed.

End LineBoundaryTheorems.

Section DrawnPathFacts.

Import Num Paths Smooth Tracer Raster TracerC.
Local Open Scope Q_scope.

Variable Math_sqrt : Q -> Q.
Variable Math_atan2 : Q -> Q -> Q.



Variable imageData : list Z.
Variables imageWidth imageHeight threshold : Z.
Variables simplify width height : Q.
Variable dimensionControl : dimension.

Let target : Q := match dimensionControl with WIDTH => width | HEIGHT => height end.
Let size : Z :=
  match dimensionControl with WIDTH => imageWidth | HEIGHT => imageHeight end.


End DrawnPathFacts.


Section WriterCFacts.

Import Num Paths Runtime.
Local Open Scope Q_scope.

Variable Math_sqrt : Q -> Q.
Variable numberToString : Q -> string.

Let kept (minDistance : Q) (next previous : point) : bool :=
  Qle_bool minDistance (Stages.distance Math_sqrt next previous).

Lemma chained_snoc (test : point -> point -> bool) (path : contour) q :
  path <> [] -> chained test path = true -> test q (lastOf path) = true ->
  chained test (path ++ [q]) = true.
Proof.
  induction path as [|p [|p' rest] IH]; intros Hne Hc Hq; [congruence | |].
  - cbn [app chained]. unfold lastOf in Hq. cbn [last] in Hq. rewrite Hq. reflexivity.
  - change (chained test ((p :: p' :: rest) ++ [q]))
      with (test p' p && chained test ((p' :: rest) ++ [q])).
    change (chained test (p :: p' :: rest)) with (test p' p && chained test (p' :: rest))
      in Hc.
    apply andb_prop in Hc as [H1 H2]. rewrite H1. cbn [andb].
    apply IH; [discriminate | exact H2 | exact Hq].
Qed.

Lemma chained_at (test : point -> point -> bool) (path : contour) :
  chained test path = true ->
  forall i, (i + 1 < length path)%nat -> test (at_ path (i + 1)) (at_ path i) = true.
Proof.
  induction path as [|p [|p' rest] IH]; intros Hc i Hi; cbn [length] in Hi; try lia.
  change (chained test (p :: p' :: rest)) with (test p' p && chained test (p' :: rest))
    in Hc.
  apply andb_prop in Hc as [H1 H2]. destruct i as [|i]; [exact H1|].
  apply (IH H2 i). cbn [length]. lia.
Qed.

Lemma keepSeparated_chained minDistance (rest : contour) :
  forall cleaned,
  cleaned <> [] -> chained (kept minDistance) cleaned = true ->
  let out := RevA.keepSeparated Math_sqrt minDistance cleaned rest in
  chained (kept minDistance) out = true /\ out <> [] /\ at_ out 0 = at_ cleaned 0.
Proof.
  induction rest as [|current rest IH]; intros cleaned Hne Hc; cbn [RevA.keepSeparated].
  - cbv zeta. auto.
  - destruct (Qle_bool _ _) eqn:Hfar.
    + destruct (IH (cleaned ++ [current])) as (H1 & H2 & H3).
      * destruct cleaned; discriminate.
      * apply chained_snoc; assumption.
      * cbv zeta in *. repeat split; try assumption.
        rewrite H3. destruct cleaned; [congruence | reflexivity].
    + apply IH; assumption.
Qed.

Lemma removelast_indexed (c : contour) :
  map (at_ c) (seq 0 (length c - 1)) = removelast c.
Proof.
  destruct c as [|p0 c0]; [reflexivity|].
  destruct (exists_last (l := p0 :: c0) ltac:(discriminate)) as (front & p & ->).
  rewrite removelast_last, length_app. cbn [length].
  replace (length front + 1 - 1)%nat with (length front) by lia.
  rewrite <- (contour_indexed front) at 3. apply map_ext_in. intros i Hi.
  apply in_seq in Hi. unfold at_. apply app_nth1. lia.
Qed.

(** The second loop of [cleanPoints] after the first: only the last point can go. *)
Lemma finalCleaned_after_first_pass minDistance (cleaned : contour) :
  cleaned <> [] -> chained (kept minDistance) cleaned = true ->
  WriterC.finalCleaned Math_sqrt minDistance cleaned
  = if kept minDistance (at_ cleaned 0) (lastOf cleaned)
    then cleaned else removelast cleaned.
Proof.
  intros Hne Hc. unfold WriterC.finalCleaned.
  destruct (length cleaned) as [|m] eqn:Hlen; [destruct cleaned; [congruence | discriminate]|].
  rewrite seq_S, flat_map_app. cbn [flat_map Nat.add].
  replace ((m + 1) mod S m)%nat with O
    by (rewrite Nat.add_1_r, Nat.Div0.mod_same; reflexivity).
  assert (Hlast : at_ cleaned m = lastOf cleaned).
  { rewrite lastOf_at. f_equal. lia. }
  rewrite Hlast, app_nil_r.
  assert (Hfront : flat_map
                     (fun i =>
                        if Qle_bool minDistance
                             (Stages.distance Math_sqrt (at_ cleaned ((i + 1) mod S m))
                                (at_ cleaned i))
                        then [at_ cleaned i] else [])
                     (seq 0 m)
                   = removelast cleaned).
  { rewrite <- removelast_indexed, Hlen. replace (S m - 1)%nat with m by lia.
    apply flat_map_singletons. intros i Hi. apply in_seq in Hi.
    rewrite Nat.mod_small by lia.
    pose proof (chained_at _ _ Hc i ltac:(lia)) as Hkept. unfold kept in Hkept.
    rewrite Hkept. reflexivity. }
  rewrite Hfront. unfold kept.
  destruct (Qle_bool _ _); [|apply app_nil_r].
  symmetry. unfold lastOf. apply app_removelast_last. exact Hne.
Qed.

(** X29. The second loop of [cleanPoints] of revision C repeats, for every point
    but the last, the test the first loop made, so it can only drop the last
    point: for 2 or more points the result is what the first loop kept, without
    its last point when the first point is less than 0.001 away from it. *)
Theorem cleanPoints_drops_only_the_last (points : contour) :
  (2 <= length points)%nat ->
  let cleaned :=
    RevA.keepSeparated Math_sqrt (1 # 1000) [at_ points 0] (tl points) in
  cleaned <> []
  /\ at_ cleaned 0 = at_ points 0
  /\ WriterC.cleanPoints Math_sqrt points
     = if Qle_bool (1 # 1000) (Stages.distance Math_sqrt (at_ cleaned 0) (lastOf cleaned))
       then cleaned else removelast cleaned.
Proof.
  intros Hlen cleaned.
  destruct (keepSeparated_chained (1 # 1000) (tl points) [at_ points 0])
    as (Hc & Hne & Hfirst); [discriminate | reflexivity |].
  fold cleaned in Hc, Hne, Hfirst.
  split; [exact Hne|]. split; [exact Hfirst|].
  unfold WriterC.cleanPoints.
  replace (length points <? 2)%nat with false by (symmetry; apply Nat.ltb_ge; exact Hlen).
  cbv zeta. fold cleaned. apply finalCleaned_after_first_pass; assumption.
Qed.

End WriterCFacts.

Section ClosedPolygonC.

Import Num Paths Runtime.
Local Open Scope Q_scope.

Variable Math_sqrt : Q -> Q.
Variable Math_atan2 : Q -> Q -> Q.
Variable numberToString : Q -> string.
Hypothesis runtime : Runtime.facts Math_sqrt Math_atan2.

Lemma separatedFrom_chained tolerance (rest : contour) :
  0 <= tolerance ->
  forall previous,
  separatedFrom tolerance previous rest = true ->
  chained (fun next previous =>
             Qle_bool tolerance (Stages.distance Math_sqrt next previous))
          (previous :: rest) = true.
Proof.
  intros Htol. induction rest as [|next rest IH]; intros previous Hsep; [reflexivity|].
  cbn [separatedFrom] in Hsep. apply andb_prop in Hsep as [Hfar Hrest].
  change (chained ?t (previous :: next :: rest))
    with (t next previous && chained t (next :: rest)).
  cbv beta.
  destruct (far_kept Math_sqrt Math_atan2 runtime tolerance _ _ Htol Hfar) as [Hkeep _].
  rewrite Hkeep. cbn [andb]. apply IH, Hrest.
Qed.

(** X30. [addPolyline] of revision C with [closed: true], for 3 or more points
    each clearly more than 0.001 away from the one before it all around the
    polygon: [cleanPoints] keeps every point, and exactly the sides of the
    closed polygon are written in order, one LINE from every point to the next
    and the closing LINE from the last point back to the first. *)
Theorem addPolyline_revisionC_writes_closed_polygon (w : RevA.writer)
  (points : contour) (layer : string) :
  (3 <= length points)%nat ->
  separatedCycle (1 # 1000) points = true ->
  WriterC.cleanPoints Math_sqrt points = points
  /\ WriterC.addPolyline Math_sqrt numberToString w points layer true
     = w ++ flat_map
              (fun i => RevA.lineEntity numberToString layer (at_ points i)
                          (at_ points ((i + 1) mod length points)))
              (seq 0 (length points)).
Proof.
  intros Hlen Hcycle.
  destruct points as [|first rest]; [cbn in Hlen; lia|].
  cbn [separatedCycle] in Hcycle. apply andb_prop in Hcycle as [Hsep Hclose].
  set (points := first :: rest) in *.
  destruct (far_kept Math_sqrt Math_atan2 runtime (1 # 1000) _ _ ltac:(discriminate)
              Hclose) as [Hback _].
  assert (Hclean : WriterC.cleanPoints Math_sqrt points = points).
  { unfold WriterC.cleanPoints.
    replace (length points <? 2)%nat with false by (symmetry; apply Nat.ltb_ge; lia).
    cbv zeta. subst points. cbn [tl]. change (at_ (first :: rest) 0) with first.
    rewrite (keepSeparated_all Math_sqrt Math_atan2 runtime)
      by (try discriminate; exact Hsep).
    cbn [app]. rewrite finalCleaned_after_first_pass.
    - change (at_ (first :: rest) 0) with first. rewrite Hback. reflexivity.
    - discriminate.
    - apply separatedFrom_chained; [discriminate | exact Hsep]. }
  split; [exact Hclean|].
  unfold WriterC.addPolyline.
  replace (length points <? 2)%nat with false by (symmetry; apply Nat.ltb_ge; lia).
  cbv zeta. rewrite Hclean.
  replace (2 <? length points)%nat with true by (symmetry; apply Nat.ltb_lt; lia).
  cbn [andb]. change (at_ points 0) with first.
  assert (Hclosing : Qle_bool (1 # 10000) (Stages.distance Math_sqrt first (lastOf points))
                     = true).
  { apply Qle_bool_iff. apply Qle_bool_iff in Hback. lra. }
  rewrite Hclosing. f_equal.
  destruct (length points) as [|m] eqn:Hm; [lia|].
  replace (S m - 1)%nat with m by lia.
  rewrite seq_S, flat_map_app. cbn [flat_map Nat.add].
  replace ((m + 1) mod S m)%nat with O
    by (rewrite Nat.add_1_r, Nat.Div0.mod_same; reflexivity).
  change (at_ points 0) with first.
  replace (at_ points m) with (lastOf points)
    by (rewrite lastOf_at; f_equal; lia).
  rewrite app_nil_r. f_equal.
  apply flat_map_same. intros i Hi. apply in_seq in Hi.
  rewrite Nat.mod_small by lia.
  assert (Hfar : farApart (1 # 1000) (at_ points (i + 1)) (at_ points i) = true).
  { rewrite Nat.add_1_r. apply separatedFrom_at; [exact Hsep|].
    subst points. cbn [length] in Hm. lia. }
  destruct (far_kept Math_sqrt Math_atan2 runtime (1 # 1000) _ _ ltac:(discriminate)
              Hfar) as [Hkeep _].
  apply Qle_bool_iff in Hkeep.
  rewrite (proj2 (Qltb_ge _ _)) by lra. reflexivity.
Qed.

End ClosedPolygonC.


Section PipelineExamples.

Import Num Paths Smooth Raster Runtime Examples Samples.
Local Open Scope Q_scope.

Lemma hexagon_box : Forall (inBox 0 4 (- (4)) 0) hexagon.
Proof.
  unfold hexagon.
  repeat (apply Forall_cons; [unfold inBox; cbn [fst snd]; lra|]). apply Forall_nil.
Qed.

Lemma smoothContour_stays_in_box_hexagon :
  length (smoothContour hexagon) = length hexagon
  /\ Forall (inBox 0 4 (- (4)) 0) (smoothContour hexagon).
Proof.
  exact (smoothContour_stays_in_box 0 4 (- (4)) 0 hexagon hexagon_box).
Defined.

Lemma cleanPath_separates_triangle :
  let out := cleanPath sqrt_sample triangle in
  at_ out 0 = at_ triangle 0
  /\ incl out triangle
  /\ (length out <= length triangle + 1)%nat
  /\ apart (separation sqrt_sample) (1 # 2) out = true
  /\ ((2 < length out)%nat ->
      lastOf out = at_ out 0
      \/ Qltb (1 # 2) (separation sqrt_sample (at_ out 0) (lastOf out)) = false).
Proof.
  apply (cleanPath_separates sqrt_sample triangle). cbn. lia.
Defined.

Lemma cleanPath_keeps_traced_points_block5 :
  exists b,
    Tracer.findSingleOuterBoundary block5 5 5 = Ok b
    /\ (3 <= length b)%nat
    /\ cleanPath sqrt_sample (toContour b) = toContour b ++ [at_ (toContour b) 0].
Proof.
  destruct (cleanPath_keeps_traced_points sqrt_sample atan2_sample facts_sample
              block5 5 5 block5_wellFormed) as (b & Hb & Hclean).
  exists b. split; [exact Hb|].
  assert (Hlen : (3 <= length b)%nat).
  { vm_compute in Hb. injection Hb as <-. cbn. lia. }
  split; [exact Hlen | exact (Hclean Hlen)].
Defined.

Lemma refinedPath_stays_in_box_hexagon :
  exists out,
    PipelineA.refinedPath sqrt_sample atan2_sample hexagon (1 # 10) = Ok out
    /\ Forall (inBox 0 4 (- (4)) 0) out
    /\ (length out <= length hexagon + 2)%nat
    /\ (hexagon <> [] -> out <> []).
Proof.
  exact (refinedPath_stays_in_box sqrt_sample atan2_sample 0 4 (- (4)) 0 hexagon
           (1 # 10) hexagon_box).
Defined.

Lemma addPolyline_writes_closed_polygon_triangle :
  RevA.addPolyline sqrt_sample wholePart RevA.SimpleDxfWriter triangle "0"
  = RevA.SimpleDxfWriter
    ++ flat_map
         (fun i => RevA.lineEntity wholePart "0" (at_ triangle i)
                     (at_ triangle ((i + 1) mod length triangle)))
         (seq 0 (length triangle)).
Proof.
  apply (addPolyline_writes_closed_polygon sqrt_sample atan2_sample wholePart
           facts_sample RevA.SimpleDxfWriter triangle "0").
  - cbn. lia.
  - reflexivity.
Defined.

Lemma convertRasterToDxf_returns_valid_document_bytes3x2 :
  exists text lines,
    PipelineA.convertRasterToDxf sqrt_sample atan2_sample wholePart bytes3x2
      3 2 128 (1 # 10) (9 # 4) (3 # 4) WIDTH
    = Ok (text, lines)
    /\ text = RevA.join lines
    /\ RevA.structurallyValid lines = true
    /\ last lines ""%string = "EOF"%string.
Proof.
  apply (convertRasterToDxf_returns_valid_document sqrt_sample atan2_sample wholePart
           bytes3x2 3 2 128 (1 # 10) (9 # 4) (3 # 4) WIDTH); lia.
Defined.

Lemma convertRasterToDxf_fits_scaled_image_bytes3x2 :
  let scale := (9 # 4) / inject_Z 3 in
  exists drawn,
    PipelineA.convertRasterToDxf sqrt_sample atan2_sample wholePart bytes3x2
      3 2 128 (1 # 10) (9 # 4) (3 # 4) WIDTH
    = Ok (RevA.toString
            (RevA.addPolyline sqrt_sample wholePart RevA.SimpleDxfWriter drawn "0"))
    /\ Forall (inBox 0 (scale * inject_Z (3 - 1)) (- (scale * inject_Z (2 - 1))) 0)
              drawn.
Proof.
  apply (convertRasterToDxf_fits_scaled_image sqrt_sample atan2_sample wholePart
           bytes3x2 3 2 128 (1 # 10) (9 # 4) (3 # 4) WIDTH); [lia | lia | discriminate].
Defined.


Lemma finalPath_stays_in_box_hexagon :
  let out := RevC.finalPath sqrt_sample atan2_sample hexagon (1 # 10) in
  Forall (inBox 0 4 (- (4)) 0) out
  /\ (length out <= length hexagon + 1)%nat
  /\ (hexagon <> [] -> out <> []).
Proof.
  exact (finalPath_stays_in_box sqrt_sample atan2_sample 0 4 (- (4)) 0 hexagon
           (1 # 10) hexagon_box).
Defined.

Lemma findSingleLineBoundary_starts_at_first_foreground_block5 :
  exists path,
    TracerC.findSingleLineBoundary block5 5 5 = Ok path
    /\ match path with
       | [] => Tracer.noForeground block5 5 5
       | point :: _ =>
           TracerC.shapePixel block5 5 5 (fst point) (snd point)
           /\ forall x y, Tracer.inImage 5 5 x y = true ->
                          before x y (fst point) (snd point) ->
                          Tracer.readPixel block5 x y <> Ok 1%Z
       end.
Proof.
  exact (findSingleLineBoundary_starts_at_first_foreground block5 5 5 block5_wellFormed).
Defined.

Lemma findSingleLineBoundary_walks_the_shape_block5 :
  exists box path,
    TracerC.shapeBounds block5 5 5 = Ok box
    /\ TracerC.findSingleLineBoundary block5 5 5 = Ok path
    /\ Forall (fun point => TracerC.shapePixel block5 5 5 (fst point) (snd point)) path
    /\ linked path = true
    /\ (path <> [] ->
        TracerC.isBoundingBox block5 5 5 box
        /\ (Z.of_nat (length path)
            <= (TracerC.maxX box - TracerC.minX box
                + TracerC.maxY box - TracerC.minY box) * 4 + 1)%Z
        /\ (Z.of_nat (length path) <= (5 + 5 - 2) * 4 + 1)%Z).
Proof.
  exact (findSingleLineBoundary_walks_the_shape block5 5 5 block5_wellFormed).
Defined.


Lemma cleanPoints_drops_only_the_last_triangle :
  let cleaned :=
    RevA.keepSeparated sqrt_sample (1 # 1000) [at_ triangle 0] (tl triangle) in
  cleaned <> []
  /\ at_ cleaned 0 = at_ triangle 0
  /\ WriterC.cleanPoints sqrt_sample triangle
     = if Qle_bool (1 # 1000) (Stages.distance sqrt_sample (at_ cleaned 0) (lastOf cleaned))
       then cleaned else removelast cleaned.
Proof.
  apply (cleanPoints_drops_only_the_last sqrt_sample triangle). cbn. lia.
Defined.

Lemma addPolyline_revisionC_writes_closed_polygon_triangle :
  WriterC.cleanPoints sqrt_sample triangle = triangle
  /\ WriterC.addPolyline sqrt_sample wholePart RevA.SimpleDxfWriter triangle "0" true
     = RevA.SimpleDxfWriter
       ++ flat_map
            (fun i => RevA.lineEntity wholePart "0" (at_ triangle i)
                        (at_ triangle ((i + 1) mod length triangle)))
            (seq 0 (length triangle)).
Proof.
  apply (addPolyline_revisionC_writes_closed_polygon sqrt_sample atan2_sample wholePart
           facts_sample RevA.SimpleDxfWriter triangle "0").
  - cbn. lia.
  - reflexivity.
Defined.

Lemma normalizeAngle_one_pass_each_truncated :
  let twoPi := RoundedAngle.twoPi Rounding.truncate in
  let raised := RoundedAngle.raiseAngle Rounding.truncate 1 (- (1)) in
  let normalized := RoundedAngle.lowerAngle Rounding.truncate 1 raised in
  Qltb raised 0 = false
  /\ Qle_bool twoPi normalized = false
  /\ (forall more1 more2 : nat,
        RoundedAngle.lowerAngle Rounding.truncate (1 + more2)
          (RoundedAngle.raiseAngle Rounding.truncate (1 + more1) (- (1)))
        = normalized)
  /\ 0 <= normalized < twoPi.
Proof.
  apply (normalizeAngle_one_pass_each Rounding.truncate truncate_sound (- (1))).
  split; vm_compute; discriminate.
Defined.

End PipelineExamples.
